(** * molex-ftp-client: a shallow embedding of the protocol engine

    The development follows the sources [lib/connection.js] (control
    channel, command dispatch, passive mode), [lib/utils.js] (parsing and
    path helpers) and [lib/commands.js] (transfers, [exists], [ensureDir]).

    Conventions.
    - A JavaScript string is a [string]; every character stands for one
      UTF-16 code unit below 256.  The text of a listing, which decoding
      takes beyond that range, is the list of its code units; a [Buffer]
      is the [string] of its bytes.
    - A JavaScript number is a value of the type [number]: [NaN], an
      infinity, or the integer that a finite double holds (the client
      computes with integers only).  Every arithmetic operation rounds
      its exact result to the nearest double, as [JS.double] does.
    - Node's event loop is made explicit: socket data, emitted reply
      lines and expiring timers are events, and a pending promise is a
      value of type [promise].  An [await] runs the event stream until
      the awaited promise settles. *)

From Stdlib Require Import String Ascii List ZArith Bool Lia DecimalString.
Import ListNotations.

Local Open Scope string_scope.
Local Open Scope Z_scope.

(* ================================================================= *)
(** ** JavaScript strings and numbers *)

Module JS.

Definition CR : ascii := "013"%char.
Definition LF : ascii := "010"%char.
Definition CRLF : string := String CR (String LF "").

(** [s.substring(start, end)] for [0 <= start <= end]. *)
Definition substring (s : string) (start stop : nat) : string :=
  String.substring start (stop - start) s.

(** [s.substring(start)]. *)
Fixpoint substring_from (s : string) (start : nat) : string :=
  match start, s with
  | O, _ => s
  | S n, "" => ""
  | S n, String _ s' => substring_from s' n
  end.

(** [s.charAt(i)]; [None] stands for the empty string JavaScript returns
    out of range. *)
Definition charAt (s : string) (i : nat) : option ascii := String.get i s.

(** [s.charAt(i) === c]. *)
Definition charAt_is (s : string) (i : nat) (c : ascii) : bool :=
  match charAt s i with
  | Some d => Ascii.eqb d c
  | None => false
  end.

(** [s.startsWith(p)]. *)
Definition startsWith (s p : string) : bool := String.prefix p s.

(** [s.includes(p)]. *)
Fixpoint includes (s p : string) : bool :=
  String.prefix p s ||
  match s with
  | "" => false
  | String _ s' => includes s' p
  end.

(** [s.lastIndexOf(c)] for a one-character needle; [-1] when absent. *)
Fixpoint lastIndexOf_from (s : string) (c : ascii) (i : Z) (found : Z) : Z :=
  match s with
  | "" => found
  | String d s' =>
      lastIndexOf_from s' c (i + 1) (if Ascii.eqb d c then i else found)
  end.

Definition lastIndexOf (s : string) (c : ascii) : Z :=
  lastIndexOf_from s c 0 (-1).

(** [s.split("\r\n")]: the segments between successive occurrences of
    CRLF, scanning from the left; always at least one segment. *)
Fixpoint split_crlf (s : string) : list string :=
  match s with
  | "" => [""]
  | String c s' =>
      let keep :=
        match split_crlf s' with
        | [] => [String c ""]
        | seg :: segs => String c seg :: segs
        end in
      if Ascii.eqb c CR then
        match s' with
        | String d s'' => if Ascii.eqb d LF then "" :: split_crlf s'' else keep
        | "" => keep
        end
      else keep
  end.

(** A value of JavaScript's number type, as far as the client uses it:
    [NaN], a finite double whose value is the integer [z], or an
    infinity.  The two zeros are not told apart; nothing the client
    computes depends on the sign of a zero. *)
Inductive number := NaN | Num (z : Z) | Infinity (negative : bool).

(** Integers below [2^53] in absolute value are doubles. *)
Definition two_53 : Z := 9007199254740992.

(** The double for the exact integer [z]: [z] itself below [2^53];
    beyond, [z] rounded to 53 significant bits, to the nearest, a tie to
    the even one; an infinity when that reaches [2^1024]. *)
Definition double (z : Z) : number :=
  let a := Z.abs z in
  if a <? two_53 then Num z
  else
    let e := Z.log2 a - 52 in
    let q := a / 2 ^ e in
    let r := a mod 2 ^ e in
    let half := 2 ^ (e - 1) in
    let q' :=
      if r <? half then q
      else if half <? r then q + 1
      else if Z.even q then q else q + 1 in
    if 2 ^ 1024 <=? q' * 2 ^ e then Infinity (z <? 0)
    else Num (Z.sgn z * (q' * 2 ^ e)).

(** Comparisons with a literal; any comparison with [NaN] is false. *)
Definition ge (x : number) (k : Z) : bool :=
  match x with
  | NaN => false
  | Num z => k <=? z
  | Infinity negative => negb negative
  end.
Definition lt (x : number) (k : Z) : bool :=
  match x with
  | NaN => false
  | Num z => z <? k
  | Infinity negative => negative
  end.
Definition eq (x : number) (k : Z) : bool :=
  match x with
  | NaN => false
  | Num z => z =? k
  | Infinity _ => false
  end.

(** The text a template literal produces for a number: the decimal
    digits of an integer below [10^21] in absolute value (the client
    formats reply codes only, which are read from three characters). *)
Definition to_string (x : number) : string :=
  match x with
  | NaN => "NaN"
  | Num z => NilZero.string_of_int (Z.to_int z)
  | Infinity negative => if negative then "-Infinity" else "Infinity"
  end.

(** White space that [parseInt] skips (the code units below 256 of
    ECMAScript's WhiteSpace and LineTerminator). *)
Definition is_white (c : ascii) : bool :=
  let n := nat_of_ascii c in
  ((9 <=? n) && (n <=? 13) || (n =? 32) || (n =? 160))%nat.

Fixpoint skip_white (s : string) : string :=
  match s with
  | String c s' => if is_white c then skip_white s' else s
  | "" => ""
  end.

Definition is_digit (c : ascii) : bool :=
  let n := nat_of_ascii c in ((48 <=? n) && (n <=? 57))%nat.

(** The value of [c] as a digit in [radix] 10 or 16. *)
Definition digit_val (radix : Z) (c : ascii) : option Z :=
  let n := Z.of_nat (nat_of_ascii c) in
  if (48 <=? n) && (n <=? 57) then Some (n - 48)
  else if (radix =? 16) && (97 <=? n) && (n <=? 102) then Some (n - 87)
  else if (radix =? 16) && (65 <=? n) && (n <=? 70) then Some (n - 55)
  else None.

(** Reads the longest prefix of digits; [acc] is [None] until a digit
    has been read. *)
Fixpoint parse_digits (radix : Z) (acc : option Z) (s : string) : option Z :=
  match s with
  | "" => acc
  | String c s' =>
      match digit_val radix c with
      | Some d =>
          parse_digits radix
            (Some (radix * match acc with Some a => a | None => 0 end + d)) s'
      | None => acc
      end
  end.

(** [parseInt(s)] with no radix argument: leading white space is
    skipped, a sign is read, a prefix [0x] or [0X] selects radix 16,
    and the digits up to the first character that is not one are read
    as an integer, of which the result is the nearest double (every
    digit counts, as in V8; ECMAScript lets an implementation take the
    digits after the 20th for zeros); no digit at all gives [NaN]. *)
Definition parseInt (s : string) : number :=
  let s1 := skip_white s in
  let '(sign, s2) :=
    match s1 with
    | String c r =>
        if Ascii.eqb c "-" then (-1, r)
        else if Ascii.eqb c "+" then (1, r)
        else (1, s1)
    | "" => (1, s1)
    end in
  let '(radix, s3) :=
    match s2 with
    | String c (String d r) =>
        if Ascii.eqb c "0" && (Ascii.eqb d "x" || Ascii.eqb d "X")
        then (16, r)
        else (10, s2)
    | _ => (10, s2)
    end in
  match parse_digits radix None s3 with
  | Some v => double (sign * v)
  | None => NaN
  end.

(** [x * y], [x + y] and [x - y] on numbers. *)
Definition mul (x y : number) : number :=
  match x, y with
  | Num a, Num b => double (a * b)
  | Infinity n, Num b =>
      if b =? 0 then NaN else Infinity (xorb n (b <? 0))
  | Num a, Infinity n =>
      if a =? 0 then NaN else Infinity (xorb (a <? 0) n)
  | Infinity n, Infinity n' => Infinity (xorb n n')
  | _, _ => NaN
  end.

Definition add (x y : number) : number :=
  match x, y with
  | Num a, Num b => double (a + b)
  | Infinity n, Num _ => Infinity n
  | Num _, Infinity n => Infinity n
  | Infinity n, Infinity n' => if Bool.eqb n n' then Infinity n else NaN
  | _, _ => NaN
  end.

Definition sub (x y : number) : number :=
  match x, y with
  | Num a, Num b => double (a - b)
  | Infinity n, Num _ => Infinity n
  | Num _, Infinity n => Infinity (negb n)
  | Infinity n, Infinity n' => if Bool.eqb n n' then NaN else Infinity n
  | _, _ => NaN
  end.

End JS.

(* ================================================================= *)
(** ** Promises *)

(** The state of a promise whose rejection value is an [Error] with the
    given message. *)
Inductive promise (A : Type) : Type :=
| Pending
| Resolved (value : A)
| Rejected (message : string).
Arguments Pending {A}.
Arguments Resolved {A} value.
Arguments Rejected {A} message.

(** [resolve] and [reject] settle a promise once; later calls are ignored. *)
Definition resolve {A} (p : promise A) (v : A) : promise A :=
  match p with Pending => Resolved v | _ => p end.

Definition reject {A} (p : promise A) (message : string) : promise A :=
  match p with Pending => Rejected message | _ => p end.

Definition settled {A} (p : promise A) : bool :=
  match p with Pending => false | _ => true end.

(* ================================================================= *)
(** ** lib/utils.js *)

(** [maskPassword(command)]. *)
Definition maskPassword (command : string) : string :=
  if JS.startsWith command "PASS " then "PASS ********" else command.

(* ================================================================= *)
(** ** lib/FTPClient.js: the client object *)

(** The fields of [FTPClient] that the engine reads or writes.  [socket]
    records what has been written to the control socket, oldest first. *)
Record FTPClient := mkClient {
  socket : list string;
  buffer : string;
  connected : bool;
  authenticated : bool;
  timeout : Z;
  _commandCount : Z;
  _lastCommand : option string
}.

(** [new FTPClient(options)] with the default timeout. *)
Definition new_client : FTPClient :=
  {| socket := []; buffer := ""; connected := false; authenticated := false;
     timeout := 30000; _commandCount := 0; _lastCommand := None |}.

(* ================================================================= *)
(** ** lib/connection.js: sendCommand *)

(** What [sendCommand] resolves with. *)
Record Reply := mkReply {
  code : JS.number;
  message : string;
  raw : string
}.

(** The closure of one [sendCommand] call: its arguments, whether the
    timer [timeoutId] is still armed, whether [responseHandler] is still
    subscribed to ['response'], and the promise it returned. *)
Record Command := mkCommand {
  command : string;
  allowPreliminary : bool;
  timeoutId : bool;
  subscribed : bool;
  result : promise Reply
}.

(** Events on the control channel while a command is outstanding: a reply
    line is emitted as ['response'], or the delay given to [setTimeout]
    has elapsed. *)
Inductive control_event :=
| Response (line : string)
| Deadline.

(** The body of the promise executor up to the socket write. *)
Definition sendCommand_start (client : FTPClient) (command : string)
    (allowPreliminary : bool) : FTPClient * Command :=
  if negb (connected client) then
    (client, mkCommand command allowPreliminary false false (Rejected "Not connected"))
  else
    ({| socket := socket client ++ [command ++ JS.CRLF];
        buffer := buffer client;
        connected := connected client;
        authenticated := authenticated client;
        timeout := timeout client;
        _commandCount := _commandCount client + 1;
        _lastCommand := Some command |},
     mkCommand command allowPreliminary true true Pending).

(** The callback handed to [setTimeout]. *)
Definition timeoutCallback (cmd : Command) : Command :=
  mkCommand (command cmd) (allowPreliminary cmd) false false
    (reject (result cmd) ("Command timeout: " ++ maskPassword (command cmd))).

(** [responseHandler(line)]. *)
Definition responseHandler (cmd : Command) (line : string) : Command :=
  let cleared :=
    mkCommand (command cmd) (allowPreliminary cmd) false (subscribed cmd) (result cmd) in
  let code := JS.parseInt (JS.substring line 0 3) in
  let message := JS.substring_from line 4 in
  if JS.charAt_is line 3 " " then
    if JS.ge code 100 && JS.lt code 200 && allowPreliminary cmd then
      cleared
    else
      let settle :=
        if JS.ge code 200 && JS.lt code 400 then
          resolve (result cmd) (mkReply code message line)
        else
          reject (result cmd) ("FTP Error " ++ JS.to_string code ++ ": " ++ message) in
      mkCommand (command cmd) (allowPreliminary cmd) false false settle
  else cleared.

(** One event delivered to an outstanding command: a line reaches the
    handler while it is subscribed, the timer fires while it is armed. *)
Definition deliver (cmd : Command) (e : control_event) : Command :=
  match e with
  | Response line => if subscribed cmd then responseHandler cmd line else cmd
  | Deadline => if timeoutId cmd then timeoutCallback cmd else cmd
  end.

(** [await] on the command's promise: events are delivered until it
    settles; the events not consumed are returned. *)
Fixpoint await_command (cmd : Command) (events : list control_event)
    : Command * list control_event :=
  match events with
  | [] => (cmd, [])
  | e :: rest =>
      if settled (result cmd) then (cmd, events)
      else await_command (deliver cmd e) rest
  end.

(** The client together with what the control channel will deliver. *)
Definition World : Type := FTPClient * list control_event.

(** An [async] operation of the client. *)
Definition Async (A : Type) : Type := World -> promise A * World.

(** The whole call, returning the final closure as well. *)
Definition sendCommand_run (command : string) (allowPreliminary : bool)
    (w : World) : Command * World :=
  let '(client, cmd) := sendCommand_start (fst w) command allowPreliminary in
  let '(cmd', rest) := await_command cmd (snd w) in
  (cmd', (client, rest)).

(** [await this.sendCommand(command, allowPreliminary)]. *)
Definition sendCommand (command : string) (allowPreliminary : bool) : Async Reply :=
  fun w =>
    let '(cmd, w') := sendCommand_run command allowPreliminary w in
    (result cmd, w').

(** A small monad for [async] code: a pending or rejected [await] ends
    the operation, [try_catch] handles a rejection. *)
Definition ret {A} (a : A) : Async A := fun w => (Resolved a, w).

Definition throw {A} (message : string) : Async A := fun w => (Rejected message, w).

Definition bind {A B} (m : Async A) (k : A -> Async B) : Async B :=
  fun w =>
    match m w with
    | (Resolved a, w') => k a w'
    | (Pending, w') => (Pending, w')
    | (Rejected e, w') => (Rejected e, w')
    end.

Definition try_catch {A} (m : Async A) (handler : string -> Async A) : Async A :=
  fun w =>
    match m w with
    | (Rejected e, w') => handler e w'
    | r => r
    end.

Declare Scope async_scope.
Delimit Scope async_scope with async.
Notation "x <- m ;; k" := (bind m (fun x => k))
  (at level 61, m at next level, right associativity) : async_scope.
Notation "m ;; k" := (bind m (fun _ => k))
  (at level 61, right associativity) : async_scope.
Local Open Scope async_scope.

(* ================================================================= *)
(** ** lib/connection.js: the socket's data handler *)

(** The lines a ['data'] event hands to the emit loop, and the client
    with the unterminated remainder kept in [buffer]:
    [buffer += data; lines = buffer.split('\r\n'); buffer = lines.pop()],
    then the loop body runs for every [line] that is not empty.  What
    the loop does with them, and when, is [loop] below. *)
Definition nonempty (line : string) : bool := negb (line =? "")%string.

Definition onData (client : FTPClient) (data : string) : FTPClient * list string :=
  let lines := JS.split_crlf (buffer client ++ data) in
  ({| socket := socket client;
      buffer := last lines "";
      connected := connected client;
      authenticated := authenticated client;
      timeout := timeout client;
      _commandCount := _commandCount client;
      _lastCommand := _lastCommand client |},
   filter nonempty (removelast lines)).

(** A sequence of ['data'] events: the lines handed to the loop, chunk
    after chunk. *)
Fixpoint onData_all (client : FTPClient) (chunks : list string)
    : FTPClient * list string :=
  match chunks with
  | [] => (client, [])
  | data :: rest =>
      let '(client1, lines) := onData client data in
      let '(client2, more) := onData_all client1 rest in
      (client2, (lines ++ more)%list)
  end.

(* ================================================================= *)
(** ** lib/connection.js and lib/utils.js: passive mode *)

(** The six capture groups of
    [/\((\d+),(\d+),(\d+),(\d+),(\d+),(\d+)\)/]. *)
Record PasvMatch := mkPasvMatch {
  m1 : string; m2 : string; m3 : string; m4 : string; m5 : string; m6 : string
}.

(** The longest run of decimal digits at the head of [s], and the rest. *)
Fixpoint span_digits (s : string) : string * string :=
  match s with
  | "" => ("", "")
  | String c s' =>
      if JS.is_digit c then
        let '(ds, rest) := span_digits s' in (String c ds, rest)
      else ("", s)
  end.

(** [(\d+)] followed by the literal [stop].  The group is greedy and the
    character after it is not a digit, so no shorter run can match. *)
Definition group_then (stop : ascii) (s : string) : option (string * string) :=
  match span_digits s with
  | ("", _) => None
  | (ds, String c rest) => if Ascii.eqb c stop then Some (ds, rest) else None
  | (_, "") => None
  end.

(** The pattern anchored at the head of [s]. *)
Definition pasv_match_here (s : string) : option PasvMatch :=
  match s with
  | "" => None
  | String open s0 =>
      if negb (Ascii.eqb open "(") then None else
      match group_then "," s0 with
      | Some (a, s1) =>
      match group_then "," s1 with
      | Some (b, s2) =>
      match group_then "," s2 with
      | Some (c, s3) =>
      match group_then "," s3 with
      | Some (d, s4) =>
      match group_then "," s4 with
      | Some (p1, s5) =>
      match group_then ")" s5 with
      | Some (p2, _) => Some (mkPasvMatch a b c d p1 p2)
      | None => None end
      | None => None end
      | None => None end
      | None => None end
      | None => None end
      | None => None end
  end.

(** [message.match(re)]: the match at the leftmost position that has one. *)
Fixpoint pasv_match (s : string) : option PasvMatch :=
  match pasv_match_here s with
  | Some m => Some m
  | None =>
      match s with
      | "" => None
      | String _ s' => pasv_match s'
      end
  end.

Record Endpoint := mkEndpoint {
  host : string;
  port : JS.number
}.

Definition number_mul (x y : JS.number) : JS.number := JS.mul x y.

Definition number_add (x y : JS.number) : JS.number := JS.add x y.

(** Host and port out of a match, as both [enterPassiveMode] and
    [parsePasvResponse] compute them. *)
Definition endpoint_of (m : PasvMatch) : Endpoint :=
  {| host := m1 m ++ "." ++ m2 m ++ "." ++ m3 m ++ "." ++ m4 m;
     port := number_add (number_mul (JS.parseInt (m5 m)) (JS.Num 256))
                        (JS.parseInt (m6 m)) |}.

(** [parsePasvResponse(message)]; [inr] carries the message of the error
    thrown. *)
Definition parsePasvResponse (message : string) : Endpoint + string :=
  match pasv_match message with
  | None => inr "Failed to parse PASV response"
  | Some m => inl (endpoint_of m)
  end.

(** [enterPassiveMode()]. *)
Definition enterPassiveMode : Async Endpoint :=
  response <- sendCommand "PASV" false ;;
  match pasv_match (message response) with
  | None => throw "Failed to parse PASV response"
  | Some m => ret (endpoint_of m)
  end.

(* ================================================================= *)
(** ** lib/utils.js: paths *)

Fixpoint replace_backslashes (path : string) : string :=
  match path with
  | "" => ""
  | String c rest =>
      String (if Ascii.eqb c "092" then "/"%char else c) (replace_backslashes rest)
  end.

(** [replace(/\/+/g, '/')]: every maximal run of slashes becomes one. *)
Fixpoint collapse_slashes (path : string) : string :=
  match path with
  | "" => ""
  | String c rest =>
      if Ascii.eqb c "/" then
        match rest with
        | String d _ =>
            if Ascii.eqb d "/" then collapse_slashes rest
            else String c (collapse_slashes rest)
        | "" => String c ""
        end
      else String c (collapse_slashes rest)
  end.

(** [normalizePath(path)]. *)
Definition normalizePath (path : string) : string :=
  collapse_slashes (replace_backslashes path).

(** [getParentDir(filePath)]. *)
Definition getParentDir (filePath : string) : string :=
  let normalized := normalizePath filePath in
  let lastSlash := JS.lastIndexOf normalized "/" in
  if lastSlash <=? 0 then "/"
  else JS.substring normalized 0 (Z.to_nat lastSlash).

(** [s || d] on strings: the empty string is falsy. *)
Definition or_else (s d : string) : string := if (s =? "")%string then d else s.

(* ================================================================= *)
(** ** lib/commands.js: commands without a data channel *)

(** [cd(path)]. *)
Definition cd (path : string) : Async unit :=
  sendCommand ("CWD " ++ path) false ;; ret tt.

(** [mkdir(path)]. *)
Definition mkdir (path : string) : Async unit :=
  sendCommand ("MKD " ++ path) false ;; ret tt.

(** [size(path)]. *)
Definition size (path : string) : Async JS.number :=
  response <- sendCommand ("SIZE " ++ path) false ;;
  ret (JS.parseInt (message response)).

(** [exists(path)]. *)
Definition exists_ (path : string) : Async bool :=
  try_catch (size path ;; ret true) (fun _ => ret false).

(** The body of [ensureDir(dirPath, recursive)], with the recursive call
    taken as the parameter [self]. *)
Definition ensureDir_body (self : string -> bool -> Async unit)
    (dirPath : string) (recursive : bool) : Async unit :=
  let normalized := normalizePath dirPath in
  if (normalized =? "/")%string || (normalized =? ".")%string then ret tt
  else
    found <- try_catch (cd normalized ;; ret true) (fun _ => ret false) ;;
    if (found : bool) then ret tt
    else
      (if recursive then
         let parentDir :=
           or_else
             (JS.substring normalized 0 (Z.to_nat (JS.lastIndexOf normalized "/")))
             "/" in
         if negb (parentDir =? "/")%string && negb (parentDir =? ".")%string
         then self parentDir true
         else ret tt
       else ret tt) ;;
      try_catch (mkdir normalized)
        (fun err =>
           if negb (JS.includes err "550") && negb (JS.includes err "exists")
           then throw err
           else ret tt).

(** The recursion unrolled [fuel] times.  Every recursive call is on a
    strictly shorter path, so [S (length dirPath)] levels are never used
    up ([ensureDir_unfold] below: the function satisfies the source's own
    recursive equation). *)
Fixpoint ensureDir_fuel (fuel : nat) (dirPath : string) (recursive : bool)
    : Async unit :=
  match fuel with
  | O => fun w => (Pending, w)
  | S fuel' => ensureDir_body (ensureDir_fuel fuel') dirPath recursive
  end.

(** [ensureDir(dirPath, recursive)]. *)
Definition ensureDir (dirPath : string) (recursive : bool) : Async unit :=
  ensureDir_fuel (S (String.length dirPath)) dirPath recursive.

(** [ensureParentDir(filePath)]. *)
Definition ensureParentDir (filePath : string) : Async unit :=
  let parentDir := getParentDir filePath in
  if negb (parentDir =? "")%string && negb (parentDir =? ".")%string
     && negb (parentDir =? "/")%string
  then ensureDir parentDir true
  else ret tt.

(* ================================================================= *)
(** ** lib/commands.js: transfers over a data channel *)

(** [upload(data, remotePath)], [download(remotePath)] and [list(path)]
    share one skeleton; they differ in the command sent, in what is done
    with the data socket and in their completion handlers.  An upload
    carries the bytes to send: the data itself when it is a [Buffer],
    [Buffer.from(data, 'utf8')] when it is a string. *)
Inductive transfer_kind :=
| Upload (data : string)
| Download
| Listing.

(** Node's [Buffer], as far as the transfers use it.  A buffer is the
    [string] of its bytes. *)
Module Buffer.

(** The state of the UTF-8 decoder after a lead byte: the code point so
    far, the continuation bytes still needed and the range the next one
    has to be in. *)
Definition lead (n : Z) : option (Z * nat * Z * Z) :=
  if (194 <=? n) && (n <=? 223) then Some (n - 192, 1%nat, 128, 191)
  else if (224 <=? n) && (n <=? 239) then
    Some (n - 224, 2%nat, if n =? 224 then 160 else 128,
          if n =? 237 then 159 else 191)
  else if (240 <=? n) && (n <=? 244) then
    Some (n - 240, 3%nat, if n =? 240 then 144 else 128,
          if n =? 244 then 143 else 191)
  else None.

(** The code points of [bytes] read as UTF-8.  Every maximal part of an
    ill-formed sequence gives one U+FFFD (65533), and the byte that ends
    it is read again as the start of the next sequence.  [needed] is the
    number of continuation bytes outstanding; with [needed = 0] a new
    sequence starts. *)
Fixpoint decode (cp : Z) (needed : nat) (lower upper : Z) (bytes : string)
    : list Z :=
  match bytes with
  | "" => match needed with O => [] | S _ => [65533] end
  | String b rest =>
      let n := Z.of_nat (nat_of_ascii b) in
      let start (_ : unit) :=
        if n <=? 127 then n :: decode 0 0 128 191 rest
        else match lead n with
             | Some (cp', needed', lower', upper') =>
                 decode cp' needed' lower' upper' rest
             | None => 65533 :: decode 0 0 128 191 rest
             end in
      match needed with
      | O => start tt
      | S k =>
          if (lower <=? n) && (n <=? upper) then
            let cp' := cp * 64 + (n - 128) in
            match k with
            | O => cp' :: decode 0 0 128 191 rest
            | S _ => decode cp' k 128 191 rest
            end
          else 65533 :: start tt
      end
  end.

(** [Buffer.from(s, 'utf8')] for a string of code units below 256: one
    byte for a code unit below 128, two bytes from 128 on. *)
Fixpoint from (s : string) : string :=
  match s with
  | "" => ""
  | String c rest =>
      let n := nat_of_ascii c in
      if (n <? 128)%nat then String c (from rest)
      else String (ascii_of_nat (192 + n / 64))
             (String (ascii_of_nat (128 + n mod 64)) (from rest))
  end.

(** The UTF-16 code units of a code point. *)
Definition units (cp : Z) : list Z :=
  if cp <? 65536 then [cp]
  else [55296 + (cp - 65536) / 1024; 56320 + (cp - 65536) mod 1024].

(** [buf.toString('utf8')]: the string, as the list of its UTF-16 code
    units. *)
Definition toString (bytes : string) : list Z :=
  flat_map units (decode 0 0 128 191 bytes).

End Buffer.

(** What the promise of a transfer resolves with: nothing for an upload,
    a buffer for a download, a string for a list. *)
Inductive payload :=
| NoValue
| Data (bytes : string)
| Text (units : list Z).

(** Events while the promise executor's handlers are installed. *)
Inductive transfer_event :=
| Control (e : control_event)
| DataConnect
| DataChunk (chunk : string)
| DataError (message : string)
| DataClose
| Fallback.

(** The state shared by the handlers of one transfer: the client, the
    closure variables [commandSent] and [chunks], the closure of the
    transfer command once it has been sent, what was written to the data
    socket, whether [finalHandler] is subscribed, whether the timer set
    by the ['close'] handler is armed, and the promise returned. *)
Record Transfer := mkTransfer {
  kind : transfer_kind;
  remotePath : string;
  client : FTPClient;
  commandSent : bool;
  transferCommand : option Command;
  chunks : list string;
  dataSocket : list string;
  finalHandler : bool;
  fallbackTimer : bool;
  outcome : promise payload
}.

Definition transfer_verb (k : transfer_kind) : string :=
  match k with
  | Upload _ => "STOR "
  | Download => "RETR "
  | Listing => "LIST "
  end.

(** The delay, in milliseconds, given to the ['close'] handler's timer. *)
Definition fallback_delay (k : transfer_kind) : Z :=
  match k with
  | Upload _ => 5000
  | Download => 5000
  | Listing => 3000
  end.

(** [Buffer.concat(chunks)]. *)
Definition concat_chunks (chunks : list string) : string :=
  fold_right String.append "" chunks.

(** What a transfer is resolved with when it completes: [resolve()] for
    an upload, [resolve(Buffer.concat(chunks))] for a download and
    [resolve(Buffer.concat(chunks).toString('utf8'))] for a list. *)
Definition resolution (k : transfer_kind) (chunks : list string) : payload :=
  match k with
  | Upload _ => NoValue
  | Download => Data (concat_chunks chunks)
  | Listing => Text (Buffer.toString (concat_chunks chunks))
  end.

(** The state when the promise executor has called [net.createConnection]
    for the endpoint that [enterPassiveMode] returned. *)
Definition transfer_open (k : transfer_kind) (path : string) (c : FTPClient)
    : Transfer :=
  mkTransfer k path c false None [] [] false false Pending.

(** [sendCommand(...).catch(reject)]: a rejected command rejects the
    transfer. *)
Definition catch_reject (cmd : option Command) (p : promise payload)
    : promise payload :=
  match cmd with
  | Some {| result := Rejected e |} => reject p e
  | _ => p
  end.

(** [finalHandler(line)] of the three ['close'] handlers: the new
    subscription flag and the promise. *)
Definition finalHandler_run (k : transfer_kind) (chunks : list string)
    (p : promise payload) (line : string) : bool * promise payload :=
  let code := JS.parseInt (JS.substring line 0 3) in
  if JS.eq code 226 || JS.eq code 250 then
    (false, resolve p (resolution k chunks))
  else
    match k with
    | Listing => (true, p)
    | _ =>
        if JS.ge code 400 then
          (false,
           reject p ("FTP Error " ++ JS.to_string code ++ ": "
                     ++ JS.substring_from line 4))
        else (true, p)
    end.

(** The timer callback of the three ['close'] handlers. *)
Definition fallback_run (k : transfer_kind) (chunks : list string)
    (p : promise payload) : promise payload :=
  match k with
  | Upload _ => resolve p (resolution k chunks)
  | Download =>
      match chunks with
      | [] => p
      | _ :: _ => resolve p (resolution k chunks)
      end
  | Listing => resolve p (resolution k chunks)
  end.

(** One event of a transfer.  A reply line goes to the listeners in the
    order they subscribed, [responseHandler] of the transfer command
    before [finalHandler]; the command's rejection reaches [reject] in a
    later microtask, after [finalHandler] has run. *)
Definition transfer_step (t : Transfer) (e : transfer_event) : Transfer :=
  match e with
  | DataConnect =>
      if commandSent t then t
      else
        let '(c, cmd) :=
          sendCommand_start (client t) (transfer_verb (kind t) ++ remotePath t) true in
        mkTransfer (kind t) (remotePath t) c true (Some cmd) (chunks t)
          match kind t with
          | Upload data => dataSocket t ++ [data]
          | _ => dataSocket t
          end
          (finalHandler t) (fallbackTimer t)
          (catch_reject (Some cmd) (outcome t))
  | DataChunk chunk =>
      match kind t with
      | Upload _ => t
      | _ =>
          mkTransfer (kind t) (remotePath t) (client t) (commandSent t)
            (transferCommand t) (chunks t ++ [chunk]) (dataSocket t)
            (finalHandler t) (fallbackTimer t) (outcome t)
      end
  | DataError message =>
      mkTransfer (kind t) (remotePath t) (client t) (commandSent t)
        (transferCommand t) (chunks t) (dataSocket t)
        (finalHandler t) (fallbackTimer t) (reject (outcome t) message)
  | DataClose =>
      mkTransfer (kind t) (remotePath t) (client t) (commandSent t)
        (transferCommand t) (chunks t) (dataSocket t)
        true true (outcome t)
  | Control (Response line) =>
      let cmd := option_map (fun cmd => deliver cmd (Response line)) (transferCommand t) in
      let '(listening, p) :=
        if finalHandler t
        then finalHandler_run (kind t) (chunks t) (outcome t) line
        else (false, outcome t) in
      mkTransfer (kind t) (remotePath t) (client t) (commandSent t)
        cmd (chunks t) (dataSocket t)
        listening (fallbackTimer t) (catch_reject cmd p)
  | Control Deadline =>
      let cmd := option_map (fun cmd => deliver cmd Deadline) (transferCommand t) in
      mkTransfer (kind t) (remotePath t) (client t) (commandSent t)
        cmd (chunks t) (dataSocket t)
        (finalHandler t) (fallbackTimer t) (catch_reject cmd (outcome t))
  | Fallback =>
      if fallbackTimer t then
        mkTransfer (kind t) (remotePath t) (client t) (commandSent t)
          (transferCommand t) (chunks t) (dataSocket t)
          false false (fallback_run (kind t) (chunks t) (outcome t))
      else t
  end.

Definition transfer_run (t : Transfer) (events : list transfer_event) : Transfer :=
  fold_left transfer_step events t.

(** A whole transfer: passive mode is negotiated on the control channel,
    then the data connection's events run. *)
Definition transfer (k : transfer_kind) (path : string) (w : World)
    (events : list transfer_event) : promise payload :=
  match enterPassiveMode w with
  | (Resolved _, (c, _)) => outcome (transfer_run (transfer_open k path c) events)
  | (Pending, _) => Pending
  | (Rejected e, _) => Rejected e
  end.

(** [upload(data, remotePath)] for a string [data]. *)
Definition upload (data remotePath : string) :=
  transfer (Upload (Buffer.from data)) remotePath.
Definition download (remotePath : string) := transfer Download remotePath.
Definition list_ (path : string) := transfer Listing path.

(** A reply line as a transfer event. *)
Definition reply_line (line : string) : transfer_event := Control (Response line).

(* ================================================================= *)
(** * Properties *)

(** ** Vocabulary of the statements *)

(** The client an operation leaves behind, and the events it did not
    consume. *)
Definition client_after {A} (r : A * World) : FTPClient := fst (snd r).
Definition events_after {A} (r : A * World) : list control_event := snd (snd r).

(** The parts of a reply line that [responseHandler] reads. *)
Definition reply_code (line : string) : JS.number :=
  JS.parseInt (JS.substring line 0 3).
Definition reply_message (line : string) : string := JS.substring_from line 4.

(** The 4th character is a space. *)
Definition is_final (line : string) : bool := JS.charAt_is line 3 " ".

(** The code is in [100,200). *)
Definition is_preliminary (line : string) : bool :=
  JS.ge (reply_code line) 100 && JS.lt (reply_code line) 200.

(** A line on which a command goes on waiting: a continuation line, or a
    final 1xx line when preliminary replies are allowed. *)
Definition waiting_line (allowPreliminary : bool) (line : string) : bool :=
  negb (is_final line) || (is_preliminary line && allowPreliminary).

(** The closure of a connected call that is still waiting, with its timer
    armed or not. *)
Definition waiting (command : string) (allowPreliminary armed : bool) : Command :=
  mkCommand command allowPreliminary armed true Pending.

(** A client with an open control connection. *)
Definition online (c : FTPClient) : FTPClient :=
  {| socket := socket c; buffer := buffer c; connected := true;
     authenticated := authenticated c; timeout := timeout c;
     _commandCount := _commandCount c; _lastCommand := _lastCommand c |}.

(** [c] put in front of the first segment. *)
Definition push_char (c : ascii) (segs : list string) : list string :=
  match segs with
  | [] => [String c ""]
  | seg :: segs' => String c seg :: segs'
  end.

(** The string starts with CRLF. *)
Definition at_crlf (s : string) : bool :=
  match s with
  | String c (String d _) => Ascii.eqb c JS.CR && Ascii.eqb d JS.LF
  | _ => false
  end.

(** Segments put back together with CRLF between them. *)
Fixpoint join_crlf (segs : list string) : string :=
  match segs with
  | [] => ""
  | [seg] => seg
  | seg :: segs' => seg ++ JS.CRLF ++ join_crlf segs'
  end.

(** The string contains a CRLF. *)
Fixpoint has_crlf (s : string) : bool :=
  at_crlf s || match s with "" => false | String _ s' => has_crlf s' end.

(** The pattern, in the statements' own terms: six non-empty groups of
    decimal digits between parentheses, separated by commas. *)
Fixpoint all_digits (s : string) : bool :=
  match s with
  | "" => true
  | String c s' => JS.is_digit c && all_digits s'
  end.

Definition digit_group (s : string) : bool :=
  negb (s =? "")%string && all_digits s.

Definition digit_groups (m : PasvMatch) : bool :=
  digit_group (m1 m) && digit_group (m2 m) && digit_group (m3 m)
  && digit_group (m4 m) && digit_group (m5 m) && digit_group (m6 m).

Definition pasv_text (m : PasvMatch) : string :=
  "(" ++ m1 m ++ "," ++ m2 m ++ "," ++ m3 m ++ "," ++ m4 m ++ ","
  ++ m5 m ++ "," ++ m6 m ++ ")".

(** The message holds the pattern with groups [m] right after [pre]. *)
Definition occurs_at (pre message : string) (m : PasvMatch) : Prop :=
  digit_groups m = true /\ exists post, message = pre ++ pasv_text m ++ post.

(** No occurrence starts further to the left. *)
Definition leftmost (pre message : string) : Prop :=
  forall pre' m', occurs_at pre' message m' ->
                  (String.length pre <= String.length pre')%nat.

(** The number a group of decimal digits denotes. *)
Fixpoint decimal_from (acc : Z) (s : string) : Z :=
  match s with
  | "" => acc
  | String c s' => decimal_from (10 * acc + (Z.of_nat (nat_of_ascii c) - 48)) s'
  end.

Definition decimal (s : string) : Z := decimal_from 0 s.

(** The endpoint the statement names for the groups [m]: host
    ["a.b.c.d"] and port [p1 * 256 + p2]. *)
Definition endpoint_named (m : PasvMatch) : Endpoint :=
  {| host := m1 m ++ "." ++ m2 m ++ "." ++ m3 m ++ "." ++ m4 m;
     port := JS.Num (decimal (m5 m) * 256 + decimal (m6 m)) |}.

(** [p1 * 256 + p2] in the arithmetic of doubles, [p1] and [p2] being
    the integers that two groups of digits denote. *)
Definition double_port (p1 p2 : Z) : JS.number :=
  JS.add (JS.mul (JS.double p1) (JS.Num 256)) (JS.double p2).

(** The directory [ensureDir] recurses on, if any. *)
Definition parentDir_of (normalized : string) : string :=
  or_else
    (JS.substring normalized 0 (Z.to_nat (JS.lastIndexOf normalized "/")))
    "/".

(** The step between the probe and the creation. *)
Definition parent_step (self : string -> bool -> Async unit)
    (normalized : string) (recursive : bool) : Async unit :=
  if recursive then
    if negb (parentDir_of normalized =? "/")%string
       && negb (parentDir_of normalized =? ".")%string
    then self (parentDir_of normalized) true
    else ret tt
  else ret tt.

(** The handler of the [catch] around [mkdir]. *)
Definition mkd_catch (err : string) : Async unit :=
  if negb (JS.includes err "550") && negb (JS.includes err "exists")
  then throw err
  else ret tt.

(** The path is not the root nor the current directory, the CWD probe
    has failed, and the parents have been seen to: [ensureDir] is about
    to send MKD in the world [w1]. *)
Definition reaches_mkd (dirPath : string) (recursive : bool) (w w1 : World)
    : Prop :=
  (normalizePath dirPath =? "/")%string || (normalizePath dirPath =? ".")%string
  = false
  /\ exists e0 w0,
       cd (normalizePath dirPath) w = (Rejected e0, w0)
       /\ parent_step ensureDir (normalizePath dirPath) recursive w0
          = (Resolved tt, w1).

(** An error text that says the directory already exists, in the words
    of the specification: a 550 reply with that meaning. *)
Definition says_already_exists (err : string) : bool :=
  JS.includes err "550" && JS.includes err "exists".

(** A reply that [finalHandler] of an upload or a download acts on:
    226, 250 or a code of at least 400. *)
Definition qualifying (line : string) : bool :=
  JS.eq (reply_code line) 226 || JS.eq (reply_code line) 250
  || JS.ge (reply_code line) 400.

(** A line that leaves a transfer as it is: not a qualifying reply, and
    not a final reply whose code is below 100 or not a number (on which
    the transfer command, and with it the transfer, would fail). *)
Definition harmless (line : string) : bool :=
  negb (qualifying line)
  && negb (is_final line && negb (JS.ge (reply_code line) 100)).

(** What is known of the transfer command in every state a transfer can
    be in: it allows preliminary replies, and once it is rejected the
    transfer is settled. *)
Definition command_invariant (t : Transfer) : Prop :=
  match transferCommand t with
  | Some cmd =>
      allowPreliminary cmd = true
      /\ (forall e, result cmd = Rejected e -> outcome t <> Pending)
  | None => True
  end.

(** The state of a transfer between the close of the data socket and the
    fallback timer, as long as nothing has settled it. *)
Record closed_waiting (k : transfer_kind) (chs : list string) (t : Transfer)
    : Prop := {
  cw_kind : kind t = k;
  cw_chunks : chunks t = chs;
  cw_handler : finalHandler t = true;
  cw_timer : fallbackTimer t = true;
  cw_outcome : outcome t = Pending;
  cw_command :
    match transferCommand t with
    | Some cmd => allowPreliminary cmd = true
                  /\ forall e, result cmd <> Rejected e
    | None => True
    end
}.

(* ================================================================= *)
(** ** More of lib/connection.js, lib/utils.js and lib/commands.js *)

(** [this.client.authenticated = value]. *)
Definition set_authenticated (c : FTPClient) (value : bool) : FTPClient :=
  {| socket := socket c; buffer := buffer c; connected := connected c;
     authenticated := value; timeout := timeout c;
     _commandCount := _commandCount c; _lastCommand := _lastCommand c |}.

(** [this.client.connected = false; this.client.authenticated = false]. *)
Definition disconnected (c : FTPClient) : FTPClient :=
  {| socket := socket c; buffer := buffer c; connected := false;
     authenticated := false; timeout := timeout c;
     _commandCount := _commandCount c; _lastCommand := _lastCommand c |}.

(** The login exchange that the data handler of [connect] starts on a
    line whose code is 220 while the client is not authenticated; the
    promise of [connect] is resolved or rejected with its outcome. *)
Definition authenticate (user password : string) : Async unit :=
  sendCommand ("USER " ++ user) false ;;
  sendCommand ("PASS " ++ password) false ;;
  fun w => (Resolved tt, (set_authenticated (fst w) true, snd w)).

(** [close()].  [socket.end()] writes nothing. *)
Definition close : Async unit :=
  fun w =>
    if connected (fst w) then
      (try_catch (sendCommand "QUIT" false ;; ret tt) (fun _ => ret tt) ;;
       fun w' => (Resolved tt, (disconnected (fst w'), snd w'))) w
    else (Resolved tt, w).

(** [delete(path)]. *)
Definition delete_ (path : string) : Async unit :=
  sendCommand ("DELE " ++ path) false ;; ret tt.

(** [rename(from, to)]. *)
Definition rename (from to : string) : Async unit :=
  sendCommand ("RNFR " ++ from) false ;;
  sendCommand ("RNTO " ++ to) false ;;
  ret tt.

(** The double quote. *)
Definition quote : ascii := "034"%char.

(** The characters that [.] of a regular expression does not match. *)
Definition is_line_terminator (c : ascii) : bool :=
  Ascii.eqb c JS.LF || Ascii.eqb c JS.CR.

(** The longest prefix that [.+] can take. *)
Fixpoint dot_run (s : string) : string :=
  match s with
  | "" => ""
  | String c s' => if is_line_terminator c then "" else String c (dot_run s')
  end.

(** What precedes the last double quote of [s], if it has one. *)
Fixpoint before_last_quote (s : string) : option string :=
  match s with
  | "" => None
  | String c s' =>
      match before_last_quote s' with
      | Some body => Some (String c body)
      | None => if Ascii.eqb c quote then Some "" else None
      end
  end.

(** The group [(.+)] and the closing quote, right after an opening
    quote: the group is greedy, so it ends at the last quote that the
    run holds, and it is not empty. *)
Definition quoted_here (s : string) : option string :=
  match before_last_quote (dot_run s) with
  | Some (String c body) => Some (String c body)
  | _ => None
  end.

(** [message.match(re)] for the pattern quote, [(.+)], quote: the
    first group of the leftmost match. *)
Fixpoint pwd_match (s : string) : option string :=
  match s with
  | "" => None
  | String c s' =>
      if Ascii.eqb c quote then
        match quoted_here s' with
        | Some body => Some body
        | None => pwd_match s'
        end
      else pwd_match s'
  end.

(** [pwd()]. *)
Definition pwd : Async string :=
  response <- sendCommand "PWD" false ;;
  ret match pwd_match (message response) with
      | Some body => body
      | None => "/"
      end.

(** [Date.UTC] of ECMAScript on integers, with the time value of the
    [Date] it is wrapped in; [NaN] is the invalid date. *)
Module Date.

Definition msPerDay : Z := 86400000.

Definition DayFromYear (y : Z) : Z :=
  365 * (y - 1970) + (y - 1969) / 4 - (y - 1901) / 100 + (y - 1601) / 400.

Definition InLeapYear (y : Z) : bool :=
  (y mod 4 =? 0) && (negb (y mod 100 =? 0) || (y mod 400 =? 0)).

(** The day of the year on which month [m] (0 to 11) starts. *)
Definition month_start (leap : bool) (m : Z) : Z :=
  let shift := if leap then 1 else 0 in
  if m =? 0 then 0
  else if m =? 1 then 31
  else if m =? 2 then 59 + shift
  else if m =? 3 then 90 + shift
  else if m =? 4 then 120 + shift
  else if m =? 5 then 151 + shift
  else if m =? 6 then 181 + shift
  else if m =? 7 then 212 + shift
  else if m =? 8 then 243 + shift
  else if m =? 9 then 273 + shift
  else if m =? 10 then 304 + shift
  else 334 + shift.

Definition MakeDay (year month date : Z) : Z :=
  let ym := year + month / 12 in
  let mn := month mod 12 in
  DayFromYear ym + month_start (InLeapYear ym) mn + date - 1.

Definition MakeTime (hour min sec ms : Z) : Z :=
  hour * 3600000 + min * 60000 + sec * 1000 + ms.

Definition MakeDate (day time : Z) : Z := day * msPerDay + time.

Definition TimeClip (t : Z) : JS.number :=
  if Z.abs t <=? 8640000000000000 then JS.Num t else JS.NaN.

Definition UTC (year month date hours minutes seconds : JS.number)
    : JS.number :=
  match year, month, date, hours, minutes, seconds with
  | JS.Num y, JS.Num m, JS.Num dt, JS.Num h, JS.Num mi, JS.Num s =>
      let yr := if (0 <=? y) && (y <=? 99) then 1900 + y else y in
      TimeClip (MakeDate (MakeDay yr m dt) (MakeTime h mi s 0))
  | _, _, _, _, _, _ => JS.NaN
  end.

End Date.

Definition number_sub (x y : JS.number) : JS.number := JS.sub x y.

(** [\d{14}] anchored at the head of [s]. *)
Definition mdtm_match_here (s : string) : option string :=
  let ds := JS.substring s 0 14 in
  if (String.length ds =? 14)%nat && all_digits ds then Some ds else None.

(** [message.match(/(\d{14})/)]. *)
Fixpoint mdtm_match (s : string) : option string :=
  match mdtm_match_here s with
  | Some ds => Some ds
  | None =>
      match s with
      | "" => None
      | String _ s' => mdtm_match s'
      end
  end.

(** The time value out of the fourteen digits. *)
Definition mdtm_time (str : string) : JS.number :=
  let year := JS.parseInt (JS.substring str 0 4) in
  let month := number_sub (JS.parseInt (JS.substring str 4 6)) (JS.Num 1) in
  let day := JS.parseInt (JS.substring str 6 8) in
  let hour := JS.parseInt (JS.substring str 8 10) in
  let minute := JS.parseInt (JS.substring str 10 12) in
  let second := JS.parseInt (JS.substring str 12 14) in
  Date.UTC year month day hour minute second.

(** [parseMdtmResponse(message)]; [inr] carries the message of the error
    thrown. *)
Definition parseMdtmResponse (message : string) : JS.number + string :=
  match mdtm_match message with
  | None => inr "Failed to parse MDTM response"
  | Some str => inl (mdtm_time str)
  end.

(** [modifiedTime(path)]. *)
Definition modifiedTime (path : string) : Async JS.number :=
  response <- sendCommand ("MDTM " ++ path) false ;;
  match parseMdtmResponse (message response) with
  | inl time => ret time
  | inr err => throw err
  end.

(** ** More vocabulary *)

(** The string holds the character. *)
Fixpoint has_char (c : ascii) (s : string) : bool :=
  match s with
  | "" => false
  | String d s' => Ascii.eqb d c || has_char c s'
  end.

(** Two slashes in a row. *)
Fixpoint has_double_slash (s : string) : bool :=
  match s with
  | String c ((String d _) as s') =>
      (Ascii.eqb c "/" && Ascii.eqb d "/") || has_double_slash s'
  | _ => false
  end.

(** What a client looks like after a connected [sendCommand]. *)
Definition sent (c : FTPClient) (command : string) : FTPClient :=
  {| socket := socket c ++ [command ++ JS.CRLF];
     buffer := buffer c;
     connected := connected c;
     authenticated := authenticated c;
     timeout := timeout c;
     _commandCount := _commandCount c + 1;
     _lastCommand := Some command |}.

(** The reply that a final line with a success code resolves with. *)
Definition reply_of (line : string) : Reply :=
  mkReply (reply_code line) (reply_message line) line.

(** The error a final line with another code rejects with. *)
Definition error_of (line : string) : string :=
  "FTP Error " ++ JS.to_string (reply_code line) ++ ": " ++ reply_message line.

(** The code is in [200,400). *)
Definition is_success (line : string) : bool :=
  JS.ge (reply_code line) 200 && JS.lt (reply_code line) 400.

(** The string holds a character that ends a line for [.]. *)
Definition has_line_terminator (s : string) : bool :=
  has_char JS.LF s || has_char JS.CR s.

Definition backslash : ascii := "092"%char.

(** The string starts with a slash. *)
Definition at_slash (s : string) : bool :=
  match s with
  | String d _ => Ascii.eqb d "/"
  | "" => false
  end.

(** What was written to the control socket is a CWD or an MKD command. *)
Definition cwd_or_mkd (written : string) : bool :=
  JS.startsWith written "CWD " || JS.startsWith written "MKD ".

(** The message holds the fourteen digits [ds] right after [pre]. *)
Definition timestamp_at (pre message ds : string) : Prop :=
  String.length ds = 14%nat /\ all_digits ds = true
  /\ exists post, message = pre ++ ds ++ post.

(** No fourteen digits in a row start further to the left. *)
Definition first_timestamp (pre message : string) : Prop :=
  forall pre' ds', timestamp_at pre' message ds' ->
                   (String.length pre <= String.length pre')%nat.

(** The number in the digits [start] to [stop - 1] of [ds]. *)
Definition field (ds : string) (start stop : nat) : Z :=
  decimal (JS.substring ds start stop).

(** Between two worlds the commands [cmds] were written and counted,
    and nothing else of the client has changed but [_lastCommand]. *)
Definition wrote (cmds : list string) (w w' : World) : Prop :=
  socket (fst w') = (socket (fst w) ++ cmds)%list
  /\ _commandCount (fst w') = _commandCount (fst w) + Z.of_nat (length cmds)
  /\ connected (fst w') = connected (fst w)
  /\ authenticated (fst w') = authenticated (fst w)
  /\ buffer (fst w') = buffer (fst w).

(** The runs of the body, one after the other. *)
Inductive body_run (self : string -> bool -> Async unit)
    (dirPath : string) (recursive : bool) (w : World)
    : promise unit * World -> Prop :=
| run_trivial :
    (normalizePath dirPath =? "/")%string
    || (normalizePath dirPath =? ".")%string = true ->
    body_run self dirPath recursive w (Resolved tt, w)
| run_probe_pending w0 :
    (normalizePath dirPath =? "/")%string
    || (normalizePath dirPath =? ".")%string = false ->
    sendCommand ("CWD " ++ normalizePath dirPath) false w = (Pending, w0) ->
    body_run self dirPath recursive w (Pending, w0)
| run_found reply w0 :
    (normalizePath dirPath =? "/")%string
    || (normalizePath dirPath =? ".")%string = false ->
    sendCommand ("CWD " ++ normalizePath dirPath) false w = (Resolved reply, w0) ->
    body_run self dirPath recursive w (Resolved tt, w0)
| run_parent_pending e0 w0 w1 :
    (normalizePath dirPath =? "/")%string
    || (normalizePath dirPath =? ".")%string = false ->
    sendCommand ("CWD " ++ normalizePath dirPath) false w = (Rejected e0, w0) ->
    parent_step self (normalizePath dirPath) recursive w0 = (Pending, w1) ->
    body_run self dirPath recursive w (Pending, w1)
| run_parent_failed e0 w0 e1 w1 :
    (normalizePath dirPath =? "/")%string
    || (normalizePath dirPath =? ".")%string = false ->
    sendCommand ("CWD " ++ normalizePath dirPath) false w = (Rejected e0, w0) ->
    parent_step self (normalizePath dirPath) recursive w0 = (Rejected e1, w1) ->
    body_run self dirPath recursive w (Rejected e1, w1)
| run_mkd_pending e0 w0 w1 w2 :
    (normalizePath dirPath =? "/")%string
    || (normalizePath dirPath =? ".")%string = false ->
    sendCommand ("CWD " ++ normalizePath dirPath) false w = (Rejected e0, w0) ->
    parent_step self (normalizePath dirPath) recursive w0 = (Resolved tt, w1) ->
    sendCommand ("MKD " ++ normalizePath dirPath) false w1 = (Pending, w2) ->
    body_run self dirPath recursive w (Pending, w2)
| run_created e0 w0 w1 reply w2 :
    (normalizePath dirPath =? "/")%string
    || (normalizePath dirPath =? ".")%string = false ->
    sendCommand ("CWD " ++ normalizePath dirPath) false w = (Rejected e0, w0) ->
    parent_step self (normalizePath dirPath) recursive w0 = (Resolved tt, w1) ->
    sendCommand ("MKD " ++ normalizePath dirPath) false w1 = (Resolved reply, w2) ->
    body_run self dirPath recursive w (Resolved tt, w2)
| run_mkd_failed e0 w0 w1 err w2 :
    (normalizePath dirPath =? "/")%string
    || (normalizePath dirPath =? ".")%string = false ->
    sendCommand ("CWD " ++ normalizePath dirPath) false w = (Rejected e0, w0) ->
    parent_step self (normalizePath dirPath) recursive w0 = (Resolved tt, w1) ->
    sendCommand ("MKD " ++ normalizePath dirPath) false w1 = (Rejected err, w2) ->
    body_run self dirPath recursive w
      (if JS.includes err "550" || JS.includes err "exists"
       then Resolved tt else Rejected err, w2).

(* ================================================================= *)
(** ** lib/connection.js: the emit loop and the login exchange *)

(** The [await] at which a call of the ['data'] handler is suspended:
    on the USER command or on the PASS command. *)
Inductive login_await := AwaitUser | AwaitPass.

(** A suspended call of the handler: where it waits, the closure of the
    command it awaits, and the lines of its chunk that its loop has not
    reached yet. *)
Record Suspended := mkSuspended {
  at_await : login_await;
  awaited : Command;
  remaining : list string
}.

(** What the handlers that [connect] installs share: the client, the
    arguments [user] and [password], the ['response'] events emitted so
    far (oldest first), the suspended calls whose command is
    outstanding (in the order in which their response handlers were
    subscribed), the suspended calls whose awaited promise has settled
    (their continuations are queued as microtasks, in the order of
    settling) and the promise that [connect] returned. *)
Record Connection := mkConnection {
  ftp : FTPClient;
  user : string;
  password : string;
  responses : list string;
  listening : list Suspended;
  microtasks : list Suspended;
  connecting : promise unit
}.

(** The state when [connect] has installed its handlers. *)
Definition connect_open (c : FTPClient) (user password : string) : Connection :=
  mkConnection c user password [] [] [] Pending.

(** The response handlers run in the order of their subscription: the
    calls that go on listening, and those whose command this line has
    settled. *)
Fixpoint notify (line : string) (waiting : list Suspended)
    : list Suspended * list Suspended :=
  match waiting with
  | [] => ([], [])
  | i :: rest =>
      let i' := mkSuspended (at_await i) (deliver (awaited i) (Response line))
                  (remaining i) in
      let '(still, done) := notify line rest in
      if settled (result (awaited i')) then (still, i' :: done)
      else (i' :: still, done)
  end.

(** [this.client.emit('response', line)]. *)
Definition emit (s : Connection) (line : string) : Connection :=
  let '(still, done) := notify line (listening s) in
  mkConnection (ftp s) (user s) (password s) (responses s ++ [line])
    still (microtasks s ++ done) (connecting s).

(** [await this.sendCommand(command)] inside the loop: the executor of
    the command's promise runs, then the call is suspended with the
    lines [rest] still to come.  A command rejected at once ("Not
    connected") has its continuation queued at once. *)
Definition suspend (s : Connection) (at_ : login_await) (command : string)
    (rest : list string) : Connection :=
  let '(c, cmd) := sendCommand_start (ftp s) command false in
  let i := mkSuspended at_ cmd rest in
  if settled (result cmd)
  then mkConnection c (user s) (password s) (responses s)
         (listening s) (microtasks s ++ [i]) (connecting s)
  else mkConnection c (user s) (password s) (responses s)
         (listening s ++ [i]) (microtasks s) (connecting s).

(** The [for] loop over the lines of a chunk that are not empty, up to
    its end or to the first [await]. *)
Fixpoint loop (s : Connection) (lines : list string) : Connection :=
  match lines with
  | [] => s
  | line :: rest =>
      let s1 := emit s line in
      if JS.eq (JS.parseInt (JS.substring line 0 3)) 220
         && negb (authenticated (ftp s1))
      then suspend s1 AwaitUser ("USER " ++ user s1) rest
      else loop s1 rest
  end.

(** The continuation of a suspended call whose awaited promise has
    settled: after USER comes PASS; after PASS the client is
    authenticated and [connect] resolves; a rejection goes to the
    [catch], which rejects [connect]; then the loop goes on. *)
Definition resume (s : Connection) (i : Suspended) : Connection :=
  match result (awaited i) with
  | Pending => s
  | Rejected err =>
      loop (mkConnection (ftp s) (user s) (password s) (responses s)
              (listening s) (microtasks s) (reject (connecting s) err))
        (remaining i)
  | Resolved _ =>
      match at_await i with
      | AwaitUser => suspend s AwaitPass ("PASS " ++ password s) (remaining i)
      | AwaitPass =>
          loop (mkConnection (set_authenticated (ftp s) true) (user s)
                  (password s) (responses s) (listening s) (microtasks s)
                  (resolve (connecting s) tt))
            (remaining i)
      end
  end.

(** The microtask queue is run until it is empty, at most [fuel]
    continuations. *)
Fixpoint run_microtasks (fuel : nat) (s : Connection) : Connection :=
  match fuel with
  | O => s
  | S fuel' =>
      match microtasks s with
      | [] => s
      | i :: queue =>
          run_microtasks fuel'
            (resume (mkConnection (ftp s) (user s) (password s) (responses s)
                       (listening s) queue (connecting s)) i)
      end
  end.

(** A bound on the continuations still to run: every suspended call can
    be resumed once per [await] and once more for each line it holds. *)
Definition steps_left (i : Suspended) : nat :=
  2 * length (remaining i)
  + match at_await i with AwaitUser => 2 | AwaitPass => 1 end.

Definition steps_left_all (l : list Suspended) : nat :=
  fold_right (fun i n => steps_left i + n)%nat 0%nat l.

Definition work_left (s : Connection) : nat :=
  (steps_left_all (listening s) + steps_left_all (microtasks s))%nat.

(** All microtasks are run before the next event is taken up
    ([run_microtasks_quiet] below: the queue is empty afterwards). *)
Definition settle (s : Connection) : Connection :=
  run_microtasks (work_left s) s.

(** The oldest timer that is still armed fires: all commands are given
    the same delay. *)
Fixpoint expire (waiting : list Suspended) : list Suspended * list Suspended :=
  match waiting with
  | [] => ([], [])
  | i :: rest =>
      if timeoutId (awaited i) then
        (rest,
         [mkSuspended (at_await i) (timeoutCallback (awaited i)) (remaining i)])
      else
        let '(still, done) := expire rest in (i :: still, done)
  end.

(** What the event loop hands to the connection: a chunk read from the
    control socket, or the expiry of a command's timer. *)
Inductive connection_event :=
| SocketData (data : string)
| CommandTimeout.

(** The handler's call for a chunk that completes the lines [lines]: the
    loop, then the microtasks that are queued. *)
Definition take_up (s : Connection) (lines : list string) : Connection :=
  settle (loop s lines).

Definition with_client (s : Connection) (c : FTPClient) : Connection :=
  mkConnection c (user s) (password s) (responses s) (listening s)
    (microtasks s) (connecting s).

Definition connection_step (s : Connection) (e : connection_event)
    : Connection :=
  match e with
  | SocketData data =>
      let '(c, lines) := onData (ftp s) data in
      take_up (with_client s c) lines
  | CommandTimeout =>
      let '(still, done) := expire (listening s) in
      settle (mkConnection (ftp s) (user s) (password s) (responses s)
                still (microtasks s ++ done) (connecting s))
  end.

Definition connection_run (s : Connection) (events : list connection_event)
    : Connection :=
  fold_left connection_step events s.

(** The chunks among the events, in the order of their arrival. *)
Definition chunks_of (events : list connection_event) : list string :=
  flat_map (fun e => match e with
                     | SocketData data => [data]
                     | CommandTimeout => []
                     end) events.

(** No suspended call holds a line. *)
Definition none_held (l : list Suspended) : Prop :=
  Forall (fun i => remaining i = []) l.

(** From [s] to [s'] the lines [lines] have been emitted, in this
    order, and nothing else; the buffer is as it was, no suspended call
    holds a line, and an authenticated client has stayed so. *)
Definition carries_on (s s' : Connection) (lines : list string) : Prop :=
  responses s' = (responses s ++ lines)%list
  /\ buffer (ftp s') = buffer (ftp s)
  /\ none_held (listening s')
  /\ none_held (microtasks s')
  /\ (authenticated (ftp s) = true -> authenticated (ftp s') = true).

(** In a list of lines, a line whose code is 220 is the last one. *)
Fixpoint greeting_last (lines : list string) : bool :=
  match lines with
  | [] => true
  | line :: rest =>
      (negb (JS.eq (reply_code line) 220)
       || match rest with [] => true | _ :: _ => false end)
      && greeting_last rest
  end.

(** The same of every chunk: no line that is not empty follows a line
    whose code is 220 in the chunk that completes it. *)
Fixpoint greetings_last (c : FTPClient) (chunks : list string) : bool :=
  match chunks with
  | [] => true
  | data :: rest =>
      greeting_last (snd (onData c data))
      && greetings_last (fst (onData c data)) rest
  end.

(* ----------------------------------------------------------------- *)
(** ** sendCommand: the reply handler and the timer *)

Section ReplyHandling.

Variables (command : string) (allowPreliminary : bool).

Lemma responseHandler_waiting_line armed line :
  waiting_line allowPreliminary line = true ->
  responseHandler (waiting command allowPreliminary armed) line
  = waiting command allowPreliminary false.
Proof.
  unfold waiting_line, is_final, is_preliminary, reply_code, responseHandler, waiting.
  simpl. intros H.
  destruct (JS.charAt_is line 3 " "); simpl in H.
  - rewrite H. reflexivity.
  - reflexivity.
Qed.

Lemma responseHandler_final line armed :
  is_final line = true ->
  is_preliminary line && allowPreliminary = false ->
  responseHandler (waiting command allowPreliminary armed) line
  = mkCommand command allowPreliminary false false
      (if JS.ge (reply_code line) 200 && JS.lt (reply_code line) 400
       then Resolved (mkReply (reply_code line) (reply_message line) line)
       else Rejected ("FTP Error " ++ JS.to_string (reply_code line) ++ ": "
                      ++ reply_message line)).
Proof.
  unfold is_final, is_preliminary, reply_code, reply_message, responseHandler, waiting.
  simpl. intros Hf Hp. rewrite Hf, Hp.
  destruct (JS.ge _ 200 && JS.lt _ 400); reflexivity.
Qed.

Lemma await_pending (cmd : Command) e rest :
  result cmd = Pending ->
  await_command cmd (e :: rest) = await_command (deliver cmd e) rest.
Proof. intros H. cbn [await_command]. rewrite H. reflexivity. Qed.

Lemma deliver_waiting_line armed line :
  waiting_line allowPreliminary line = true ->
  deliver (waiting command allowPreliminary armed) (Response line)
  = waiting command allowPreliminary false.
Proof. intros H. apply (responseHandler_waiting_line armed line H). Qed.

Lemma deliver_deadline_disarmed :
  deliver (waiting command allowPreliminary false) Deadline
  = waiting command allowPreliminary false.
Proof. reflexivity. Qed.

(** Lines on which the command goes on waiting are consumed one by one;
    the first of them disarms the timer. *)
Lemma await_waiting_lines pre : forall armed rest,
  Forall (fun l => waiting_line allowPreliminary l = true) pre ->
  await_command (waiting command allowPreliminary armed)
    (map Response pre ++ rest)
  = await_command
      (waiting command allowPreliminary
         (match pre with [] => armed | _ :: _ => false end))
      rest.
Proof.
  induction pre as [|l pre IH]; intros armed rest Hall.
  - reflexivity.
  - inversion Hall as [|? ? Hl Hpre]; subst.
    cbn [map app]. rewrite await_pending by reflexivity.
    rewrite (deliver_waiting_line armed l Hl).
    rewrite (IH false rest Hpre). destruct pre; reflexivity.
Qed.

(** Once the timer is disarmed, nothing but a settling reply line ends
    the wait: the deadline has no effect any more. *)
Lemma await_disarmed_pending events :
  (forall line, In (Response line) events ->
                waiting_line allowPreliminary line = true) ->
  await_command (waiting command allowPreliminary false) events
  = (waiting command allowPreliminary false, []).
Proof.
  induction events as [|e events IH]; intros Hall.
  - reflexivity.
  - rewrite await_pending by reflexivity.
    destruct e as [line|].
    + rewrite deliver_waiting_line by (apply Hall; left; reflexivity).
      apply IH. intros l Hl. apply Hall. right. exact Hl.
    + rewrite deliver_deadline_disarmed.
      apply IH. intros l Hl. apply Hall. right. exact Hl.
Qed.

Lemma await_settled (cmd : Command) events :
  settled (result cmd) = true -> await_command cmd events = (cmd, events).
Proof.
  intros H. destruct events as [|e rest]; [reflexivity|].
  cbn [await_command]. rewrite H. reflexivity.
Qed.

End ReplyHandling.

Lemma sendCommand_run_connected c command allowPreliminary events :
  connected c = true ->
  sendCommand_run command allowPreliminary (c, events)
  = (fst (await_command (waiting command allowPreliminary true) events),
     ({| socket := socket c ++ [command ++ JS.CRLF];
         buffer := buffer c;
         connected := connected c;
         authenticated := authenticated c;
         timeout := timeout c;
         _commandCount := _commandCount c + 1;
         _lastCommand := Some command |},
      snd (await_command (waiting command allowPreliminary true) events))).
Proof.
  intros Hc. unfold sendCommand_run, sendCommand_start. cbn [fst snd].
  rewrite Hc. cbn [negb]. fold (waiting command allowPreliminary true).
  destruct (await_command _ events). reflexivity.
Qed.

Lemma sendCommand_run_not_connected c command allowPreliminary events :
  connected c = false ->
  sendCommand_run command allowPreliminary (c, events)
  = (mkCommand command allowPreliminary false false (Rejected "Not connected"),
     (c, events)).
Proof.
  intros Hc. unfold sendCommand_run, sendCommand_start. cbn [fst snd].
  rewrite Hc. cbn [negb].
  rewrite await_settled by reflexivity. reflexivity.
Qed.

Lemma sendCommand_result command allowPreliminary w :
  sendCommand command allowPreliminary w
  = (result (fst (sendCommand_run command allowPreliminary w)),
     snd (sendCommand_run command allowPreliminary w)).
Proof.
  unfold sendCommand. destruct (sendCommand_run _ _ w). reflexivity.
Qed.

Lemma not_success_code (x : JS.number) :
  JS.ge x 400 = true \/ JS.lt x 200 = true ->
  JS.ge x 200 && JS.lt x 400 = false.
Proof.
  destruct x as [|z|negative]; cbn [JS.ge JS.lt]; intros [H|H];
    try discriminate.
  - apply Z.leb_le in H. apply andb_false_iff. right. apply Z.ltb_ge. lia.
  - apply Z.ltb_lt in H. apply andb_false_iff. left. apply Z.leb_gt. lia.
  - now destruct negative.
  - now destruct negative.
Qed.

(** The closure a connected call ends with, and the client it leaves. *)
Lemma sendCommand_run_final c command allowPreliminary pre line rest :
  connected c = true ->
  Forall (fun l => waiting_line allowPreliminary l = true) pre ->
  fst (sendCommand_run command allowPreliminary
         (c, (map Response (pre ++ [line]) ++ rest)%list))
  = fst (await_command
           (responseHandler
              (waiting command allowPreliminary
                 (match pre with [] => true | _ :: _ => false end)) line)
           rest)
  /\ events_after (sendCommand_run command allowPreliminary
                     (c, (map Response (pre ++ [line]) ++ rest)%list))
     = snd (await_command
              (responseHandler
                 (waiting command allowPreliminary
                    (match pre with [] => true | _ :: _ => false end)) line)
              rest).
Proof.
  intros Hc Hpre. rewrite (sendCommand_run_connected _ _ _ _ Hc).
  unfold events_after. cbn [fst snd].
  rewrite map_app, <- app_assoc. cbn [map app].
  rewrite (await_waiting_lines command allowPreliminary pre true _ Hpre).
  rewrite await_pending by reflexivity.
  cbn [deliver waiting subscribed]. split; reflexivity.
Qed.

(** C1.  A connected [sendCommand] that receives the final reply [line]
    (4th character a space) after lines [pre] on which it was still
    waiting, and before its deadline: if the code is in [100,200) and
    preliminary replies are allowed, the command is still subscribed and
    pending afterwards, and only a later settling reply ends the wait;
    otherwise the listener is removed and the promise is resolved with
    [{code, message, raw}] when the code is in [200,400), and rejected
    with ["FTP Error <code>: <message>"] when the code is at least 400 or
    below 200. *)
Theorem sendCommand_final_reply :
  forall c command allowPreliminary pre line rest,
    connected c = true ->
    Forall (fun l => waiting_line allowPreliminary l = true) pre ->
    is_final line = true ->
    (is_preliminary line && allowPreliminary = true ->
       fst (sendCommand_run command allowPreliminary
              (c, (map Response (pre ++ [line]) ++ rest)%list))
       = fst (await_command (waiting command allowPreliminary false) rest)
       /\ ((forall l, In (Response l) rest ->
                      waiting_line allowPreliminary l = true) ->
           fst (sendCommand_run command allowPreliminary
                  (c, (map Response (pre ++ [line]) ++ rest)%list))
           = waiting command allowPreliminary false))
    /\ (is_preliminary line && allowPreliminary = false ->
          (JS.ge (reply_code line) 200 && JS.lt (reply_code line) 400 = true ->
             fst (sendCommand_run command allowPreliminary
                    (c, (map Response (pre ++ [line]) ++ rest)%list))
             = mkCommand command allowPreliminary false false
                 (Resolved (mkReply (reply_code line) (reply_message line) line))
             /\ events_after (sendCommand_run command allowPreliminary
                                (c, (map Response (pre ++ [line]) ++ rest)%list))
                = rest)
          /\ (JS.ge (reply_code line) 400 = true
              \/ JS.lt (reply_code line) 200 = true ->
                fst (sendCommand_run command allowPreliminary
                       (c, (map Response (pre ++ [line]) ++ rest)%list))
                = mkCommand command allowPreliminary false false
                    (Rejected ("FTP Error " ++ JS.to_string (reply_code line)
                               ++ ": " ++ reply_message line))
                /\ events_after (sendCommand_run command allowPreliminary
                                   (c, (map Response (pre ++ [line]) ++ rest)%list))
                   = rest)).
Proof.
  intros c command ap pre line rest Hc Hpre Hfinal.
  destruct (sendCommand_run_final c command ap pre line rest Hc Hpre) as [Hcmd Hev].
  rewrite Hcmd, Hev. split.
  - intros Hprel.
    assert (Hw : waiting_line ap line = true).
    { unfold waiting_line. rewrite Hprel. apply orb_true_r. }
    rewrite responseHandler_waiting_line by exact Hw.
    split; [reflexivity|].
    intros Hrest. rewrite await_disarmed_pending by exact Hrest. reflexivity.
  - intros Hprel.
    rewrite responseHandler_final by assumption. split.
    + intros Hok. rewrite Hok.
      rewrite await_settled by reflexivity. split; reflexivity.
    + intros Hbad. rewrite (not_success_code _ Hbad).
      rewrite await_settled by reflexivity. split; reflexivity.
Qed.

(** The deadline passing before any line has arrived does reject the
    command and removes its listener; the error names the command as
    [maskPassword] shows it. *)
Lemma sendCommand_deadline_first c command allowPreliminary rest :
  connected c = true ->
  fst (sendCommand_run command allowPreliminary (c, Deadline :: rest))
  = mkCommand command allowPreliminary false false
      (Rejected ("Command timeout: " ++ maskPassword command)).
Proof.
  intros Hc. rewrite (sendCommand_run_connected _ _ _ _ Hc). cbn [fst].
  rewrite await_pending by reflexivity.
  rewrite await_settled by reflexivity. reflexivity.
Qed.

(** After at least one line on which the command went on waiting, the
    deadline no longer does anything: [responseHandler] has cleared the
    timer and nothing arms it again. *)
Lemma sendCommand_deadline_after_line c command allowPreliminary l pre :
  connected c = true ->
  Forall (fun l => waiting_line allowPreliminary l = true) (l :: pre) ->
  fst (sendCommand_run command allowPreliminary
         (c, (map Response (l :: pre) ++ [Deadline])%list))
  = waiting command allowPreliminary false.
Proof.
  intros Hc Hpre. rewrite (sendCommand_run_connected _ _ _ _ Hc). cbn [fst].
  rewrite (await_waiting_lines command allowPreliminary (l :: pre) true _ Hpre).
  rewrite await_disarmed_pending; [reflexivity|].
  intros line [H|[]]. discriminate H.
Qed.

(** C3, at the failing inputs.  The deadline elapses after a preliminary
    150 line, respectively after a continuation line of a multi-line
    reply: the command is neither rejected nor unsubscribed, it stays
    pending with its listener in place. *)
Theorem sendCommand_deadline_after_line_no_timeout :
  fst (sendCommand_run "STOR /f.txt" true
         (online new_client,
          [Response "150 Opening data connection"; Deadline]))
  = mkCommand "STOR /f.txt" true false true Pending
  /\ fst (sendCommand_run "FEAT" false
            (online new_client, [Response "211-Extensions"; Deadline]))
     = mkCommand "FEAT" false false true Pending.
Proof. split; reflexivity. Qed.

(* ----------------------------------------------------------------- *)
(** ** sendCommand: the session's counters *)

(** C4 as stated fails twice: a call on a client that is not connected
    leaves [_commandCount] alone, and a PASS command is stored in
    [_lastCommand] with its password. *)
Lemma sendCommand_stats_as_stated_fails :
  _commandCount (client_after (sendCommand "PWD" false (new_client, []))) = 0
  /\ _lastCommand
       (client_after (sendCommand "PASS hunter2" false (online new_client, [])))
     = Some "PASS hunter2"
  /\ maskPassword "PASS hunter2" = "PASS ********".
Proof. repeat split. Qed.

(** C4, amended.  A call of [sendCommand] on a connected client adds one
    to [_commandCount] and stores the command text as given in
    [_lastCommand], whatever arrives afterwards (reply, error reply or
    deadline); a call on a client that is not connected is rejected with
    "Not connected" and leaves the client as it was. *)
Theorem sendCommand_stats :
  forall c command allowPreliminary events,
    (connected c = true ->
       _commandCount
         (client_after (sendCommand command allowPreliminary (c, events)))
       = _commandCount c + 1
       /\ _lastCommand
            (client_after (sendCommand command allowPreliminary (c, events)))
          = Some command)
    /\ (connected c = false ->
          sendCommand command allowPreliminary (c, events)
          = (Rejected "Not connected", (c, events))).
Proof.
  intros c command ap events. split; intros Hc; rewrite sendCommand_result.
  - rewrite (sendCommand_run_connected _ _ _ _ Hc). split; reflexivity.
  - rewrite (sendCommand_run_not_connected _ _ _ _ Hc). reflexivity.
Qed.

(** The redacted text is what a timeout error carries. *)
Lemma sendCommand_timeout_redacts :
  sendCommand "PASS hunter2" false (online new_client, [Deadline])
  = (Rejected "Command timeout: PASS ********",
     ({| socket := ["PASS hunter2" ++ JS.CRLF]; buffer := "";
         connected := true; authenticated := false; timeout := 30000;
         _commandCount := 1; _lastCommand := Some "PASS hunter2" |}, [])).
Proof. reflexivity. Qed.

Lemma sendCommand_final_reply_witness :
  connected (online new_client) = true
  /\ Forall (fun l => waiting_line true l = true) ["150 Opening data connection"]
  /\ is_final "226 Transfer complete" = true
  /\ fst (sendCommand_run "STOR /f.txt" true
            (online new_client,
             (map Response (["150 Opening data connection"]
                            ++ ["226 Transfer complete"]) ++ [])%list))
     = mkCommand "STOR /f.txt" true false false
         (Resolved (mkReply (JS.Num 226) "Transfer complete"
                      "226 Transfer complete")).
Proof.
  assert (H1 : connected (online new_client) = true) by reflexivity.
  assert (H2 : Forall (fun l => waiting_line true l = true)
                 ["150 Opening data connection"]).
  { constructor; [reflexivity | constructor]. }
  assert (H3 : is_final "226 Transfer complete" = true) by reflexivity.
  split; [exact H1 | split; [exact H2 | split; [exact H3 |]]].
  apply (proj2 (sendCommand_final_reply (online new_client) "STOR /f.txt" true
                  ["150 Opening data connection"] "226 Transfer complete" []
                  H1 H2 H3)); reflexivity.
Defined.

Lemma sendCommand_stats_witness :
  connected (online new_client) = true
  /\ _commandCount
       (client_after (sendCommand "PASS hunter2" false
                        (online new_client, [Response "230 Logged in"])))
     = 1
  /\ _lastCommand
       (client_after (sendCommand "PASS hunter2" false
                        (online new_client, [Response "230 Logged in"])))
     = Some "PASS hunter2".
Proof.
  split; [reflexivity|].
  apply (proj1 (sendCommand_stats (online new_client) "PASS hunter2" false
                  [Response "230 Logged in"])).
  reflexivity.
Defined.

(* ----------------------------------------------------------------- *)
(** ** exists *)

Lemma exists_by_size path w :
  exists_ path w
  = match sendCommand ("SIZE " ++ path) false w with
    | (Resolved _, w') => (Resolved true, w')
    | (Pending, w') => (Pending, w')
    | (Rejected _, w') => (Resolved false, w')
    end.
Proof.
  unfold exists_, try_catch, size, bind, ret.
  destruct (sendCommand ("SIZE " ++ path) false w) as [[|r|e] w']; reflexivity.
Qed.

(** C9.  If the SIZE command that [exists(path)] issues is answered by a
    final reply with code 550, [exists(path)] resolves to [false]; if the
    SIZE command succeeds, it resolves to [true]. *)
Theorem exists_follows_size :
  forall path,
    (forall c pre line rest,
        connected c = true ->
        Forall (fun l => is_final l = false) pre ->
        is_final line = true ->
        reply_code line = JS.Num 550 ->
        fst (exists_ path (c, (map Response (pre ++ [line]) ++ rest)%list))
        = Resolved false)
    /\ (forall w reply w',
          sendCommand ("SIZE " ++ path) false w = (Resolved reply, w') ->
          exists_ path w = (Resolved true, w')).
Proof.
  intros path. split.
  - intros c pre line rest Hc Hpre Hfinal Hcode.
    rewrite exists_by_size, sendCommand_result.
    assert (Hw : Forall (fun l => waiting_line false l = true) pre).
    { eapply Forall_impl; [|exact Hpre]. intros l Hl. cbv beta in Hl.
      unfold waiting_line. rewrite Hl. reflexivity. }
    destruct (sendCommand_run_final c ("SIZE " ++ path) false pre line rest
                Hc Hw) as [Hcmd _].
    rewrite Hcmd.
    rewrite responseHandler_final by (exact Hfinal || apply andb_false_r).
    rewrite Hcode. cbn [JS.ge JS.lt Z.leb Z.ltb Z.compare Pos.compare
                        Pos.compare_cont andb].
    rewrite await_settled by reflexivity. reflexivity.
  - intros w reply w' Hsize. rewrite exists_by_size, Hsize. reflexivity.
Qed.

Lemma exists_follows_size_witness :
  fst (exists_ "/missing.txt"
         (online new_client,
          (map Response ([] ++ ["550 /missing.txt: No such file"]) ++ [])%list))
  = Resolved false
  /\ exists_ "/f.txt" (online new_client, [Response "213 5"])
     = (Resolved true,
        ({| socket := ["SIZE /f.txt" ++ JS.CRLF]; buffer := "";
            connected := true; authenticated := false; timeout := 30000;
            _commandCount := 1; _lastCommand := Some "SIZE /f.txt" |}, [])).
Proof.
  split.
  - apply (proj1 (exists_follows_size "/missing.txt")
             (online new_client) [] "550 /missing.txt: No such file" []);
      try reflexivity. constructor.
  - apply (proj2 (exists_follows_size "/f.txt")
             (online new_client, [Response "213 5"])
             (mkReply (JS.Num 213) "5" "213 5")).
    reflexivity.
Defined.

(** C10.  [exists(path)] never rejects, and it resolves to [false]
    whenever the SIZE command is rejected, whatever the reason: an error
    reply, the command's deadline, or a control channel that is not
    connected.  So [false] does not tell a missing file from a lost
    session. *)
Theorem exists_never_rejects :
  forall path,
    (forall w message, fst (exists_ path w) <> Rejected message)
    /\ (forall w message w',
          sendCommand ("SIZE " ++ path) false w = (Rejected message, w') ->
          exists_ path w = (Resolved false, w'))
    /\ (forall c rest,
          connected c = true ->
          fst (exists_ path (c, Deadline :: rest)) = Resolved false)
    /\ (forall c events,
          connected c = false ->
          exists_ path (c, events) = (Resolved false, (c, events))).
Proof.
  intros path. repeat split.
  - intros w message. rewrite exists_by_size.
    destruct (sendCommand ("SIZE " ++ path) false w) as [[|r|e] w'];
      discriminate.
  - intros w message w' Hsize. rewrite exists_by_size, Hsize. reflexivity.
  - intros c rest Hc. rewrite exists_by_size, sendCommand_result.
    rewrite (sendCommand_deadline_first _ _ _ _ Hc). reflexivity.
  - intros c events Hc. rewrite exists_by_size.
    rewrite sendCommand_result.
    rewrite (sendCommand_run_not_connected _ _ _ _ Hc). reflexivity.
Qed.

Lemma exists_never_rejects_witness :
  fst (exists_ "/f.txt" (online new_client, [Deadline])) = Resolved false
  /\ exists_ "/f.txt" (new_client, []) = (Resolved false, (new_client, [])).
Proof.
  split.
  - apply (proj1 (proj2 (proj2 (exists_never_rejects "/f.txt")))). reflexivity.
  - apply (proj2 (proj2 (proj2 (exists_never_rejects "/f.txt")))). reflexivity.
Defined.

(* ----------------------------------------------------------------- *)
(** ** The framing of reply lines *)

Lemma append_assoc (a b c : string) : (a ++ b) ++ c = a ++ (b ++ c).
Proof. induction a as [|x a IH]; cbn; [reflexivity | now rewrite IH]. Qed.

Lemma append_empty_r (a : string) : a ++ "" = a.
Proof. induction a as [|x a IH]; cbn; [reflexivity | now rewrite IH]. Qed.

Lemma append_length (a b : string) :
  String.length (a ++ b) = (String.length a + String.length b)%nat.
Proof. induction a as [|x a IH]; cbn; [reflexivity | now rewrite IH]. Qed.

Lemma split_crlf_nonempty s : JS.split_crlf s <> [].
Proof.
  destruct s as [|c s]; cbn [JS.split_crlf]; [discriminate|].
  destruct (Ascii.eqb c JS.CR).
  - destruct s as [|d s']; [destruct (JS.split_crlf ""); discriminate|].
    destruct (Ascii.eqb d JS.LF); [discriminate|].
    destruct (JS.split_crlf (String d s')); discriminate.
  - destruct (JS.split_crlf s); discriminate.
Qed.

Lemma split_crlf_at_crlf s :
  JS.split_crlf (String JS.CR (String JS.LF s)) = "" :: JS.split_crlf s.
Proof. reflexivity. Qed.

Lemma split_crlf_push c s :
  at_crlf (String c s) = false ->
  JS.split_crlf (String c s) = push_char c (JS.split_crlf s).
Proof.
  intros H. cbn [JS.split_crlf]. fold (push_char c (JS.split_crlf s)).
  destruct (Ascii.eqb c JS.CR) eqn:Hc; [|reflexivity].
  destruct s as [|d s']; [reflexivity|].
  cbn [at_crlf] in H. rewrite Hc in H. cbn [andb] in H. rewrite H.
  reflexivity.
Qed.

Lemma at_crlf_inv s :
  at_crlf s = true -> exists s', s = String JS.CR (String JS.LF s').
Proof.
  destruct s as [|c [|d s']]; cbn [at_crlf]; try discriminate.
  intros H. apply andb_true_iff in H. destruct H as [Hc Hd].
  apply Ascii.eqb_eq in Hc, Hd. subst. exists s'. reflexivity.
Qed.

Lemma join_push_char c segs :
  segs <> [] -> join_crlf (push_char c segs) = String c (join_crlf segs).
Proof.
  destruct segs as [|seg [|seg' segs']]; [congruence | reflexivity | reflexivity].
Qed.

Lemma strong_string_ind (P : string -> Prop) :
  (forall s, (forall t, (String.length t < String.length s)%nat -> P t) -> P s) ->
  forall s, P s.
Proof.
  intros step s.
  assert (H : forall n t, (String.length t < n)%nat -> P t).
  { induction n as [|n IH]; intros t Ht; [lia|].
    apply step. intros u Hu. apply IH. lia. }
  apply (H (S (String.length s))). lia.
Qed.

(** Splitting loses nothing: joining the segments gives the text back. *)
Lemma join_split_crlf s : join_crlf (JS.split_crlf s) = s.
Proof.
  induction s as [s IH] using strong_string_ind.
  destruct s as [|c s]; [reflexivity|].
  destruct (at_crlf (String c s)) eqn:Hat.
  - destruct (at_crlf_inv _ Hat) as [s' Hs']. injection Hs' as -> ->.
    rewrite split_crlf_at_crlf.
    pose proof (split_crlf_nonempty s') as Hne.
    cbn [join_crlf]. destruct (JS.split_crlf s') as [|seg segs] eqn:Hsp;
      [congruence|].
    rewrite <- Hsp, IH by (cbn; lia). reflexivity.
  - rewrite (split_crlf_push _ _ Hat).
    rewrite join_push_char by apply split_crlf_nonempty.
    rewrite IH by (cbn; lia). reflexivity.
Qed.

Lemma split_crlf_single s seg : JS.split_crlf s = [seg] -> seg = s.
Proof.
  intros H. rewrite <- (join_split_crlf s), H. reflexivity.
Qed.

Lemma has_crlf_push c segs :
  segs <> [] ->
  at_crlf (String c (join_crlf segs)) = false ->
  Forall (fun seg => has_crlf seg = false) segs ->
  Forall (fun seg => has_crlf seg = false) (push_char c segs).
Proof.
  intros Hne Hat Hall. destruct segs as [|seg segs]; [congruence|].
  inversion Hall as [|? ? Hseg Hsegs]; subst. cbn [push_char].
  constructor; [|exact Hsegs].
  cbn [has_crlf]. fold has_crlf. rewrite Hseg.
  assert (Hhead : at_crlf (String c seg) = false).
  { destruct seg as [|d seg']; [reflexivity|].
    destruct segs; exact Hat. }
  rewrite Hhead.
  destruct seg; reflexivity.
Qed.

(** No segment contains a CRLF: the split is at every occurrence. *)
Lemma split_crlf_segments s :
  Forall (fun seg => has_crlf seg = false) (JS.split_crlf s).
Proof.
  induction s as [s IH] using strong_string_ind.
  destruct s as [|c s]; [repeat constructor|].
  destruct (at_crlf (String c s)) eqn:Hat.
  - destruct (at_crlf_inv _ Hat) as [s' Hs']. injection Hs' as -> ->.
    rewrite split_crlf_at_crlf. constructor; [reflexivity|].
    apply IH. cbn. lia.
  - rewrite (split_crlf_push _ _ Hat).
    apply has_crlf_push.
    + apply split_crlf_nonempty.
    + rewrite join_split_crlf. exact Hat.
    + apply IH. cbn. lia.
Qed.

Lemma removelast_push_char c segs :
  segs <> [] ->
  removelast (push_char c segs)
  = match removelast segs with
    | [] => []
    | _ :: _ => push_char c (removelast segs)
    end.
Proof.
  destruct segs as [|seg [|seg' segs']]; [congruence | reflexivity | reflexivity].
Qed.

Lemma last_push_char c segs :
  segs <> [] ->
  last (push_char c segs) ""
  = match removelast segs with
    | [] => String c (last segs "")
    | _ :: _ => last segs ""
    end.
Proof.
  destruct segs as [|seg [|seg' segs']]; [congruence | reflexivity | reflexivity].
Qed.

Lemma last_app_nonempty {A} (l l' : list A) d :
  l' <> [] -> last (l ++ l') d = last l' d.
Proof.
  intros Hne. induction l as [|x l IH]; [reflexivity|].
  cbn [app]. rewrite <- IH. cbn [last].
  destruct (l ++ l')%list eqn:E; [|reflexivity].
  apply app_eq_nil in E. destruct E as [_ E]. congruence.
Qed.

(** What has been received so far can be split before the next chunk is
    known: only its last segment, the unterminated remainder, has to be
    looked at again. *)
Lemma split_crlf_append a : forall b,
  JS.split_crlf (a ++ b)
  = (removelast (JS.split_crlf a)
     ++ JS.split_crlf (last (JS.split_crlf a) "" ++ b))%list.
Proof.
  induction a as [a IH] using strong_string_ind. intros b.
  destruct a as [|c a]; [reflexivity|].
  destruct (at_crlf (String c a)) eqn:Hat.
  - destruct (at_crlf_inv _ Hat) as [a' Ha']. injection Ha' as -> ->.
    change (String JS.CR (String JS.LF a') ++ b)
      with (String JS.CR (String JS.LF (a' ++ b))).
    rewrite !split_crlf_at_crlf, (IH a') by (cbn; lia).
    pose proof (split_crlf_nonempty a') as Hne.
    destruct (JS.split_crlf a') as [|seg segs]; [congruence|]. reflexivity.
  - rewrite (split_crlf_push _ _ Hat).
    pose proof (split_crlf_nonempty a) as Hne.
    rewrite removelast_push_char, last_push_char by exact Hne.
    destruct a as [|d a'].
    + reflexivity.
    + change (String c (String d a') ++ b) with (String c (String d a' ++ b)).
      assert (Hat' : at_crlf (String c (String d a' ++ b)) = false) by exact Hat.
      rewrite (split_crlf_push _ _ Hat').
      rewrite (IH (String d a')) by (cbn; lia).
      destruct (removelast (JS.split_crlf (String d a'))) as [|seg segs] eqn:Hrl.
      * (* a single segment so far: it is the whole of what was received *)
        assert (Hone : JS.split_crlf (String d a')
                       = [last (JS.split_crlf (String d a')) ""]).
        { destruct (JS.split_crlf (String d a')) as [|s1 [|s2 ss]];
            [congruence | reflexivity | discriminate Hrl]. }
        apply split_crlf_single in Hone. rewrite Hone.
        cbn [app].
        change (String c (String d a') ++ b) with (String c (String d a' ++ b)).
        rewrite (split_crlf_push _ _ Hat'). reflexivity.
      * reflexivity.
Qed.

Lemma split_crlf_append_init a b :
  removelast (JS.split_crlf (a ++ b))
  = (removelast (JS.split_crlf a)
     ++ removelast (JS.split_crlf (last (JS.split_crlf a) "" ++ b)))%list.
Proof.
  rewrite split_crlf_append.
  apply removelast_app, split_crlf_nonempty.
Qed.

Lemma split_crlf_append_last a b :
  last (JS.split_crlf (a ++ b)) ""
  = last (JS.split_crlf (last (JS.split_crlf a) "" ++ b)) "".
Proof.
  rewrite split_crlf_append.
  apply last_app_nonempty, split_crlf_nonempty.
Qed.

(** The remainder kept in the buffer holds no CRLF, so splitting it
    again gives it back. *)
Lemma split_crlf_no_crlf s :
  has_crlf s = false -> JS.split_crlf s = [s].
Proof.
  induction s as [|c s IH]; [reflexivity|].
  cbn [has_crlf]. intros H. apply orb_false_iff in H. destruct H as [Hat Hs].
  rewrite (split_crlf_push _ _ Hat), (IH Hs). reflexivity.
Qed.

Lemma split_crlf_last_fixed s :
  JS.split_crlf (last (JS.split_crlf s) "") = [last (JS.split_crlf s) ""].
Proof.
  apply split_crlf_no_crlf.
  pose proof (split_crlf_segments s) as Hall.
  pose proof (split_crlf_nonempty s) as Hne.
  rewrite Forall_forall in Hall. apply Hall.
  destruct (JS.split_crlf s) as [|seg segs]; [congruence|].
  clear. revert seg. induction segs as [|x segs IH]; intros seg.
  - left. reflexivity.
  - right. apply IH.
Qed.

Lemma last_segment_no_crlf s : has_crlf (last (JS.split_crlf s) "") = false.
Proof.
  pose proof (split_crlf_last_fixed s) as H.
  pose proof (split_crlf_segments (last (JS.split_crlf s) "")) as Hall.
  rewrite H in Hall. inversion Hall. assumption.
Qed.

(** One ['data'] event, in terms of everything received so far. *)
Lemma onData_spec c data :
  snd (onData c data)
  = filter nonempty (removelast (JS.split_crlf (buffer c ++ data)))
  /\ buffer (fst (onData c data)) = last (JS.split_crlf (buffer c ++ data)) "".
Proof. split; reflexivity. Qed.

Lemma onData_all_spec chunks : forall c,
  has_crlf (buffer c) = false ->
  snd (onData_all c chunks)
  = filter nonempty
      (removelast (JS.split_crlf (buffer c ++ concat_chunks chunks)))
  /\ buffer (fst (onData_all c chunks))
     = last (JS.split_crlf (buffer c ++ concat_chunks chunks)) "".
Proof.
  induction chunks as [|data rest IH]; intros c Hbuf.
  - cbn [onData_all concat_chunks fold_right fst snd].
    rewrite append_empty_r, (split_crlf_no_crlf _ Hbuf). split; reflexivity.
  - cbn [onData_all concat_chunks fold_right].
    fold (concat_chunks rest).
    destruct (onData c data) as [c1 lines] eqn:Hstep.
    destruct (onData_spec c data) as [Hlines Hbuffer].
    rewrite Hstep in Hlines, Hbuffer. cbn [fst snd] in Hlines, Hbuffer.
    assert (Hbuf1 : has_crlf (buffer c1) = false).
    { rewrite Hbuffer. apply last_segment_no_crlf. }
    destruct (IH c1 Hbuf1) as [IHlines IHbuffer].
    destruct (onData_all c1 rest) as [c2 more].
    cbn [fst snd] in *.
    rewrite <- append_assoc.
    rewrite (split_crlf_append_init (buffer c ++ data) (concat_chunks rest)).
    rewrite (split_crlf_append_last (buffer c ++ data) (concat_chunks rest)).
    rewrite filter_app.
    rewrite <- Hbuffer, <- Hlines, <- IHlines, <- IHbuffer.
    split; reflexivity.
Qed.

(* ----------------------------------------------------------------- *)
(** ** The emit loop: the microtask queue runs empty *)

Lemma steps_left_all_app a b :
  steps_left_all (a ++ b) = (steps_left_all a + steps_left_all b)%nat.
Proof.
  induction a as [|i a IH]; [reflexivity|].
  change (steps_left_all ((i :: a) ++ b))
    with (steps_left i + steps_left_all (a ++ b))%nat.
  change (steps_left_all (i :: a)) with (steps_left i + steps_left_all a)%nat.
  rewrite IH. lia.
Qed.

Lemma steps_left_pos i : (1 <= steps_left i)%nat.
Proof. unfold steps_left. destruct (at_await i); lia. Qed.

Lemma steps_left_all_cons i l :
  steps_left_all (i :: l) = (steps_left i + steps_left_all l)%nat.
Proof. reflexivity. Qed.

Lemma notify_steps_left line waiting :
  (steps_left_all (fst (notify line waiting))
   + steps_left_all (snd (notify line waiting)))%nat
  = steps_left_all waiting.
Proof.
  induction waiting as [|i rest IH]; [reflexivity|].
  cbn [notify]. destruct (notify line rest) as [still done].
  cbn [fst snd] in IH.
  assert (Hi : steps_left
                 (mkSuspended (at_await i)
                    (deliver (awaited i) (Response line)) (remaining i))
               = steps_left i) by reflexivity.
  destruct (settled _); cbn [fst snd];
    rewrite !steps_left_all_cons, Hi; lia.
Qed.

Lemma emit_work_left s line : work_left (emit s line) = work_left s.
Proof.
  unfold emit, work_left.
  pose proof (notify_steps_left line (listening s)) as H.
  destruct (notify line (listening s)) as [still done].
  cbn [fst snd listening microtasks] in *. rewrite steps_left_all_app. lia.
Qed.

Lemma suspend_work_left s at_ command rest :
  work_left (suspend s at_ command rest)
  = (work_left s
     + steps_left (mkSuspended at_ (mkCommand command false true true Pending)
                     rest))%nat.
Proof.
  unfold suspend, work_left.
  destruct (sendCommand_start (ftp s) command false) as [c cmd].
  assert (Hi : forall cmd', steps_left (mkSuspended at_ cmd' rest)
                             = steps_left (mkSuspended at_ cmd rest))
    by reflexivity.
  rewrite (Hi (mkCommand command false true true Pending)).
  destruct (settled (result cmd)); cbn [listening microtasks];
    rewrite steps_left_all_app, steps_left_all_cons;
    change (steps_left_all []) with 0%nat; lia.
Qed.

Lemma loop_work_left lines : forall s,
  (work_left (loop s lines) <= work_left s + 2 * length lines)%nat.
Proof.
  induction lines as [|line rest IH]; intros s; [cbn [loop length]; lia|].
  cbn [loop length].
  destruct (JS.eq _ 220 && negb (authenticated (ftp (emit s line)))).
  - rewrite suspend_work_left, emit_work_left.
    unfold steps_left. cbn [remaining at_await]. lia.
  - specialize (IH (emit s line)). rewrite emit_work_left in IH. lia.
Qed.

Lemma resume_work_left s i :
  (work_left (resume s i) + 1 <= work_left s + steps_left i)%nat.
Proof.
  unfold resume.
  destruct (result (awaited i)) as [|reply|err].
  - unfold steps_left. destruct (at_await i); lia.
  - destruct (at_await i) eqn:Hat.
    + rewrite suspend_work_left. unfold steps_left.
      cbn [remaining at_await]. rewrite Hat. lia.
    + match goal with |- (work_left (loop ?s' _) + 1 <= _)%nat =>
        pose proof (loop_work_left (remaining i) s') as H end.
      unfold work_left in *. cbn [listening microtasks] in *.
      unfold steps_left. rewrite Hat. lia.
  - match goal with |- (work_left (loop ?s' _) + 1 <= _)%nat =>
      pose proof (loop_work_left (remaining i) s') as H end.
    unfold work_left in *. cbn [listening microtasks] in *.
    unfold steps_left. destruct (at_await i); lia.
Qed.

Lemma run_microtasks_quiet fuel : forall s,
  (work_left s <= fuel)%nat -> microtasks (run_microtasks fuel s) = [].
Proof.
  induction fuel as [|fuel IH]; intros s Hs; cbn [run_microtasks].
  - unfold work_left in Hs. destruct (microtasks s) as [|i queue]; [reflexivity|].
    rewrite steps_left_all_cons in Hs. pose proof (steps_left_pos i). lia.
  - destruct (microtasks s) as [|i queue] eqn:Hq; [exact Hq|].
    apply IH.
    match goal with |- (work_left (resume ?s' i) <= _)%nat =>
      pose proof (resume_work_left s' i) as H;
      assert (Hs' : (work_left s' + steps_left i = work_left s)%nat)
    end.
    { unfold work_left. cbn [listening microtasks]. rewrite Hq.
      rewrite steps_left_all_cons. lia. }
    lia.
Qed.

(** After every event the microtask queue is empty: the fuel given to
    [settle] is never used up. *)
Lemma settle_quiet s : microtasks (settle s) = [].
Proof. apply run_microtasks_quiet. lia. Qed.

Lemma connection_step_quiet s e : microtasks (connection_step s e) = [].
Proof.
  destruct e as [data|]; cbn [connection_step].
  - destruct (onData (ftp s) data). apply settle_quiet.
  - destruct (expire (listening s)). apply settle_quiet.
Qed.

(* ----------------------------------------------------------------- *)
(** ** The emit loop: lines emitted in order *)

Lemma carries_on_refl s :
  none_held (listening s) -> none_held (microtasks s) -> carries_on s s [].
Proof.
  intros Hl Hm. unfold carries_on. rewrite app_nil_r.
  repeat split; try assumption; try reflexivity. intros H; exact H.
Qed.

Lemma carries_on_trans s s1 s2 l1 l2 :
  carries_on s s1 l1 -> carries_on s1 s2 l2 -> carries_on s s2 (l1 ++ l2).
Proof.
  intros [Hr [Hb [_ [_ Ha]]]] [Hr' [Hb' [Hl [Hm Ha']]]]. unfold carries_on.
  rewrite Hr', Hr, Hb', Hb, app_assoc.
  repeat split; try assumption; try reflexivity.
  intros H. apply Ha', Ha, H.
Qed.

Lemma notify_none_held line waiting :
  none_held waiting ->
  none_held (fst (notify line waiting)) /\ none_held (snd (notify line waiting)).
Proof.
  unfold none_held. induction waiting as [|i rest IH]; intros H.
  - split; constructor.
  - inversion H as [|? ? Hi Hrest]; subst. destruct (IH Hrest) as [Hs Hd].
    cbn [notify]. destruct (notify line rest) as [still done].
    cbn [fst snd] in *.
    destruct (settled _); cbn [fst snd]; split; try assumption;
      constructor; assumption.
Qed.

Lemma emit_carries_on s line :
  none_held (listening s) -> none_held (microtasks s) ->
  carries_on s (emit s line) [line].
Proof.
  intros Hl Hm. destruct (notify_none_held line _ Hl) as [Hs Hd].
  unfold emit, carries_on. destruct (notify line (listening s)) as [still done].
  cbn [fst snd responses ftp listening microtasks] in *.
  repeat split; try assumption; try reflexivity; try (intros H; exact H).
  apply Forall_app. split; assumption.
Qed.

Lemma sendCommand_start_frame c command allowPreliminary :
  buffer (fst (sendCommand_start c command allowPreliminary)) = buffer c
  /\ authenticated (fst (sendCommand_start c command allowPreliminary))
     = authenticated c.
Proof.
  unfold sendCommand_start. destruct (negb (connected c)); split; reflexivity.
Qed.

Lemma suspend_carries_on s at_ command :
  none_held (listening s) -> none_held (microtasks s) ->
  carries_on s (suspend s at_ command []) [].
Proof.
  intros Hl Hm. unfold suspend, carries_on.
  destruct (sendCommand_start_frame (ftp s) command false) as [Hb Ha].
  destruct (sendCommand_start (ftp s) command false) as [c cmd].
  cbn [fst] in Hb, Ha.
  destruct (settled (result cmd));
    cbn [responses ftp listening microtasks]; rewrite app_nil_r, Hb, Ha;
    repeat split; try assumption; try reflexivity; try (intros H; exact H);
    apply Forall_app; (split; [assumption|]); constructor;
    [reflexivity | constructor | reflexivity | constructor].
Qed.

Lemma greeting_last_tail line rest :
  greeting_last (line :: rest) = true -> greeting_last rest = true.
Proof. cbn [greeting_last]. intros H. apply andb_true_iff in H. apply H. Qed.

Lemma greeting_last_head line rest :
  greeting_last (line :: rest) = true ->
  JS.eq (reply_code line) 220 = true -> rest = [].
Proof.
  cbn [greeting_last]. intros H H220. apply andb_true_iff in H.
  destruct H as [H _]. rewrite H220 in H. cbn [negb orb] in H.
  destruct rest; [reflexivity | discriminate H].
Qed.

(** Under either condition the loop emits its lines in order: an
    authenticated client never suspends it, and a line whose code is 220
    suspends it only where no line is left. *)
Lemma loop_carries_on lines : forall s,
  authenticated (ftp s) = true \/ greeting_last lines = true ->
  none_held (listening s) -> none_held (microtasks s) ->
  carries_on s (loop s lines) lines.
Proof.
  induction lines as [|line rest IH]; intros s Hcond Hl Hm.
  - apply carries_on_refl; assumption.
  - cbn [loop].
    pose proof (emit_carries_on s line Hl Hm) as Hemit.
    destruct Hemit as [Hr [Hb [Hl1 [Hm1 Ha1]]]].
    assert (Hemit : carries_on s (emit s line) [line])
      by (unfold carries_on; auto).
    fold (reply_code line).
    destruct (JS.eq (reply_code line) 220
              && negb (authenticated (ftp (emit s line)))) eqn:Hlogin.
    + apply andb_true_iff in Hlogin. destruct Hlogin as [H220 Hauth].
      apply negb_true_iff in Hauth.
      destruct Hcond as [Hcond|Hcond];
        [rewrite (Ha1 Hcond) in Hauth; discriminate Hauth|].
      rewrite (greeting_last_head _ _ Hcond H220).
      apply (carries_on_trans s (emit s line) _ [line] []);
        [exact Hemit | apply suspend_carries_on; assumption].
    + apply (carries_on_trans s (emit s line) _ [line] rest);
        [exact Hemit|].
      apply IH; try assumption.
      destruct Hcond as [Hcond|Hcond];
        [left; exact (Ha1 Hcond) | right; exact (greeting_last_tail _ _ Hcond)].
Qed.

Lemma resume_carries_on s i :
  remaining i = [] ->
  none_held (listening s) -> none_held (microtasks s) ->
  carries_on s (resume s i) [].
Proof.
  intros Hi Hl Hm. unfold resume. rewrite Hi. cbn [loop].
  destruct (result (awaited i)) as [|reply|err].
  - apply carries_on_refl; assumption.
  - destruct (at_await i).
    + apply suspend_carries_on; assumption.
    + unfold carries_on. cbn [responses ftp listening microtasks].
      rewrite app_nil_r. repeat split; try assumption; reflexivity.
  - unfold carries_on. cbn [responses ftp listening microtasks].
    rewrite app_nil_r. repeat split; try assumption; try reflexivity.
    intros H; exact H.
Qed.

Lemma run_microtasks_carries_on fuel : forall s,
  none_held (listening s) -> none_held (microtasks s) ->
  carries_on s (run_microtasks fuel s) [].
Proof.
  induction fuel as [|fuel IH]; intros s Hl Hm; cbn [run_microtasks].
  - apply carries_on_refl; assumption.
  - destruct (microtasks s) as [|i queue] eqn:Hq.
    + apply carries_on_refl; [assumption | rewrite Hq; constructor].
    + inversion Hm as [|? ? Hi Hqueue]; subst.
      set (s' := mkConnection (ftp s) (user s) (password s) (responses s)
                   (listening s) queue (connecting s)).
      assert (Hstep : carries_on s' (resume s' i) [])
        by (apply resume_carries_on; assumption).
      destruct Hstep as [Hr [Hb [Hl1 [Hm1 Ha1]]]].
      destruct (IH (resume s' i) Hl1 Hm1) as [Hr2 [Hb2 [Hl2 [Hm2 Ha2]]]].
      unfold carries_on. rewrite Hr2, Hr, Hb2, Hb.
      cbn [responses ftp] in *. rewrite !app_nil_r.
      repeat split; try assumption; try reflexivity.
      intros H. apply Ha2, Ha1, H.
Qed.

(** One chunk. *)
Lemma connection_step_data s data :
  authenticated (ftp s) = true \/ greeting_last (snd (onData (ftp s) data)) = true ->
  none_held (listening s) -> none_held (microtasks s) ->
  responses (connection_step s (SocketData data))
  = (responses s ++ snd (onData (ftp s) data))%list
  /\ buffer (ftp (connection_step s (SocketData data)))
     = buffer (fst (onData (ftp s) data))
  /\ none_held (listening (connection_step s (SocketData data)))
  /\ none_held (microtasks (connection_step s (SocketData data)))
  /\ (authenticated (ftp s) = true ->
      authenticated (ftp (connection_step s (SocketData data))) = true).
Proof.
  intros Hcond Hl Hm. cbn [connection_step].
  assert (Hauth : authenticated (fst (onData (ftp s) data))
                  = authenticated (ftp s)) by reflexivity.
  destruct (onData (ftp s) data) as [c lines]. cbn [fst snd] in *.
  set (s0 := with_client s c).
  assert (Hloop : carries_on s0 (loop s0 lines) lines).
  { apply loop_carries_on; try assumption.
    destruct Hcond as [Hcond|Hcond]; [left|right; exact Hcond].
    cbn [s0 with_client ftp]. rewrite Hauth. exact Hcond. }
  destruct Hloop as [Hr [Hb [Hl1 [Hm1 Ha1]]]].
  destruct (run_microtasks_carries_on (work_left (loop s0 lines)) _ Hl1 Hm1)
    as [Hr2 [Hb2 [Hl2 [Hm2 Ha2]]]].
  unfold take_up, settle. rewrite Hr2, Hr, Hb2, Hb, app_nil_r.
  cbn [s0 with_client responses ftp] in *.
  repeat split; try assumption; try reflexivity.
  intros H. apply Ha2, Ha1. rewrite Hauth. exact H.
Qed.

(** [onData] reads nothing of the client but its buffer. *)
Lemma onData_buffer c c' data :
  buffer c = buffer c' ->
  snd (onData c data) = snd (onData c' data)
  /\ buffer (fst (onData c data)) = buffer (fst (onData c' data)).
Proof. unfold onData. intros ->. split; reflexivity. Qed.

Lemma onData_all_buffer chunks : forall c c',
  buffer c = buffer c' ->
  snd (onData_all c chunks) = snd (onData_all c' chunks)
  /\ buffer (fst (onData_all c chunks)) = buffer (fst (onData_all c' chunks)).
Proof.
  induction chunks as [|data rest IH]; intros c c' H; [split; [reflexivity|exact H]|].
  cbn [onData_all].
  destruct (onData_buffer c c' data H) as [Hlines Hbuf].
  destruct (onData c data) as [c1 lines], (onData c' data) as [c1' lines'].
  cbn [fst snd] in *. subst lines'.
  destruct (IH c1 c1' Hbuf) as [Hmore Hbuf'].
  destruct (onData_all c1 rest) as [c2 more], (onData_all c1' rest) as [c2' more'].
  cbn [fst snd] in *. subst more'. split; [reflexivity | exact Hbuf'].
Qed.

Lemma greetings_last_buffer chunks : forall c c',
  buffer c = buffer c' -> greetings_last c chunks = greetings_last c' chunks.
Proof.
  induction chunks as [|data rest IH]; intros c c' H; [reflexivity|].
  cbn [greetings_last].
  destruct (onData_buffer c c' data H) as [Hlines Hbuf].
  rewrite Hlines, (IH _ _ Hbuf). reflexivity.
Qed.

Lemma expire_none_held waiting :
  none_held waiting ->
  none_held (fst (expire waiting)) /\ none_held (snd (expire waiting)).
Proof.
  unfold none_held. induction waiting as [|i rest IH]; intros H.
  - split; constructor.
  - inversion H as [|? ? Hi Hrest]; subst. destruct (IH Hrest) as [Hs Hd].
    cbn [expire]. destruct (timeoutId (awaited i)); cbn [fst snd].
    + split; [exact Hrest|]. constructor; [exact Hi | constructor].
    + destruct (expire rest) as [still done]. cbn [fst snd] in *.
      split; [constructor; assumption | exact Hd].
Qed.

(** The expiry of a timer emits nothing where no line is held. *)
Lemma connection_step_timeout s :
  none_held (listening s) -> none_held (microtasks s) ->
  carries_on s (connection_step s CommandTimeout) [].
Proof.
  intros Hl Hm. cbn [connection_step].
  destruct (expire_none_held _ Hl) as [Hs Hd].
  destruct (expire (listening s)) as [still done]. cbn [fst snd] in *.
  set (s0 := mkConnection (ftp s) (user s) (password s) (responses s) still
               (microtasks s ++ done) (connecting s)).
  assert (Hm0 : none_held (microtasks s0))
    by (apply Forall_app; split; assumption).
  destruct (run_microtasks_carries_on (work_left s0) s0 Hs Hm0)
    as [Hr [Hb [Hl1 [Hm1 Ha1]]]].
  unfold settle, carries_on. rewrite Hr, Hb.
  repeat split; try assumption; reflexivity.
Qed.

(** Event after event. *)
Lemma connection_run_events events : forall s,
  authenticated (ftp s) = true
  \/ greetings_last (ftp s) (chunks_of events) = true ->
  none_held (listening s) -> none_held (microtasks s) ->
  responses (connection_run s events)
  = (responses s ++ snd (onData_all (ftp s) (chunks_of events)))%list
  /\ buffer (ftp (connection_run s events))
     = buffer (fst (onData_all (ftp s) (chunks_of events))).
Proof.
  induction events as [|[data|] rest IH]; intros s Hcond Hl Hm.
  - cbn [connection_run fold_left chunks_of flat_map onData_all fst snd].
    rewrite app_nil_r. split; reflexivity.
  - cbn [connection_run fold_left chunks_of flat_map app] in *.
    fold (chunks_of rest) in *.
    change (fold_left connection_step rest ?t) with (connection_run t rest).
    assert (Hhead : authenticated (ftp s) = true
                    \/ greeting_last (snd (onData (ftp s) data)) = true).
    { destruct Hcond as [H|H]; [left; exact H | right].
      cbn [greetings_last] in H. apply andb_true_iff in H. apply H. }
    destruct (connection_step_data s data Hhead Hl Hm)
      as [Hr [Hb [Hl1 [Hm1 Ha1]]]].
    set (s1 := connection_step s (SocketData data)) in *.
    assert (Htail : authenticated (ftp s1) = true
                    \/ greetings_last (ftp s1) (chunks_of rest) = true).
    { destruct Hcond as [H|H]; [left; exact (Ha1 H) | right].
      cbn [greetings_last] in H. apply andb_true_iff in H.
      rewrite (greetings_last_buffer (chunks_of rest) _ _ Hb). apply H. }
    destruct (IH s1 Htail Hl1 Hm1) as [Hr2 Hb2].
    destruct (onData_all_buffer (chunks_of rest) _ _ Hb) as [Hmore Hbuf].
    rewrite Hr2, Hr, Hb2, Hmore, Hbuf. cbn [onData_all].
    destruct (onData (ftp s) data) as [c1 lines]. cbn [fst snd].
    destruct (onData_all c1 (chunks_of rest)) as [c2 more]. cbn [fst snd].
    rewrite app_assoc. split; reflexivity.
  - cbn [connection_run fold_left chunks_of flat_map app] in *.
    fold (chunks_of rest) in *.
    change (fold_left connection_step rest ?t) with (connection_run t rest).
    destruct (connection_step_timeout s Hl Hm) as [Hr [Hb [Hl1 [Hm1 Ha1]]]].
    set (s1 := connection_step s CommandTimeout) in *.
    assert (Htail : authenticated (ftp s1) = true
                    \/ greetings_last (ftp s1) (chunks_of rest) = true).
    { destruct Hcond as [H|H]; [left; exact (Ha1 H) | right].
      rewrite (greetings_last_buffer (chunks_of rest) _ _ Hb). exact H. }
    destruct (IH s1 Htail Hl1 Hm1) as [Hr2 Hb2].
    destruct (onData_all_buffer (chunks_of rest) _ _ Hb) as [Hmore Hbuf].
    rewrite Hr2, Hr, Hb2, Hmore, Hbuf, app_nil_r. split; reflexivity.
Qed.

(** C5 as stated fails, twice.  An empty line is a CRLF-delimited line
    of the stream, and the loop's [if (line)] passes it over.  And while
    the client is not authenticated, a line whose code is 220 suspends
    the loop on the login exchange: of a greeting of two lines that one
    chunk brings, the second is emitted after the replies to USER and
    PASS that later chunks bring, and not at all before they come. *)
Lemma framing_drops_and_reorders :
  responses
    (connection_run
       (connect_open (set_authenticated (online new_client) true) "bob" "secret")
       [SocketData ("200 NOOP ok" ++ JS.CRLF ++ JS.CRLF ++ "226 Done" ++ JS.CRLF)])
  = ["200 NOOP ok"; "226 Done"]
  /\ removelast
       (JS.split_crlf ("200 NOOP ok" ++ JS.CRLF ++ JS.CRLF ++ "226 Done" ++ JS.CRLF))
     = ["200 NOOP ok"; ""; "226 Done"]
  /\ responses
       (connection_run (connect_open (online new_client) "bob" "secret")
          [SocketData ("220-Welcome" ++ JS.CRLF ++ "220 Ready" ++ JS.CRLF);
           SocketData ("331 Password required" ++ JS.CRLF);
           SocketData ("230 Logged in" ++ JS.CRLF)])
     = ["220-Welcome"; "331 Password required"; "230 Logged in"; "220 Ready"]
  /\ removelast
       (JS.split_crlf
          (("220-Welcome" ++ JS.CRLF ++ "220 Ready" ++ JS.CRLF)
           ++ ("331 Password required" ++ JS.CRLF)
           ++ ("230 Logged in" ++ JS.CRLF)))
     = ["220-Welcome"; "220 Ready"; "331 Password required"; "230 Logged in"]
  /\ responses
       (connection_run (connect_open (online new_client) "bob" "secret")
          [SocketData ("220-Welcome" ++ JS.CRLF ++ "220 Ready" ++ JS.CRLF)])
     = ["220-Welcome"].
Proof. repeat split. Qed.

(** C5, amended.  Take any sequence of chunks delivered to a client
    whose buffer holds no complete line, with or without expiries of
    command timers in between, such that the client is authenticated,
    or that in no chunk a line that is not empty follows a line whose
    code is 220.  The ['response'] events emitted are exactly the
    CRLF-delimited lines of the buffer followed by the chunks'
    concatenation that are not empty, in order, however the chunk
    boundaries fall, and the unterminated remainder is kept in the
    buffer. *)
Theorem framing_chunk_independent :
  forall c user password events,
    has_crlf (buffer c) = false ->
    authenticated c = true \/ greetings_last c (chunks_of events) = true ->
    responses (connection_run (connect_open c user password) events)
    = filter nonempty
        (removelast
           (JS.split_crlf (buffer c ++ concat_chunks (chunks_of events))))
    /\ buffer (ftp (connection_run (connect_open c user password) events))
       = last (JS.split_crlf (buffer c ++ concat_chunks (chunks_of events))) "".
Proof.
  intros c user password events Hbuf Hcond.
  destruct (connection_run_events events (connect_open c user password) Hcond
              (Forall_nil _) (Forall_nil _)) as [Hr Hb].
  destruct (onData_all_spec (chunks_of events) c Hbuf) as [Hlines Hbuffer].
  change (ftp (connect_open c user password)) with c in Hr, Hb.
  change (responses (connect_open c user password)) with (@nil string) in Hr.
  rewrite Hr, Hb, Hlines, Hbuffer. split; reflexivity.
Qed.

(** A login as chunks bring it: the greeting cut in three, the reply to
    USER followed by an empty line and by the start of the next line. *)
Lemma framing_chunk_independent_witness :
  responses
    (connection_run (connect_open (online new_client) "bob" "secret")
       [SocketData "220 he"; SocketData ("llo" ++ String JS.CR "");
        SocketData (String JS.LF "");
        SocketData ("331 Password required" ++ JS.CRLF ++ JS.CRLF ++ "23")])
  = ["220 hello"; "331 Password required"]
  /\ buffer
       (ftp (connection_run (connect_open (online new_client) "bob" "secret")
               [SocketData "220 he"; SocketData ("llo" ++ String JS.CR "");
                SocketData (String JS.LF "");
                SocketData ("331 Password required" ++ JS.CRLF ++ JS.CRLF
                            ++ "23")]))
     = "23".
Proof.
  apply (framing_chunk_independent (online new_client) "bob" "secret"
           [SocketData "220 he"; SocketData ("llo" ++ String JS.CR "");
            SocketData (String JS.LF "");
            SocketData ("331 Password required" ++ JS.CRLF ++ JS.CRLF ++ "23")]).
  - reflexivity.
  - right. reflexivity.
Defined.

(** Two ways of cutting the same bytes into chunks give the same lines. *)
Corollary framing_same_bytes c chunks chunks' :
  has_crlf (buffer c) = false ->
  concat_chunks chunks = concat_chunks chunks' ->
  snd (onData_all c chunks) = snd (onData_all c chunks').
Proof.
  intros Hbuf Hsame.
  rewrite (proj1 (onData_all_spec chunks c Hbuf)).
  rewrite (proj1 (onData_all_spec chunks' c Hbuf)).
  rewrite Hsame. reflexivity.
Qed.

(* ----------------------------------------------------------------- *)
(** ** Passive mode *)

Lemma is_digit_range c :
  JS.is_digit c = true <-> (48 <= nat_of_ascii c <= 57)%nat.
Proof.
  unfold JS.is_digit. rewrite andb_true_iff, !Nat.leb_le. reflexivity.
Qed.

Lemma digit_not_char c (x : ascii) :
  JS.is_digit x = false -> JS.is_digit c = true -> Ascii.eqb c x = false.
Proof.
  intros Hx Hc. destruct (Ascii.eqb_spec c x) as [->|]; [congruence|reflexivity].
Qed.

Lemma span_digits_group ds : forall c rest,
  all_digits ds = true -> JS.is_digit c = false ->
  span_digits (ds ++ String c rest) = (ds, String c rest).
Proof.
  induction ds as [|d ds IH]; intros c rest Hds Hc.
  - cbn [append span_digits]. rewrite Hc. reflexivity.
  - cbn [all_digits] in Hds. apply andb_true_iff in Hds. destruct Hds as [Hd Hds].
    cbn [append span_digits]. rewrite Hd, (IH c rest Hds Hc). reflexivity.
Qed.

Lemma span_digits_sound s : forall ds rest,
  span_digits s = (ds, rest) -> s = ds ++ rest /\ all_digits ds = true.
Proof.
  induction s as [|c s IH]; intros ds rest H; cbn [span_digits] in H.
  - injection H as <- <-. split; reflexivity.
  - destruct (JS.is_digit c) eqn:Hc.
    + destruct (span_digits s) as [ds' rest'] eqn:Hs.
      injection H as <- <-. destruct (IH ds' rest' eq_refl) as [-> Hds'].
      split; [reflexivity|]. cbn [all_digits]. rewrite Hc, Hds'. reflexivity.
    + injection H as <- <-. split; reflexivity.
Qed.

Lemma group_then_complete stop ds rest :
  digit_group ds = true -> JS.is_digit stop = false ->
  group_then stop (ds ++ String stop rest) = Some (ds, rest).
Proof.
  unfold digit_group, group_then. intros Hds Hstop.
  apply andb_true_iff in Hds. destruct Hds as [Hne Hds].
  rewrite (span_digits_group ds stop rest Hds Hstop).
  destruct ds as [|d ds']; [discriminate Hne|].
  rewrite Ascii.eqb_refl. reflexivity.
Qed.

Lemma group_then_sound stop s ds rest :
  group_then stop s = Some (ds, rest) ->
  s = ds ++ String stop rest /\ digit_group ds = true.
Proof.
  unfold group_then. destruct (span_digits s) as [ds' rest'] eqn:Hs.
  apply span_digits_sound in Hs. destruct Hs as [-> Hds'].
  destruct ds' as [|d ds'']; [discriminate|].
  destruct rest' as [|c rest'']; [discriminate|].
  destruct (Ascii.eqb_spec c stop) as [->|]; [|discriminate].
  intros H. injection H as <- <-. split; [reflexivity|].
  unfold digit_group. rewrite Hds'. reflexivity.
Qed.

Lemma pasv_text_append m post :
  pasv_text m ++ post
  = String "("
      (m1 m ++ String ","
      (m2 m ++ String ","
      (m3 m ++ String ","
      (m4 m ++ String ","
      (m5 m ++ String ","
      (m6 m ++ String ")" post)))))).
Proof.
  unfold pasv_text. cbn [append].
  repeat (rewrite append_assoc; cbn [append]). reflexivity.
Qed.

Lemma pasv_match_here_complete m post :
  digit_groups m = true -> pasv_match_here (pasv_text m ++ post) = Some m.
Proof.
  unfold digit_groups. rewrite !andb_true_iff.
  intros [[[[[H1 H2] H3] H4] H5] H6].
  rewrite pasv_text_append. unfold pasv_match_here. cbn [Ascii.eqb Bool.eqb negb].
  rewrite !group_then_complete by (assumption || reflexivity).
  destruct m. reflexivity.
Qed.

Lemma pasv_match_here_sound s m :
  pasv_match_here s = Some m ->
  digit_groups m = true /\ exists post, s = pasv_text m ++ post.
Proof.
  unfold pasv_match_here. destruct s as [|c s0]; [discriminate|].
  destruct (Ascii.eqb_spec c "(") as [->|]; [|discriminate]. cbn [negb].
  destruct (group_then "," s0) as [[a s1]|] eqn:E1; [|discriminate].
  destruct (group_then "," s1) as [[b s2]|] eqn:E2; [|discriminate].
  destruct (group_then "," s2) as [[c s3]|] eqn:E3; [|discriminate].
  destruct (group_then "," s3) as [[d s4]|] eqn:E4; [|discriminate].
  destruct (group_then "," s4) as [[p1 s5]|] eqn:E5; [|discriminate].
  destruct (group_then ")" s5) as [[p2 s6]|] eqn:E6; [|discriminate].
  intros H. injection H as <-.
  apply group_then_sound in E1, E2, E3, E4, E5, E6.
  destruct E1 as [-> G1], E2 as [-> G2], E3 as [-> G3], E4 as [-> G4],
           E5 as [-> G5], E6 as [-> G6].
  split.
  - unfold digit_groups. cbn [m1 m2 m3 m4 m5 m6].
    rewrite G1, G2, G3, G4, G5, G6. reflexivity.
  - exists s6. rewrite pasv_text_append. reflexivity.
Qed.

Lemma pasv_match_unfold s :
  pasv_match s
  = match pasv_match_here s with
    | Some m => Some m
    | None => match s with "" => None | String _ s' => pasv_match s' end
    end.
Proof. destruct s; reflexivity. Qed.

Lemma occurs_at_tail x pre s m :
  occurs_at (String x pre) (String x s) m <-> occurs_at pre s m.
Proof.
  unfold occurs_at. split; intros [Hg [post Hpost]]; (split; [exact Hg|]);
    exists post.
  - cbn [append] in Hpost. injection Hpost as ->. reflexivity.
  - rewrite Hpost. reflexivity.
Qed.

Lemma occurs_at_head pre s m :
  occurs_at pre s m ->
  match pre, s with
  | String x _, String y _ => x = y
  | String _ _, "" => False
  | "", _ => True
  end.
Proof.
  intros [_ [post ->]]. destruct pre as [|x pre]; [exact I|]. reflexivity.
Qed.

(** The match found is an occurrence, and the leftmost one. *)
Lemma pasv_match_sound s : forall m,
  pasv_match s = Some m -> exists pre, occurs_at pre s m /\ leftmost pre s.
Proof.
  induction s as [|x s IH]; intros m; rewrite pasv_match_unfold.
  - cbn. discriminate.
  - destruct (pasv_match_here (String x s)) as [m'|] eqn:Hhere.
    + intros H. injection H as ->. exists "".
      split; [exact (pasv_match_here_sound _ _ Hhere)|].
      intros pre' m' _. cbn. lia.
    + intros H. destruct (IH m H) as [pre [Hocc Hleft]].
      exists (String x pre). split; [apply (proj2 (occurs_at_tail _ _ _ _)), Hocc|].
      intros pre' m' Hocc'. destruct pre' as [|y pre'].
      * destruct Hocc' as [Hg [post Hpost]]. cbn [append] in Hpost.
        rewrite Hpost, (pasv_match_here_complete _ _ Hg) in Hhere.
        discriminate.
      * pose proof (occurs_at_head _ _ _ Hocc') as Hxy. cbn in Hxy. subst y.
        apply (proj1 (occurs_at_tail _ _ _ _)) in Hocc'.
        specialize (Hleft _ _ Hocc').
        cbn [String.length]. lia.
Qed.

(** The leftmost occurrence is the match found. *)
Lemma pasv_match_leftmost pre : forall s m,
  occurs_at pre s m -> leftmost pre s -> pasv_match s = Some m.
Proof.
  induction pre as [|x pre IH]; intros s m Hocc Hleft;
    rewrite pasv_match_unfold.
  - destruct Hocc as [Hg [post ->]]. cbn [append].
    rewrite (pasv_match_here_complete _ _ Hg). reflexivity.
  - destruct (pasv_match_here s) as [m'|] eqn:Hhere.
    + apply pasv_match_here_sound in Hhere.
      specialize (Hleft "" m' Hhere). cbn in Hleft. lia.
    + pose proof (occurs_at_head _ _ _ Hocc) as Hhead.
      destruct s as [|y s]; [contradiction|]. subst y.
      apply (proj1 (occurs_at_tail _ _ _ _)) in Hocc. apply (IH s m Hocc).
      intros pre' m' Hocc'. apply (proj2 (occurs_at_tail x _ _ _)) in Hocc'.
      specialize (Hleft _ _ Hocc'). cbn [String.length] in Hleft. lia.
Qed.

(** Without an occurrence there is no match, and with one there is. *)
Lemma pasv_match_none s :
  (forall pre m, ~ occurs_at pre s m) -> pasv_match s = None.
Proof.
  intros Hnone. destruct (pasv_match s) as [m|] eqn:H; [|reflexivity].
  destruct (pasv_match_sound s m H) as [pre [Hocc _]].
  destruct (Hnone pre m Hocc).
Qed.

Lemma pasv_match_some pre : forall s m,
  occurs_at pre s m -> pasv_match s <> None.
Proof.
  induction pre as [|x pre IH]; intros s m Hocc; rewrite pasv_match_unfold.
  - destruct Hocc as [Hg [post ->]]. cbn [append].
    rewrite (pasv_match_here_complete _ _ Hg). discriminate.
  - destruct (pasv_match_here s); [discriminate|].
    pose proof (occurs_at_head _ _ _ Hocc) as Hhead.
    destruct s as [|y s]; [contradiction|]. subst y.
    apply (proj1 (occurs_at_tail _ _ _ _)) in Hocc. exact (IH s m Hocc).
Qed.

Lemma digit_not_white c : JS.is_digit c = true -> JS.is_white c = false.
Proof.
  intros H. apply is_digit_range in H. unfold JS.is_white.
  assert (H1 : (nat_of_ascii c <=? 13)%nat = false) by (apply Nat.leb_gt; lia).
  assert (H2 : (nat_of_ascii c =? 32)%nat = false) by (apply Nat.eqb_neq; lia).
  assert (H3 : (nat_of_ascii c =? 160)%nat = false) by (apply Nat.eqb_neq; lia).
  rewrite H1, H2, H3, andb_false_r. reflexivity.
Qed.

Lemma digit_val_decimal c :
  JS.is_digit c = true ->
  JS.digit_val 10 c = Some (Z.of_nat (nat_of_ascii c) - 48).
Proof.
  intros H. apply is_digit_range in H. unfold JS.digit_val.
  assert (H1 : (48 <=? Z.of_nat (nat_of_ascii c)) = true) by (apply Z.leb_le; lia).
  assert (H2 : (Z.of_nat (nat_of_ascii c) <=? 57) = true) by (apply Z.leb_le; lia).
  rewrite H1, H2. reflexivity.
Qed.

Lemma parse_digits_decimal s : forall a,
  all_digits s = true ->
  JS.parse_digits 10 (Some a) s = Some (decimal_from a s).
Proof.
  induction s as [|c s IH]; intros a H; [reflexivity|].
  cbn [all_digits] in H. apply andb_true_iff in H. destruct H as [Hc Hs].
  cbn [JS.parse_digits decimal_from]. rewrite (digit_val_decimal c Hc).
  apply IH, Hs.
Qed.

(** An integer of at most [2^53] in absolute value is a double. *)
Lemma double_exact z :
  Z.abs z <= JS.two_53 -> JS.double z = JS.Num z.
Proof.
  intros H. unfold JS.double.
  destruct (Z.abs z <? JS.two_53) eqn:Hlt; [reflexivity|].
  apply Z.ltb_ge in Hlt.
  assert (Habs : Z.abs z = JS.two_53) by lia.
  rewrite Habs.
  destruct (Z.abs_eq_or_opp z) as [Hz|Hz]; rewrite Hz in Habs.
  - subst z. reflexivity.
  - assert (Hval : z = - JS.two_53) by lia. subst z. reflexivity.
Qed.

Lemma decimal_from_bound s : forall a,
  all_digits s = true -> 0 <= a ->
  0 <= decimal_from a s < (a + 1) * 10 ^ Z.of_nat (String.length s).
Proof.
  induction s as [|c s IH]; intros a H Ha.
  - cbn [decimal_from String.length]. change (10 ^ Z.of_nat 0) with 1. lia.
  - cbn [all_digits] in H. apply andb_true_iff in H. destruct H as [Hc Hs].
    apply is_digit_range in Hc. cbn [decimal_from String.length].
    assert (Hd : 0 <= 10 * a + (Z.of_nat (nat_of_ascii c) - 48)) by lia.
    specialize (IH _ Hs Hd).
    rewrite Nat2Z.inj_succ, Z.pow_succ_r by lia.
    assert (Hpow : 0 < 10 ^ Z.of_nat (String.length s))
      by (apply Z.pow_pos_nonneg; lia).
    nia.
Qed.

(** The number a group of [n] digits denotes is below [10^n]. *)
Lemma decimal_bound s :
  all_digits s = true ->
  0 <= decimal s < 10 ^ Z.of_nat (String.length s).
Proof.
  intros H. pose proof (decimal_from_bound s 0 H (Z.le_refl 0)) as Hb.
  unfold decimal. lia.
Qed.

(** On a group of decimal digits [parseInt] gives the double nearest to
    the number it denotes. *)
Lemma parseInt_digit_group ds :
  digit_group ds = true -> JS.parseInt ds = JS.double (decimal ds).
Proof.
  unfold digit_group. intros H. apply andb_true_iff in H. destruct H as [Hne H].
  destruct ds as [|c r]; [discriminate Hne|]. clear Hne.
  cbn [all_digits] in H. apply andb_true_iff in H. destruct H as [Hc Hr].
  unfold JS.parseInt. cbn [JS.skip_white]. rewrite (digit_not_white c Hc).
  rewrite (digit_not_char c "-" eq_refl Hc), (digit_not_char c "+" eq_refl Hc).
  assert (Hradix :
            match String c r with
            | String c0 (String d r0) =>
                if Ascii.eqb c0 "0" && (Ascii.eqb d "x" || Ascii.eqb d "X")
                then (16, r0) else (10, String c r)
            | _ => (10, String c r)
            end = (10, String c r)).
  { destruct r as [|d r']; [reflexivity|].
    cbn [all_digits] in Hr. apply andb_true_iff in Hr. destruct Hr as [Hd _].
    rewrite (digit_not_char d "x" eq_refl Hd), (digit_not_char d "X" eq_refl Hd).
    rewrite andb_false_r. reflexivity. }
  rewrite Hradix. cbn [JS.parse_digits]. rewrite (digit_val_decimal c Hc).
  rewrite (parse_digits_decimal r _ Hr).
  unfold decimal. cbn [decimal_from]. f_equal. lia.
Qed.

(** That number itself, for a group of at most fifteen digits. *)
Lemma parseInt_short_group ds :
  digit_group ds = true -> (String.length ds <= 15)%nat ->
  JS.parseInt ds = JS.Num (decimal ds).
Proof.
  intros H Hlen. rewrite (parseInt_digit_group _ H). apply double_exact.
  unfold digit_group in H. apply andb_true_iff in H.
  pose proof (decimal_bound ds (proj2 H)) as Hb.
  assert (Hpow : 10 ^ Z.of_nat (String.length ds) <= 10 ^ 15)
    by (apply Z.pow_le_mono_r; lia).
  change (10 ^ 15) with 1000000000000000 in Hpow.
  unfold JS.two_53. lia.
Qed.

Lemma endpoint_of_groups m :
  digit_groups m = true ->
  endpoint_of m
  = {| host := host (endpoint_named m);
       port := double_port (decimal (m5 m)) (decimal (m6 m)) |}.
Proof.
  unfold digit_groups. rewrite !andb_true_iff.
  intros [[[[[_ _] _] _] H5] H6].
  unfold endpoint_of, endpoint_named, double_port, number_add, number_mul.
  rewrite (parseInt_digit_group _ H5), (parseInt_digit_group _ H6).
  reflexivity.
Qed.

(** As long as [p1 * 256 + p2] is at most [2^53] the doubles are exact. *)
Lemma double_port_exact p1 p2 :
  0 <= p1 -> 0 <= p2 -> p1 * 256 + p2 <= JS.two_53 ->
  double_port p1 p2 = JS.Num (p1 * 256 + p2).
Proof.
  intros H1 H2 H. unfold double_port.
  rewrite (double_exact p1), (double_exact p2) by lia.
  cbn [JS.mul]. rewrite (double_exact (p1 * 256)) by lia.
  cbn [JS.add]. apply double_exact. lia.
Qed.

Lemma enterPassiveMode_by_match w :
  enterPassiveMode w
  = match sendCommand "PASV" false w with
    | (Resolved response, w') =>
        match pasv_match (message response) with
        | None => (Rejected "Failed to parse PASV response", w')
        | Some m => (Resolved (endpoint_of m), w')
        end
    | (Pending, w') => (Pending, w')
    | (Rejected e, w') => (Rejected e, w')
    end.
Proof.
  unfold enterPassiveMode, bind.
  destruct (sendCommand "PASV" false w) as [[|response|e] w']; try reflexivity.
  destruct (pasv_match (message response)); reflexivity.
Qed.

(** A prefix without an opening parenthesis has no occurrence starting
    inside it. *)
Lemma leftmost_after_plain_prefix pre : forall s,
  JS.includes pre "(" = false -> leftmost pre (pre ++ s).
Proof.
  induction pre as [|x pre IH]; intros s Hpre pre' m' Hocc; [cbn; lia|].
  cbn [JS.includes String.prefix] in Hpre. apply orb_false_iff in Hpre.
  destruct Hpre as [Hx Hpre].
  destruct pre' as [|y pre'].
  - destruct Hocc as [_ [post Hpost]]. rewrite pasv_text_append in Hpost.
    cbn [append] in Hpost. injection Hpost as -> _.
    destruct (Ascii.ascii_dec "(" "(") as [_|n]; [|destruct (n eq_refl)].
    destruct pre; discriminate Hx.
  - pose proof (occurs_at_head _ _ _ Hocc) as Hhead. cbn [append] in Hhead.
    subst y. cbn [append] in Hocc.
    apply (proj1 (occurs_at_tail _ _ _ _)) in Hocc.
    specialize (IH s Hpre pre' m' Hocc). cbn [String.length]. lia.
Qed.

(** C6 as stated fails: numbers are doubles.  For the groups
    [35184372088832] and [1] the port of the statement is
    [35184372088832 * 256 + 1 = 2^53 + 1], which no double holds; the
    sum that [enterPassiveMode] computes is rounded to [2^53]. *)
Lemma enterPassiveMode_rounds_port :
  occurs_at "Entering Passive Mode "
    "Entering Passive Mode (1,2,3,4,35184372088832,1)"
    (mkPasvMatch "1" "2" "3" "4" "35184372088832" "1")
  /\ leftmost "Entering Passive Mode "
       "Entering Passive Mode (1,2,3,4,35184372088832,1)"
  /\ endpoint_named (mkPasvMatch "1" "2" "3" "4" "35184372088832" "1")
     = {| host := "1.2.3.4"; port := JS.Num 9007199254740993 |}
  /\ fst (enterPassiveMode
            (online new_client,
             [Response "227 Entering Passive Mode (1,2,3,4,35184372088832,1)"]))
     = Resolved {| host := "1.2.3.4"; port := JS.Num 9007199254740992 |}.
Proof.
  split; [|split; [|split]].
  - split; [reflexivity | exists ""; reflexivity].
  - apply (leftmost_after_plain_prefix "Entering Passive Mode "
             "(1,2,3,4,35184372088832,1)" eq_refl).
  - reflexivity.
  - vm_compute. reflexivity.
Qed.

(** C6, amended.  When the PASV command resolves with a reply whose
    message holds the pattern [(a,b,c,d,p1,p2)] (its leftmost
    occurrence, should there be several), [enterPassiveMode] resolves
    with host ["a.b.c.d"] and with the port [p1 * 256 + p2] as the
    arithmetic of doubles gives it, which is [p1 * 256 + p2] itself
    whenever that number is at most [2^53]; a message that holds the
    pattern has a leftmost occurrence; and when the message does not
    hold the pattern, [enterPassiveMode] is rejected with the parse
    error. *)
Theorem enterPassiveMode_parses :
  forall w response w',
    sendCommand "PASV" false w = (Resolved response, w') ->
    (forall pre m,
        occurs_at pre (message response) m ->
        leftmost pre (message response) ->
        enterPassiveMode w
        = (Resolved
             {| host := host (endpoint_named m);
                port := double_port (decimal (m5 m)) (decimal (m6 m)) |},
           w')
        /\ (decimal (m5 m) * 256 + decimal (m6 m) <= JS.two_53 ->
            enterPassiveMode w = (Resolved (endpoint_named m), w')))
    /\ ((exists pre m, occurs_at pre (message response) m) ->
        exists pre m, occurs_at pre (message response) m
                      /\ leftmost pre (message response))
    /\ ((forall pre m, ~ occurs_at pre (message response) m) ->
        enterPassiveMode w = (Rejected "Failed to parse PASV response", w')).
Proof.
  intros w response w' Hsend.
  rewrite enterPassiveMode_by_match, Hsend. split; [|split].
  - intros pre m Hocc Hleft.
    rewrite (pasv_match_leftmost pre _ m Hocc Hleft).
    rewrite (endpoint_of_groups m (proj1 Hocc)).
    split; [reflexivity|]. intros Hbound.
    assert (Hg := proj1 Hocc). unfold digit_groups in Hg.
    rewrite !andb_true_iff in Hg. destruct Hg as [[_ H5] H6].
    unfold digit_group in H5, H6. apply andb_true_iff in H5, H6.
    pose proof (decimal_bound _ (proj2 H5)) as B5.
    pose proof (decimal_bound _ (proj2 H6)) as B6.
    rewrite double_port_exact by lia. reflexivity.
  - intros [pre [m Hocc]].
    destruct (pasv_match (message response)) as [m0|] eqn:Hm.
    + destruct (pasv_match_sound _ _ Hm) as [pre0 H0]. exists pre0, m0. exact H0.
    + destruct (pasv_match_some pre _ m Hocc Hm).
  - intros Hnone. rewrite (pasv_match_none _ Hnone). reflexivity.
Qed.

(** The reply of the specification's example: host 127.0.0.1, port
    200 * 256 + 50 = 51250. *)
Lemma enterPassiveMode_parses_witness :
  enterPassiveMode
    (online new_client,
     [Response "227 Entering Passive Mode (127,0,0,1,200,50)."])
  = (Resolved {| host := "127.0.0.1"; port := JS.Num 51250 |},
     ({| socket := ["PASV" ++ JS.CRLF]; buffer := "";
         connected := true; authenticated := false; timeout := 30000;
         _commandCount := 1; _lastCommand := Some "PASV" |}, [])).
Proof.
  refine (proj2 (proj1 (enterPassiveMode_parses
                  (online new_client,
                   [Response "227 Entering Passive Mode (127,0,0,1,200,50)."])
                  (mkReply (JS.Num 227)
                     "Entering Passive Mode (127,0,0,1,200,50)."
                     "227 Entering Passive Mode (127,0,0,1,200,50).")
                  _ eq_refl)
           "Entering Passive Mode "
           (mkPasvMatch "127" "0" "0" "1" "200" "50") _ _) _).
  - split; [reflexivity | exists "."; reflexivity].
  - apply (leftmost_after_plain_prefix "Entering Passive Mode "
             "(127,0,0,1,200,50)." eq_refl).
  - now vm_compute.
Defined.

(** [parsePasvResponse] in [lib/utils.js] is the same computation, here
    on the whole line of the example. *)
Lemma parsePasvResponse_example :
  parsePasvResponse "227 Entering Passive Mode (127,0,0,1,200,50)."
  = inl {| host := "127.0.0.1"; port := JS.Num 51250 |}.
Proof. reflexivity. Qed.

Lemma parsePasvResponse_by_match message :
  parsePasvResponse message
  = match pasv_match message with
    | None => inr "Failed to parse PASV response"
    | Some m => inl (endpoint_of m)
    end.
Proof. reflexivity. Qed.

(* ----------------------------------------------------------------- *)
(** ** ensureDir: the recursion *)

Lemma replace_backslashes_length p :
  String.length (replace_backslashes p) = String.length p.
Proof. induction p as [|c p IH]; cbn; [reflexivity | now rewrite IH]. Qed.

Lemma collapse_slashes_length p :
  (String.length (collapse_slashes p) <= String.length p)%nat.
Proof.
  induction p as [|c p IH]; [cbn; lia|].
  cbn [collapse_slashes]. destruct (Ascii.eqb c "/").
  - destruct p as [|d p']; [cbn; lia|].
    destruct (Ascii.eqb d "/"); cbn [String.length] in *; lia.
  - cbn [String.length]. lia.
Qed.

Lemma normalizePath_length p :
  (String.length (normalizePath p) <= String.length p)%nat.
Proof.
  unfold normalizePath.
  pose proof (collapse_slashes_length (replace_backslashes p)) as H.
  rewrite replace_backslashes_length in H. exact H.
Qed.

Lemma lastIndexOf_from_bound s c : forall i found,
  found < i ->
  JS.lastIndexOf_from s c i found < i + Z.of_nat (String.length s).
Proof.
  induction s as [|d s IH]; intros i found H; cbn [JS.lastIndexOf_from String.length].
  - lia.
  - specialize (IH (i + 1) (if Ascii.eqb d c then i else found)).
    destruct (Ascii.eqb d c); lia.
Qed.

Lemma lastIndexOf_bound s c :
  JS.lastIndexOf s c < Z.of_nat (String.length s).
Proof.
  unfold JS.lastIndexOf.
  pose proof (lastIndexOf_from_bound s c 0 (-1)). lia.
Qed.

Lemma substring_length s : forall n,
  (String.length (String.substring 0 n s) <= n)%nat.
Proof.
  induction s as [|c s IH]; intros [|n]; cbn; try lia.
  specialize (IH n). lia.
Qed.

Lemma parentDir_shorter normalized :
  negb (parentDir_of normalized =? "/")%string = true ->
  (String.length (parentDir_of normalized) < String.length normalized)%nat.
Proof.
  unfold parentDir_of, or_else, JS.substring. rewrite Nat.sub_0_r.
  set (n := Z.to_nat (JS.lastIndexOf normalized "/")).
  destruct (String.eqb_spec (String.substring 0 n normalized) "") as [Heq|Hne].
  - discriminate.
  - intros _. pose proof (substring_length normalized n) as Hlen.
    pose proof (lastIndexOf_bound normalized "/") as Hidx.
    destruct (String.substring 0 n normalized) as [|x t] eqn:E; [congruence|].
    cbn [String.length] in *. subst n. lia.
Qed.

Lemma ensureDir_body_steps self dirPath recursive :
  ensureDir_body self dirPath recursive
  = if (normalizePath dirPath =? "/")%string
       || (normalizePath dirPath =? ".")%string
    then ret tt
    else
      found <- try_catch (cd (normalizePath dirPath) ;; ret true)
                 (fun _ => ret false) ;;
      if (found : bool) then ret tt
      else
        parent_step self (normalizePath dirPath) recursive ;;
        try_catch (mkdir (normalizePath dirPath)) mkd_catch.
Proof. reflexivity. Qed.

Lemma ensureDir_body_ext self1 self2 dirPath recursive w :
  (negb (parentDir_of (normalizePath dirPath) =? "/")%string = true ->
   forall w', self1 (parentDir_of (normalizePath dirPath)) true w'
              = self2 (parentDir_of (normalizePath dirPath)) true w') ->
  ensureDir_body self1 dirPath recursive w
  = ensureDir_body self2 dirPath recursive w.
Proof.
  intros Hself. rewrite !ensureDir_body_steps.
  destruct ((normalizePath dirPath =? "/")%string
            || (normalizePath dirPath =? ".")%string); [reflexivity|].
  unfold bind.
  destruct (try_catch _ _ w) as [[|found|e] w0]; try reflexivity.
  destruct found; [reflexivity|].
  unfold parent_step. destruct recursive; [|reflexivity].
  destruct (negb (parentDir_of (normalizePath dirPath) =? "/")%string) eqn:Hp;
    [|reflexivity].
  cbn [andb].
  destruct (negb (parentDir_of (normalizePath dirPath) =? ".")%string);
    [|reflexivity].
  rewrite (Hself eq_refl w0). reflexivity.
Qed.

Lemma ensureDir_fuel_irrelevant k1 : forall k2 dirPath recursive w,
  (String.length dirPath < k1)%nat -> (String.length dirPath < k2)%nat ->
  ensureDir_fuel k1 dirPath recursive w = ensureDir_fuel k2 dirPath recursive w.
Proof.
  induction k1 as [|k1 IH]; intros k2 dirPath recursive w H1 H2; [lia|].
  destruct k2 as [|k2]; [lia|].
  cbn [ensureDir_fuel]. apply ensureDir_body_ext. intros Hp w'.
  pose proof (parentDir_shorter _ Hp) as Hshort.
  pose proof (normalizePath_length dirPath) as Hnorm.
  apply IH; lia.
Qed.

(** [ensureDir] satisfies the recursive equation of the source: the
    unrolling never runs out of levels. *)
Theorem ensureDir_unfold dirPath recursive w :
  ensureDir dirPath recursive w = ensureDir_body ensureDir dirPath recursive w.
Proof.
  unfold ensureDir at 1. cbn [ensureDir_fuel].
  apply ensureDir_body_ext. intros Hp w'.
  pose proof (parentDir_shorter _ Hp) as Hshort.
  pose proof (normalizePath_length dirPath) as Hnorm.
  unfold ensureDir. apply ensureDir_fuel_irrelevant; lia.
Qed.

(* ----------------------------------------------------------------- *)
(** ** ensureDir: creation and repetition *)

Lemma ensureDir_at_mkd dirPath recursive w w1 :
  reaches_mkd dirPath recursive w w1 ->
  ensureDir dirPath recursive w
  = try_catch (mkdir (normalizePath dirPath)) mkd_catch w1.
Proof.
  intros [Hroot [e0 [w0 [Hcd Hparent]]]].
  rewrite ensureDir_unfold, ensureDir_body_steps, Hroot.
  unfold bind at 1. unfold try_catch at 1. unfold bind at 1.
  rewrite Hcd. cbn [ret]. unfold bind at 1. rewrite Hparent. reflexivity.
Qed.

(** What the [catch] around [mkdir] does with an MKD error: the error is
    taken for success exactly when its text contains "550" or contains
    "exists", and raised to the caller otherwise. *)
Lemma ensureDir_mkd_error dirPath recursive w w1 err w2 :
  reaches_mkd dirPath recursive w w1 ->
  mkdir (normalizePath dirPath) w1 = (Rejected err, w2) ->
  ensureDir dirPath recursive w
  = (if JS.includes err "550" || JS.includes err "exists"
     then Resolved tt
     else Rejected err,
     w2).
Proof.
  intros Hreach Hmkd.
  rewrite (ensureDir_at_mkd _ _ _ _ Hreach).
  unfold try_catch. rewrite Hmkd. unfold mkd_catch.
  destruct (JS.includes err "550"), (JS.includes err "exists"); reflexivity.
Qed.

(** An error that says the directory exists is passed over whatever its
    code, and an error without "550" and without "exists" is raised. *)
Example ensureDir_mkd_error_examples :
  fst (ensureDir "/new" true
         (online new_client,
          [Response "550 No such directory"; Response "521 Directory exists"]))
  = Resolved tt
  /\ fst (ensureDir "/new" true
            (online new_client,
             [Response "550 No such directory"; Response "452 Disk full"]))
     = Rejected "FTP Error 452: Disk full".
Proof. split; reflexivity. Qed.

(** C7, at the failing inputs.  The [catch] around [mkdir] is there to
    pass over the error of a directory that another process has created
    in the meantime.  An MKD refused with "550 Permission denied" fails
    with an error that does not say that the directory exists, yet
    [ensureDir] resolves; and so it does when the MKD command for the
    path /backup/550 times out, the error text then holding "550" as
    part of the path. *)
Theorem ensureDir_swallows_any_550 :
  mkdir "/new"
    (online new_client, [Response "550 Permission denied"])
  = (Rejected "FTP Error 550: Permission denied",
     ({| socket := ["MKD /new" ++ JS.CRLF]; buffer := "";
         connected := true; authenticated := false; timeout := 30000;
         _commandCount := 1; _lastCommand := Some "MKD /new" |}, []))
  /\ says_already_exists "FTP Error 550: Permission denied" = false
  /\ fst (ensureDir "/new" true
            (online new_client,
             [Response "550 No such directory";
              Response "550 Permission denied"]))
     = Resolved tt
  /\ fst (mkdir "/backup/550" (online new_client, [Deadline]))
     = Rejected "Command timeout: MKD /backup/550"
  /\ says_already_exists "Command timeout: MKD /backup/550" = false
  /\ ensureDir "/backup/550" true
       (online new_client,
        [Response "550 No such directory"; Response "250 Directory changed";
         Deadline])
     = (Resolved tt,
        ({| socket := ["CWD /backup/550" ++ JS.CRLF; "CWD /backup" ++ JS.CRLF;
                       "MKD /backup/550" ++ JS.CRLF];
            buffer := ""; connected := true; authenticated := false;
            timeout := 30000; _commandCount := 3;
            _lastCommand := Some "MKD /backup/550" |}, [])).
Proof. repeat split. Qed.

(** A command that resolves has been written to the control socket. *)
Lemma sendCommand_resolved_written command allowPreliminary w reply w' :
  sendCommand command allowPreliminary w = (Resolved reply, w') ->
  socket (fst w') = (socket (fst w) ++ [(command ++ JS.CRLF)%string])%list.
Proof.
  destruct w as [c events]. rewrite sendCommand_result.
  destruct (connected c) eqn:Hc.
  - rewrite (sendCommand_run_connected _ _ _ _ Hc). cbn [fst snd].
    intros H. injection H as _ <-. reflexivity.
  - rewrite (sendCommand_run_not_connected _ _ _ _ Hc). discriminate.
Qed.

Lemma cd_resolved_written path w w' :
  cd path w = (Resolved tt, w') ->
  socket (fst w') = (socket (fst w) ++ [(("CWD " ++ path) ++ JS.CRLF)%string])%list.
Proof.
  unfold cd, bind, ret.
  destruct (sendCommand ("CWD " ++ path) false w) as [[|reply|e] w0] eqn:Hsend;
    try discriminate.
  intros H. injection H as <-.
  exact (sendCommand_resolved_written _ _ _ _ _ Hsend).
Qed.

(** The directory-exists path: when the CWD probe of a path that is not
    the root nor the current directory succeeds, [ensureDir] resolves
    having sent that one command; for the root and the current directory
    it sends nothing. *)
Lemma ensureDir_found dirPath recursive w1 :
  ((normalizePath dirPath =? "/")%string
   || (normalizePath dirPath =? ".")%string = true ->
   ensureDir dirPath recursive w1 = (Resolved tt, w1))
  /\ (forall w2,
        (normalizePath dirPath =? "/")%string
        || (normalizePath dirPath =? ".")%string = false ->
        cd (normalizePath dirPath) w1 = (Resolved tt, w2) ->
        ensureDir dirPath recursive w1 = (Resolved tt, w2)
        /\ socket (fst w2)
           = (socket (fst w1)
              ++ [(("CWD " ++ normalizePath dirPath) ++ JS.CRLF)%string])%list).
Proof.
  split.
  - intros Hroot. rewrite ensureDir_unfold, ensureDir_body_steps, Hroot.
    reflexivity.
  - intros w2 Hroot Hcd. split; [|exact (cd_resolved_written _ _ _ Hcd)].
    rewrite ensureDir_unfold, ensureDir_body_steps, Hroot.
    unfold bind at 1. unfold try_catch at 1. unfold bind at 1.
    rewrite Hcd. reflexivity.
Qed.

(** The scenario of the specification: the first call creates /a, /a/b
    and /a/b/c, the second finds /a/b/c with its probe. *)
Example ensureDir_scenario :
  ensureDir "/a/b/c" true
    (online new_client,
     [Response "550 /a/b/c: No such directory";
      Response "550 /a/b: No such directory";
      Response "550 /a: No such directory";
      Response "257 /a created"; Response "257 /a/b created";
      Response "257 /a/b/c created";
      Response "250 CWD command successful"])
  = (Resolved tt,
     ({| socket := ["CWD /a/b/c" ++ JS.CRLF; "CWD /a/b" ++ JS.CRLF;
                    "CWD /a" ++ JS.CRLF; "MKD /a" ++ JS.CRLF;
                    "MKD /a/b" ++ JS.CRLF; "MKD /a/b/c" ++ JS.CRLF];
         buffer := ""; connected := true; authenticated := false;
         timeout := 30000; _commandCount := 6;
         _lastCommand := Some "MKD /a/b/c" |},
      [Response "250 CWD command successful"]))
  /\ ensureDir "/a/b/c" true
       ({| socket := ["CWD /a/b/c" ++ JS.CRLF; "CWD /a/b" ++ JS.CRLF;
                      "CWD /a" ++ JS.CRLF; "MKD /a" ++ JS.CRLF;
                      "MKD /a/b" ++ JS.CRLF; "MKD /a/b/c" ++ JS.CRLF];
           buffer := ""; connected := true; authenticated := false;
           timeout := 30000; _commandCount := 6;
           _lastCommand := Some "MKD /a/b/c" |},
        [Response "250 CWD command successful"])
     = (Resolved tt,
        ({| socket := ["CWD /a/b/c" ++ JS.CRLF; "CWD /a/b" ++ JS.CRLF;
                       "CWD /a" ++ JS.CRLF; "MKD /a" ++ JS.CRLF;
                       "MKD /a/b" ++ JS.CRLF; "MKD /a/b/c" ++ JS.CRLF;
                       "CWD /a/b/c" ++ JS.CRLF];
            buffer := ""; connected := true; authenticated := false;
            timeout := 30000; _commandCount := 7;
            _lastCommand := Some "CWD /a/b/c" |}, [])).
Proof. split; reflexivity. Qed.

(** C8, at the failing input.  /new does not exist and the server
    refuses to create it: CWD /new and MKD /new are both answered with
    550.  The first call of [ensureDir] resolves all the same, the MKD
    error being passed over (the defect shown for C7), so that its
    success does not mean that the directory exists.  The second call,
    run on what the first has left, finds its CWD probe refused again
    and sends MKD once more, where the statement has it take the
    directory-exists path without any MKD. *)
Theorem ensureDir_twice_sends_mkd_again :
  ensureDir "/new" true
    (online new_client,
     [Response "550 No such directory"; Response "550 Permission denied";
      Response "550 No such directory"; Response "550 Permission denied"])
  = (Resolved tt,
     ({| socket := ["CWD /new" ++ JS.CRLF; "MKD /new" ++ JS.CRLF];
         buffer := ""; connected := true; authenticated := false;
         timeout := 30000; _commandCount := 2;
         _lastCommand := Some "MKD /new" |},
      [Response "550 No such directory"; Response "550 Permission denied"]))
  /\ ensureDir "/new" true
       ({| socket := ["CWD /new" ++ JS.CRLF; "MKD /new" ++ JS.CRLF];
           buffer := ""; connected := true; authenticated := false;
           timeout := 30000; _commandCount := 2;
           _lastCommand := Some "MKD /new" |},
        [Response "550 No such directory"; Response "550 Permission denied"])
     = (Resolved tt,
        ({| socket := ["CWD /new" ++ JS.CRLF; "MKD /new" ++ JS.CRLF;
                       "CWD /new" ++ JS.CRLF; "MKD /new" ++ JS.CRLF];
            buffer := ""; connected := true; authenticated := false;
            timeout := 30000; _commandCount := 4;
            _lastCommand := Some "MKD /new" |}, [])).
Proof. split; reflexivity. Qed.

(* ----------------------------------------------------------------- *)
(** ** Transfers: completion after the data socket has closed *)

Lemma reject_settled {A} (p : promise A) e : reject p e <> Pending.
Proof. destruct p; discriminate. Qed.

Lemma reject_keeps_settled {A} (p : promise A) e :
  p <> Pending -> reject p e <> Pending.
Proof. destruct p; intros H; [congruence | discriminate | discriminate]. Qed.

Lemma resolve_keeps_settled {A} (p : promise A) v :
  p <> Pending -> resolve p v <> Pending.
Proof. destruct p; intros H; [congruence | discriminate | discriminate]. Qed.

Lemma fallback_run_keeps_settled k chs p :
  p <> Pending -> fallback_run k chs p <> Pending.
Proof.
  intros H. destruct k; cbn [fallback_run]; try apply resolve_keeps_settled, H.
  destruct chs; [exact H | apply resolve_keeps_settled, H].
Qed.

Lemma catch_reject_settles cmd p :
  match cmd with
  | Some c => forall e, result c = Rejected e -> catch_reject cmd p <> Pending
  | None => True
  end.
Proof.
  destruct cmd as [c|]; [|exact I]. intros e He.
  destruct c as [cm ap tm sb res]. cbn [result] in He. subst res.
  cbn [catch_reject]. apply reject_settled.
Qed.

Lemma deliver_allowPreliminary cmd e :
  allowPreliminary (deliver cmd e) = allowPreliminary cmd.
Proof.
  destruct e as [line|]; cbn [deliver].
  - destruct (subscribed cmd); [|reflexivity].
    unfold responseHandler.
    destruct (JS.charAt_is line 3 " "); [|reflexivity].
    destruct (JS.ge _ 100 && JS.lt _ 200 && allowPreliminary cmd); reflexivity.
  - destruct (timeoutId cmd); reflexivity.
Qed.

Lemma transfer_step_invariant t e :
  command_invariant t -> command_invariant (transfer_step t e).
Proof.
  unfold command_invariant. intros Hinv.
  destruct e as [[line|]| |chunk|message| |]; cbn [transfer_step].
  - destruct (if finalHandler t then _ else _) as [listening p].
    cbn [transferCommand outcome].
    destruct (transferCommand t) as [cmd|]; [|exact I]. cbn [option_map].
    destruct Hinv as [Hap _]. split.
    + rewrite deliver_allowPreliminary. exact Hap.
    + exact (catch_reject_settles (Some (deliver cmd (Response line))) p).
  - cbn [transferCommand outcome].
    destruct (transferCommand t) as [cmd|]; [|exact I]. cbn [option_map].
    destruct Hinv as [Hap _]. split.
    + rewrite deliver_allowPreliminary. exact Hap.
    + exact (catch_reject_settles (Some (deliver cmd Deadline)) (outcome t)).
  - destruct (commandSent t); [exact Hinv|].
    destruct (sendCommand_start _ _ true) as [c cmd] eqn:Hstart.
    cbn [transferCommand outcome]. split.
    + unfold sendCommand_start in Hstart.
      destruct (negb (connected (client t)));
        injection Hstart as _ <-; reflexivity.
    + exact (catch_reject_settles (Some cmd) (outcome t)).
  - destruct (kind t); [exact Hinv| |]; cbn [transferCommand outcome];
      exact Hinv.
  - cbn [transferCommand outcome].
    destruct (transferCommand t) as [cmd|]; [|exact I].
    destruct Hinv as [Hap Hrej]. split; [exact Hap|].
    intros e He. apply reject_keeps_settled, (Hrej e He).
  - cbn [transferCommand outcome]. exact Hinv.
  - destruct (fallbackTimer t); [|exact Hinv]. cbn [transferCommand outcome].
    destruct (transferCommand t) as [cmd|]; [|exact I].
    destruct Hinv as [Hap Hrej]. split; [exact Hap|].
    intros e He. apply fallback_run_keeps_settled, (Hrej e He).
Qed.

Lemma transfer_run_invariant events : forall t,
  command_invariant t -> command_invariant (transfer_run t events).
Proof.
  induction events as [|e events IH]; intros t Hinv; [exact Hinv|].
  cbn [transfer_run fold_left]. apply IH, transfer_step_invariant, Hinv.
Qed.

Lemma transfer_run_app t events events' :
  transfer_run t (events ++ events')
  = transfer_run (transfer_run t events) events'.
Proof. apply fold_left_app. Qed.

Lemma harmless_code line :
  harmless line = true ->
  qualifying line = false
  /\ (is_final line = true ->
      JS.ge (reply_code line) 100 = true /\ JS.lt (reply_code line) 400 = true).
Proof.
  unfold harmless, qualifying. intros H. apply andb_true_iff in H.
  destruct H as [Hq Hf]. apply negb_true_iff in Hq, Hf. split; [exact Hq|].
  intros Hfinal. rewrite Hfinal in Hf. cbn [andb] in Hf.
  apply negb_false_iff in Hf. split; [exact Hf|].
  apply orb_false_iff in Hq. destruct Hq as [_ Hq].
  destruct (reply_code line) as [|z|negative]; [discriminate Hf| |].
  - cbn [JS.ge JS.lt] in *. apply Z.leb_gt in Hq. apply Z.ltb_lt. lia.
  - destruct negative; [discriminate Hf | discriminate Hq].
Qed.

Lemma responseHandler_harmless cmd line :
  harmless line = true ->
  allowPreliminary cmd = true ->
  (forall e, result cmd <> Rejected e) ->
  forall e, result (responseHandler cmd line) <> Rejected e.
Proof.
  intros Hh Hap Hres e. destruct (harmless_code line Hh) as [_ Hfinal].
  unfold responseHandler. fold (reply_code line). fold (is_final line).
  destruct (is_final line); [|apply Hres].
  destruct (Hfinal eq_refl) as [H100 H400]. rewrite H100, H400, Hap.
  cbn [andb].
  destruct (JS.lt (reply_code line) 200) eqn:H200; cbn [andb result];
    [apply Hres|].
  assert (H : JS.ge (reply_code line) 200 = true).
  { destruct (reply_code line) as [|z|negative]; [discriminate H100| |].
    - cbn [JS.ge JS.lt] in *. apply Z.ltb_ge in H200. apply Z.leb_le. lia.
    - destruct negative; [discriminate H100 | reflexivity]. }
  rewrite H. cbn [andb]. destruct (result cmd) eqn:Hr; cbn [resolve];
    try discriminate.
  intros Habs. apply (Hres e). exact Habs.
Qed.

Lemma finalHandler_run_harmless k chs p line :
  harmless line = true -> finalHandler_run k chs p line = (true, p).
Proof.
  intros Hh. destruct (harmless_code line Hh) as [Hq _].
  unfold qualifying in Hq. apply orb_false_iff in Hq. destruct Hq as [Hq H400].
  unfold finalHandler_run. fold (reply_code line). rewrite Hq, H400.
  destruct k; reflexivity.
Qed.

Lemma closed_waiting_line k chs t line :
  harmless line = true ->
  closed_waiting k chs t ->
  closed_waiting k chs (transfer_step t (reply_line line)).
Proof.
  intros Hh [Hk Hc Hf Ht Ho Hcmd]. unfold reply_line. cbn [transfer_step].
  rewrite Hf, (finalHandler_run_harmless _ _ _ _ Hh).
  assert (Hcmd' :
    match option_map (fun cmd => deliver cmd (Response line)) (transferCommand t) with
    | Some cmd => allowPreliminary cmd = true
                  /\ forall e, result cmd <> Rejected e
    | None => True
    end).
  { destruct (transferCommand t) as [cmd|]; [|exact I]. cbn [option_map].
    destruct Hcmd as [Hap Hres]. split.
    - rewrite deliver_allowPreliminary. exact Hap.
    - cbn [deliver]. destruct (subscribed cmd); [|exact Hres].
      apply (responseHandler_harmless _ _ Hh Hap Hres). }
  constructor; cbn [kind chunks finalHandler fallbackTimer outcome transferCommand];
    try assumption; try reflexivity.
  destruct (option_map _ (transferCommand t)) as [cmd|]; [|exact Ho].
  destruct Hcmd' as [_ Hres]. destruct cmd as [cm ap tm sb res].
  cbn [result] in Hres. cbn [catch_reject].
  destruct res as [|v|msg]; [exact Ho | exact Ho | destruct (Hres msg eq_refl)].
Qed.

Lemma closed_waiting_lines k chs lines : forall t,
  Forall (fun l => harmless l = true) lines ->
  closed_waiting k chs t ->
  closed_waiting k chs (transfer_run t (map reply_line lines)).
Proof.
  induction lines as [|l lines IH]; intros t Hall Hcw; [exact Hcw|].
  inversion Hall as [|? ? Hl Hrest]; subst.
  cbn [map transfer_run fold_left]. apply (IH _ Hrest).
  apply closed_waiting_line; assumption.
Qed.

Lemma closed_waiting_at_close t :
  command_invariant t -> outcome t = Pending ->
  closed_waiting (kind t) (chunks t) (transfer_step t DataClose).
Proof.
  intros Hinv Ho. constructor;
    cbn [transfer_step kind chunks finalHandler fallbackTimer outcome
         transferCommand]; try reflexivity; try assumption.
  unfold command_invariant in Hinv.
  destruct (transferCommand t) as [cmd|]; [|exact I].
  destruct Hinv as [Hap Hrej]. split; [exact Hap|].
  intros e He. apply (Hrej e He Ho).
Qed.

Lemma transfer_step_kind t e : kind (transfer_step t e) = kind t.
Proof.
  destruct e as [[line|]| |chunk|message| |]; cbn [transfer_step].
  - destruct (if finalHandler t then _ else _); reflexivity.
  - reflexivity.
  - destruct (commandSent t); [reflexivity|].
    destruct (sendCommand_start _ _ true); reflexivity.
  - destruct (kind t) eqn:Hk; cbn [kind]; congruence.
  - reflexivity.
  - reflexivity.
  - destruct (fallbackTimer t); reflexivity.
Qed.

Lemma transfer_run_kind events : forall t,
  kind (transfer_run t events) = kind t.
Proof.
  induction events as [|e events IH]; intros t; [reflexivity|].
  cbn [transfer_run fold_left].
  change (kind (transfer_run (transfer_step t e) events) = kind t).
  rewrite IH. apply transfer_step_kind.
Qed.

Lemma transfer_open_invariant k path c :
  command_invariant (transfer_open k path c).
Proof. exact I. Qed.

Lemma resolve_settled {A} (p : promise A) v : p <> Pending -> resolve p v = p.
Proof. destruct p; [congruence | reflexivity | reflexivity]. Qed.

Lemma reject_settled_same {A} (p : promise A) e :
  p <> Pending -> reject p e = p.
Proof. destruct p; [congruence | reflexivity | reflexivity]. Qed.

Lemma catch_reject_settled cmd p : p <> Pending -> catch_reject cmd p = p.
Proof.
  intros H. destruct cmd as [[cm ap tm sb [|v|e]]|]; cbn [catch_reject];
    try reflexivity. apply reject_settled_same, H.
Qed.

Lemma finalHandler_run_settled k chs p line :
  p <> Pending -> snd (finalHandler_run k chs p line) = p.
Proof.
  intros H. unfold finalHandler_run.
  destruct (JS.eq _ 226 || JS.eq _ 250); cbn [snd];
    [apply resolve_settled, H|].
  destruct k; cbn [snd]; try reflexivity;
    (destruct (JS.ge _ 400); cbn [snd];
     [apply reject_settled_same, H | reflexivity]).
Qed.

Lemma fallback_run_settled k chs p : p <> Pending -> fallback_run k chs p = p.
Proof.
  intros H. destruct k; cbn [fallback_run]; try apply resolve_settled, H.
  destruct chs; [reflexivity | apply resolve_settled, H].
Qed.

Lemma transfer_step_settled t e :
  outcome t <> Pending -> outcome (transfer_step t e) = outcome t.
Proof.
  intros H. destruct e as [[line|]| |chunk|message| |]; cbn [transfer_step].
  - pose proof (finalHandler_run_settled (kind t) (chunks t) _ line H) as Hf.
    destruct (finalHandler t).
    + destruct (finalHandler_run _ _ _ line) as [listening p].
      cbn [snd] in Hf. subst p. cbn [outcome].
      apply catch_reject_settled, H.
    + cbn [outcome]. apply catch_reject_settled, H.
  - cbn [outcome]. apply catch_reject_settled, H.
  - destruct (commandSent t); [reflexivity|].
    destruct (sendCommand_start _ _ true) as [c cmd]. cbn [outcome].
    apply catch_reject_settled, H.
  - destruct (kind t); reflexivity.
  - cbn [outcome]. apply reject_settled_same, H.
  - reflexivity.
  - destruct (fallbackTimer t); [|reflexivity]. cbn [outcome].
    apply fallback_run_settled, H.
Qed.

Lemma transfer_run_settled events : forall t,
  outcome t <> Pending -> outcome (transfer_run t events) = outcome t.
Proof.
  induction events as [|e events IH]; intros t H; [reflexivity|].
  cbn [transfer_run fold_left].
  change (outcome (transfer_run (transfer_step t e) events) = outcome t).
  rewrite <- (transfer_step_settled t e H).
  apply IH. rewrite (transfer_step_settled t e H). exact H.
Qed.

(** The state in which the lines between the close of the data socket
    and the next settling event leave a transfer. *)
Lemma closed_waiting_after k path c before lines :
  outcome (transfer_run (transfer_open k path c) before) = Pending ->
  Forall (fun l => harmless l = true) lines ->
  closed_waiting k (chunks (transfer_run (transfer_open k path c) before))
    (transfer_run (transfer_open k path c)
       (before ++ DataClose :: map reply_line lines)).
Proof.
  intros Hpending Hlines.
  set (t := transfer_run (transfer_open k path c) before) in *.
  assert (Hinv : command_invariant t)
    by apply transfer_run_invariant, transfer_open_invariant.
  assert (Hk : kind t = k) by apply transfer_run_kind.
  rewrite transfer_run_app. fold t.
  change (DataClose :: map reply_line lines)
    with ([DataClose] ++ map reply_line lines)%list.
  rewrite transfer_run_app.
  change (transfer_run t [DataClose]) with (transfer_step t DataClose).
  rewrite <- Hk at 1.
  apply closed_waiting_lines; [exact Hlines|].
  apply closed_waiting_at_close; assumption.
Qed.

Lemma transfer_run_snoc t events e :
  transfer_run t (events ++ [e]) = transfer_step (transfer_run t events) e.
Proof. rewrite transfer_run_app. reflexivity. Qed.

Lemma catch_reject_resolved cmd (v : payload) :
  catch_reject cmd (Resolved v) = Resolved v.
Proof. apply catch_reject_settled. discriminate. Qed.

Lemma catch_reject_rejected cmd e :
  catch_reject cmd (Rejected e) = Rejected e.
Proof. apply catch_reject_settled. discriminate. Qed.

Lemma resolve_not_pending {A} (p : promise A) v : resolve p v <> Pending.
Proof. destruct p; discriminate. Qed.

(** After the close, an event other than the timer leaves [finalHandler]
    subscribed and the timer armed, unless it settles the transfer. *)
Lemma transfer_step_listening t e :
  e <> Fallback ->
  finalHandler t = true -> fallbackTimer t = true ->
  outcome (transfer_step t e) = Pending ->
  finalHandler (transfer_step t e) = true
  /\ fallbackTimer (transfer_step t e) = true.
Proof.
  intros He Hf Ht. destruct e as [[line|]| |chunk|message| |];
    cbn [transfer_step].
  - rewrite Hf. unfold finalHandler_run.
    destruct (JS.eq _ 226 || JS.eq _ 250).
    + cbn [outcome]. intros Ho.
      rewrite catch_reject_settled in Ho by apply resolve_not_pending.
      destruct (resolve_not_pending _ _ Ho).
    + destruct (kind t); cbn [finalHandler fallbackTimer outcome];
        try (intros _; split; [reflexivity | exact Ht]);
        (destruct (JS.ge _ 400); cbn [finalHandler fallbackTimer outcome];
         [|intros _; split; [reflexivity | exact Ht]]);
        intros Ho; rewrite catch_reject_settled in Ho by apply reject_settled;
        destruct (reject_settled _ _ Ho).
  - intros _. split; assumption.
  - destruct (commandSent t); [intros _; split; assumption|].
    destruct (sendCommand_start _ _ true). intros _. split; assumption.
  - destruct (kind t); intros _; split; assumption.
  - intros _. split; assumption.
  - intros _. split; reflexivity.
  - congruence.
Qed.

Lemma transfer_run_listening window : forall t,
  ~ In Fallback window ->
  finalHandler t = true -> fallbackTimer t = true ->
  outcome (transfer_run t window) = Pending ->
  finalHandler (transfer_run t window) = true
  /\ fallbackTimer (transfer_run t window) = true.
Proof.
  induction window as [|e window IH]; intros t Hnot Hf Ht Ho;
    [split; assumption|].
  cbn [transfer_run fold_left] in *.
  change (fold_left transfer_step window (transfer_step t e))
    with (transfer_run (transfer_step t e) window) in *.
  assert (Hstep : outcome (transfer_step t e) = Pending).
  { destruct (outcome (transfer_step t e)) eqn:Hs; [reflexivity| |];
      rewrite transfer_run_settled in Ho by (rewrite Hs; discriminate);
      rewrite Hs in Ho; discriminate Ho. }
  assert (He : e <> Fallback) by (intros ->; apply Hnot; left; reflexivity).
  destruct (transfer_step_listening t e He Hf Ht Hstep) as [Hf' Ht'].
  apply IH; try assumption. intros Hin. apply Hnot. right. exact Hin.
Qed.

(** The state of a transfer that is still pending some time after the
    close of its data socket, the timer not having fired. *)
Lemma pending_after_close k path c before window :
  ~ In Fallback window ->
  outcome (transfer_run (transfer_open k path c) (before ++ DataClose :: window))
  = Pending ->
  finalHandler
    (transfer_run (transfer_open k path c) (before ++ DataClose :: window))
  = true
  /\ fallbackTimer
       (transfer_run (transfer_open k path c) (before ++ DataClose :: window))
     = true
  /\ kind (transfer_run (transfer_open k path c) (before ++ DataClose :: window))
     = k.
Proof.
  intros Hnot Ho. rewrite transfer_run_kind.
  rewrite transfer_run_app in *. cbn [transfer_run fold_left] in *.
  change (fold_left transfer_step window ?t) with (transfer_run t window) in *.
  destruct (transfer_run_listening window
              (transfer_step (transfer_run (transfer_open k path c) before)
                 DataClose) Hnot eq_refl eq_refl Ho) as [Hf Ht].
  split; [exact Hf|]. split; [exact Ht | reflexivity].
Qed.

(** C2 as stated fails: the data socket of an upload closes, no reply
    line arrives at all, and the transfer is not resolved but rejected,
    because the timer of the STOR command, whose rejection is handed to
    [reject], runs out before the fallback delay does. *)
Lemma upload_command_timeout_before_fallback :
  upload "hello" "/f.txt"
    (online new_client,
     [Response "227 Entering Passive Mode (127,0,0,1,200,50)."])
    [DataConnect; DataClose; Control Deadline; Fallback]
  = Rejected "Command timeout: STOR /f.txt".
Proof. reflexivity. Qed.

(** C2, amended.  Take an upload, a list, or a download that has
    received at least one chunk, and any events [window] that follow the
    close of the data socket before the fallback timer fires.  If the
    transfer is still pending when the timer fires, the timer resolves
    it: an upload with no value, a download with the bytes received, a
    list with the text received.  It is still pending then if it was
    pending at the close and only reply lines have arrived since, none
    of them a qualifying terminal reply (226, 250, a code of at least
    400) nor a final reply with a code below 100 or no code at all.  If
    something has settled it in the meantime, the timer changes
    nothing. *)
Theorem transfer_fallback :
  forall k path c before window,
    ~ In Fallback window ->
    (k = Download ->
     chunks (transfer_run (transfer_open k path c)
               (before ++ DataClose :: window)) <> []) ->
    (outcome (transfer_run (transfer_open k path c)
                (before ++ DataClose :: window)) = Pending ->
     outcome (transfer_run (transfer_open k path c)
                (before ++ DataClose :: window ++ [Fallback]))
     = Resolved
         (resolution k
            (chunks (transfer_run (transfer_open k path c)
                       (before ++ DataClose :: window)))))
    /\ (outcome (transfer_run (transfer_open k path c) before) = Pending ->
        (exists lines, window = map reply_line lines
                       /\ Forall (fun l => harmless l = true) lines) ->
        outcome (transfer_run (transfer_open k path c)
                   (before ++ DataClose :: window)) = Pending)
    /\ (outcome (transfer_run (transfer_open k path c)
                   (before ++ DataClose :: window)) <> Pending ->
        outcome (transfer_run (transfer_open k path c)
                   (before ++ DataClose :: window ++ [Fallback]))
        = outcome (transfer_run (transfer_open k path c)
                     (before ++ DataClose :: window))).
Proof.
  intros k path c before window Hnot Hdata.
  assert (Hsnoc : (before ++ DataClose :: window ++ [Fallback]
                   = (before ++ DataClose :: window) ++ [Fallback])%list)
    by (rewrite <- app_assoc; reflexivity).
  split; [|split].
  - intros Ho.
    destruct (pending_after_close k path c before window Hnot Ho)
      as [_ [Ht Hk]].
    rewrite Hsnoc, transfer_run_snoc.
    set (t := transfer_run (transfer_open k path c)
                (before ++ DataClose :: window)) in *.
    cbn [transfer_step]. rewrite Ht. cbn [outcome]. rewrite Ho, Hk.
    destruct k as [data| |]; try reflexivity.
    cbn [fallback_run]. destruct (chunks t) eqn:Hc; [|reflexivity].
    destruct (Hdata eq_refl eq_refl).
  - intros Ho [lines [-> Hlines]].
    exact (cw_outcome _ _ _ (closed_waiting_after k path c before lines Ho Hlines)).
  - intros Ho. rewrite Hsnoc, transfer_run_app. apply transfer_run_settled, Ho.
Qed.

(** An upload of five bytes whose 226 never comes is reported as done,
    and so is a download that has received its bytes. *)
Lemma transfer_fallback_witness :
  outcome
    (transfer_run (transfer_open (Upload "hello") "/f.txt" (online new_client))
       ([DataConnect; reply_line "150 Opening data connection"]
        ++ DataClose :: [] ++ [Fallback]))
  = Resolved NoValue
  /\ outcome
       (transfer_run (transfer_open Download "/f.txt" (online new_client))
          ([DataConnect; reply_line "150 Opening data connection";
            DataChunk "hel"; DataChunk "lo"]
           ++ DataClose :: [reply_line "200 NOOP ok"] ++ [Fallback]))
     = Resolved (Data "hello").
Proof.
  split.
  - refine (proj1 (transfer_fallback (Upload "hello") "/f.txt"
                     (online new_client)
                     [DataConnect; reply_line "150 Opening data connection"] []
                     _ _) eq_refl).
    + intros [].
    + discriminate.
  - refine (proj1 (transfer_fallback Download "/f.txt" (online new_client)
                     [DataConnect; reply_line "150 Opening data connection";
                      DataChunk "hel"; DataChunk "lo"]
                     [reply_line "200 NOOP ok"] _ _) eq_refl).
    + intros [H|[]]. discriminate H.
    + intros _. discriminate.
Defined.

(** With its terminal reply a transfer completes as the specification's
    scenario has it. *)
Lemma upload_scenario :
  upload "hello" "/f.txt"
    (online new_client,
     [Response "227 Entering Passive Mode (127,0,0,1,200,50)."])
    [DataConnect; reply_line "150 Opening data connection"; DataClose;
     reply_line "226 Transfer complete"]
  = Resolved NoValue.
Proof. reflexivity. Qed.


(* ================================================================= *)
(** * Further properties *)

(* ----------------------------------------------------------------- *)
(** ** sendCommand: where its outcomes come from *)

Lemma sendCommand_connected c command allowPreliminary events :
  connected c = true ->
  sendCommand command allowPreliminary (c, events)
  = (result (fst (await_command (waiting command allowPreliminary true) events)),
     (sent c command,
      snd (await_command (waiting command allowPreliminary true) events))).
Proof.
  intros Hc. rewrite sendCommand_result.
  rewrite (sendCommand_run_connected _ _ _ _ Hc). reflexivity.
Qed.

Lemma sendCommand_not_connected c command allowPreliminary events :
  connected c = false ->
  sendCommand command allowPreliminary (c, events)
  = (Rejected "Not connected", (c, events)).
Proof.
  intros Hc. rewrite sendCommand_result.
  rewrite (sendCommand_run_not_connected _ _ _ _ Hc). reflexivity.
Qed.

(** What a wait can end with, and on which event. *)
Lemma await_command_outcome command allowPreliminary events : forall armed,
  match result (fst (await_command (waiting command allowPreliminary armed) events)) with
  | Pending =>
      snd (await_command (waiting command allowPreliminary armed) events) = []
  | Resolved reply =>
      exists line, In (Response line) events /\ is_final line = true
                   /\ is_success line = true /\ reply = reply_of line
  | Rejected e =>
      (armed = true /\ In Deadline events
       /\ e = "Command timeout: " ++ maskPassword command)
      \/ exists line, In (Response line) events /\ is_final line = true
                      /\ is_success line = false /\ e = error_of line
  end.
Proof.
  induction events as [|ev events IH]; intros armed; [reflexivity|].
  rewrite await_pending by reflexivity.
  destruct ev as [line|].
  - destruct (waiting_line allowPreliminary line) eqn:Hw.
    + rewrite (deliver_waiting_line _ _ armed line Hw).
      specialize (IH false).
      destruct (result (fst (await_command _ events))) as [|reply|e].
      * exact IH.
      * destruct IH as [l [Hin H]]. exists l. split; [right; exact Hin | exact H].
      * destruct IH as [[Habs _]|[l [Hin H]]]; [discriminate Habs|].
        right. exists l. split; [right; exact Hin | exact H].
    + unfold waiting_line in Hw. apply orb_false_iff in Hw.
      destruct Hw as [Hfinal Hprel]. apply negb_false_iff in Hfinal.
      cbn [deliver waiting subscribed].
      fold (waiting command allowPreliminary armed).
      rewrite (responseHandler_final _ _ line armed Hfinal Hprel).
      rewrite await_settled
        by (cbn [result]; destruct (JS.ge _ 200 && JS.lt _ 400); reflexivity).
      cbn [fst result]. fold (is_success line).
      destruct (is_success line) eqn:Hs.
      * exists line. repeat split; try assumption. left. reflexivity.
      * right. exists line. repeat split; try assumption. left. reflexivity.
  - destruct armed.
    + change (deliver (waiting command allowPreliminary true) Deadline)
        with (mkCommand command allowPreliminary false false
                (Rejected ("Command timeout: " ++ maskPassword command))).
      rewrite await_settled by reflexivity. cbn [fst result].
      left. repeat split. left. reflexivity.
    + rewrite deliver_deadline_disarmed. specialize (IH false).
      destruct (result (fst (await_command _ events))) as [|reply|e].
      * exact IH.
      * destruct IH as [l [Hin H]]. exists l. split; [right; exact Hin | exact H].
      * destruct IH as [[Habs _]|[l [Hin H]]]; [discriminate Habs|].
        right. exists l. split; [right; exact Hin | exact H].
Qed.

(** X1.  The outcomes of [sendCommand] and their only causes.  It stays
    pending only on a connected client and with every event consumed; it
    resolves only with the reply made from a final line of the stream
    whose code is in [200,400); it is rejected only with "Not connected"
    (the client being untouched), with the timeout text for the masked
    command after a deadline, or with the error made from a final line
    whose code is not in [200,400).  A connected call always leaves the
    command written and counted. *)
Theorem sendCommand_outcomes :
  forall command allowPreliminary c events,
    match fst (sendCommand command allowPreliminary (c, events)) with
    | Pending =>
        connected c = true
        /\ snd (sendCommand command allowPreliminary (c, events))
           = (sent c command, [])
    | Resolved reply =>
        client_after (sendCommand command allowPreliminary (c, events))
        = sent c command
        /\ exists line, In (Response line) events /\ is_final line = true
                        /\ is_success line = true /\ reply = reply_of line
    | Rejected e =>
        (connected c = false /\ e = "Not connected"
         /\ snd (sendCommand command allowPreliminary (c, events)) = (c, events))
        \/ (client_after (sendCommand command allowPreliminary (c, events))
            = sent c command
            /\ ((In Deadline events
                 /\ e = "Command timeout: " ++ maskPassword command)
                \/ exists line, In (Response line) events
                                /\ is_final line = true
                                /\ is_success line = false
                                /\ e = error_of line))
    end.
Proof.
  intros command ap c events. destruct (connected c) eqn:Hc.
  - rewrite (sendCommand_connected _ _ _ _ Hc). unfold client_after.
    cbn [fst snd].
    pose proof (await_command_outcome command ap events true) as H.
    destruct (result (fst (await_command _ events))) as [|reply|e].
    + split; [reflexivity|]. rewrite H. reflexivity.
    + split; [reflexivity | exact H].
    + right. split; [reflexivity|].
      destruct H as [[_ [Hin He]]|H]; [left; split; assumption | right; exact H].
  - rewrite (sendCommand_not_connected _ _ _ _ Hc). cbn [fst snd].
    left. repeat split.
Qed.

Lemma prefix_append p s : String.prefix p (p ++ s) = true.
Proof.
  induction p as [|c p IH]; [destruct s; reflexivity|].
  cbn [append String.prefix].
  destruct (Ascii.ascii_dec c c) as [_|n]; [exact IH | destruct (n eq_refl)].
Qed.

Lemma maskPassword_PASS password :
  maskPassword ("PASS " ++ password) = "PASS ********".
Proof.
  unfold maskPassword, JS.startsWith. rewrite prefix_append. reflexivity.
Qed.

(** X2.  No error of a PASS command shows the password: a rejected
    [sendCommand("PASS " + password)] carries "Not connected", the fixed
    text "Command timeout: PASS ********", or the error made from a line
    that the server sent. *)
Theorem sendCommand_PASS_errors :
  forall password allowPreliminary c events e w',
    sendCommand ("PASS " ++ password) allowPreliminary (c, events)
    = (Rejected e, w') ->
    e = "Not connected"
    \/ e = "Command timeout: PASS ********"
    \/ exists line, In (Response line) events /\ e = error_of line.
Proof.
  intros password ap c events e w' H.
  pose proof (maskPassword_PASS password) as Hmask.
  set (cmd := "PASS " ++ password) in *.
  destruct (connected c) eqn:Hc.
  - rewrite (sendCommand_connected _ _ _ _ Hc) in H.
    pose proof (await_command_outcome cmd ap events true) as Ho.
    injection H as Hres _. rewrite Hres in Ho.
    destruct Ho as [[_ [_ He]]|[line [Hin [_ [_ He]]]]].
    + right. left. rewrite He, Hmask. reflexivity.
    + right. right. exists line. split; assumption.
  - rewrite (sendCommand_not_connected _ _ _ _ Hc) in H.
    injection H as <- _. left. reflexivity.
Qed.

Lemma sendCommand_PASS_errors_witness :
  "Command timeout: PASS ********" = "Not connected"
  \/ "Command timeout: PASS ********" = "Command timeout: PASS ********"
  \/ exists line,
       In (Response line) [Deadline; Response "230 Logged in"]
       /\ "Command timeout: PASS ********" = error_of line.
Proof.
  apply (sendCommand_PASS_errors "hunter2" false (online new_client)
           [Deadline; Response "230 Logged in"]
           "Command timeout: PASS ********"
           (sent (online new_client) "PASS hunter2",
            [Response "230 Logged in"])).
  reflexivity.
Defined.

(* ----------------------------------------------------------------- *)
(** ** Login, logout and rename: sequences of commands *)

(** A command that does not allow preliminary replies ends on the first
    final line. *)
Lemma sendCommand_on_final c command line rest :
  connected c = true ->
  is_final line = true ->
  sendCommand command false (c, Response line :: rest)
  = (if is_success line then Resolved (reply_of line)
     else Rejected (error_of line),
     (sent c command, rest)).
Proof.
  intros Hc Hfinal. rewrite (sendCommand_connected _ _ _ _ Hc).
  rewrite await_pending by reflexivity.
  cbn [deliver waiting subscribed]. fold (waiting command false true).
  rewrite (responseHandler_final _ _ line true Hfinal (andb_false_r _)).
  fold (is_success line) (reply_of line) (error_of line).
  rewrite await_settled by (cbn [result]; destruct (is_success line); reflexivity).
  cbn [fst snd result]. destruct (is_success line); reflexivity.
Qed.

(** X3.  The login exchange on a connected client, the first two final
    lines being [l1] and [l2].  If both codes are in [200,400) the
    exchange resolves with [authenticated] set, USER and PASS written in
    this order (PASS with the password, which is also what
    [_lastCommand] keeps).  If [l1] has another code, the exchange is
    rejected with its error and PASS is never sent.  If only [l2] has
    another code, the exchange is rejected with the error of [l2].  In
    both failures [authenticated] is left as it was. *)
Theorem authenticate_outcome :
  forall user password c l1 l2 rest,
    connected c = true ->
    is_final l1 = true ->
    is_final l2 = true ->
    authenticate user password (c, Response l1 :: Response l2 :: rest)
    = if is_success l1 then
        if is_success l2 then
          (Resolved tt,
           (set_authenticated
              (sent (sent c ("USER " ++ user)) ("PASS " ++ password)) true,
            rest))
        else
          (Rejected (error_of l2),
           (sent (sent c ("USER " ++ user)) ("PASS " ++ password), rest))
      else
        (Rejected (error_of l1),
         (sent c ("USER " ++ user), Response l2 :: rest)).
Proof.
  intros user password c l1 l2 rest Hc H1 H2.
  unfold authenticate. unfold bind at 1.
  rewrite (sendCommand_on_final _ _ _ _ Hc H1).
  destruct (is_success l1); [|reflexivity].
  unfold bind.
  rewrite (sendCommand_on_final (sent c ("USER " ++ user)) _ _ _ Hc H2).
  destruct (is_success l2); reflexivity.
Qed.

Lemma authenticate_outcome_witness :
  authenticate "alice" "hunter2"
    (online new_client,
     [Response "331 Password required"; Response "230 Logged in"])
  = (Resolved tt,
     ({| socket := ["USER alice" ++ JS.CRLF; "PASS hunter2" ++ JS.CRLF];
         buffer := ""; connected := true; authenticated := true;
         timeout := 30000; _commandCount := 2;
         _lastCommand := Some "PASS hunter2" |}, [])).
Proof.
  apply (authenticate_outcome "alice" "hunter2" (online new_client)
           "331 Password required" "230 Logged in" []); reflexivity.
Defined.

Lemma close_by_quit w :
  close w
  = if connected (fst w) then
      match sendCommand "QUIT" false w with
      | (Pending, w') => (Pending, w')
      | (_, w') => (Resolved tt, (disconnected (fst w'), snd w'))
      end
    else (Resolved tt, w).
Proof.
  unfold close. destruct (connected (fst w)); [|reflexivity].
  unfold bind, try_catch, ret.
  destruct (sendCommand "QUIT" false w) as [[|reply|e] w']; reflexivity.
Qed.

(** X4.  [close()] is never rejected, whatever happens to its QUIT.
    When it resolves, the client is neither connected nor authenticated
    if it was connected before, QUIT is the one command it has written,
    and closing again resolves at once and changes nothing. *)
Theorem close_outcome :
  forall w,
    (forall e, fst (close w) <> Rejected e)
    /\ (forall w',
          close w = (Resolved tt, w') ->
          connected (fst w') = false
          /\ close w' = (Resolved tt, w')
          /\ (connected (fst w) = true ->
              authenticated (fst w') = false
              /\ socket (fst w')
                 = (socket (fst w) ++ [("QUIT" ++ JS.CRLF)%string])%list)
          /\ (connected (fst w) = false -> w' = w)).
Proof.
  intros [c events]. rewrite close_by_quit. cbn [fst]. split.
  - intros e. destruct (connected c); [|discriminate].
    destruct (sendCommand "QUIT" false (c, events)) as [[|reply|e'] w'];
      discriminate.
  - intros w' H. destruct (connected c) eqn:Hc.
    + rewrite (sendCommand_connected _ _ _ _ Hc) in H.
      assert (Hw' : w' = (disconnected (sent c "QUIT"),
                          snd (await_command (waiting "QUIT" false true) events))).
      { destruct (result (fst (await_command _ events)));
          [discriminate H | |]; injection H as <-; reflexivity. }
      subst w'. cbn [fst].
      split; [reflexivity|]. split; [reflexivity|].
      split; [intros _; split; reflexivity | discriminate].
    + injection H as <-. cbn [fst].
      split; [exact Hc|]. split.
      * rewrite close_by_quit. cbn [fst]. rewrite Hc. reflexivity.
      * split; [congruence | reflexivity].
Qed.

Lemma close_outcome_witness :
  close (set_authenticated (online new_client) true,
         [Response "221 Goodbye"])
  = (Resolved tt,
     ({| socket := ["QUIT" ++ JS.CRLF]; buffer := "";
         connected := false; authenticated := false; timeout := 30000;
         _commandCount := 1; _lastCommand := Some "QUIT" |}, []))
  /\ close
       ({| socket := ["QUIT" ++ JS.CRLF]; buffer := "";
           connected := false; authenticated := false; timeout := 30000;
           _commandCount := 1; _lastCommand := Some "QUIT" |}, [])
     = (Resolved tt,
        ({| socket := ["QUIT" ++ JS.CRLF]; buffer := "";
            connected := false; authenticated := false; timeout := 30000;
            _commandCount := 1; _lastCommand := Some "QUIT" |}, [])).
Proof.
  assert (H : close (set_authenticated (online new_client) true,
                     [Response "221 Goodbye"])
              = (Resolved tt,
                 ({| socket := ["QUIT" ++ JS.CRLF]; buffer := "";
                     connected := false; authenticated := false;
                     timeout := 30000; _commandCount := 1;
                     _lastCommand := Some "QUIT" |}, []))) by reflexivity.
  split; [exact H|].
  exact (proj1 (proj2 (proj2 (close_outcome _) _ H))).
Defined.

(** X5.  [rename(from, to)] on a connected client, the first two final
    lines being [l1] and [l2].  If the code of [l1] is not in [200,400),
    the call is rejected with its error and RNTO is never sent.
    Otherwise RNTO is sent, and the call resolves or is rejected with
    [l2]. *)
Theorem rename_outcome :
  forall from to c l1 l2 rest,
    connected c = true ->
    is_final l1 = true ->
    is_final l2 = true ->
    rename from to (c, Response l1 :: Response l2 :: rest)
    = if is_success l1 then
        (if is_success l2 then Resolved tt else Rejected (error_of l2),
         (sent (sent c ("RNFR " ++ from)) ("RNTO " ++ to), rest))
      else
        (Rejected (error_of l1),
         (sent c ("RNFR " ++ from), Response l2 :: rest)).
Proof.
  intros from to c l1 l2 rest Hc H1 H2.
  unfold rename. unfold bind at 1.
  rewrite (sendCommand_on_final _ _ _ _ Hc H1).
  destruct (is_success l1); [|reflexivity].
  unfold bind, ret.
  rewrite (sendCommand_on_final (sent c ("RNFR " ++ from)) _ _ _ Hc H2).
  destruct (is_success l2); reflexivity.
Qed.

Lemma rename_outcome_witness :
  rename "/a.txt" "/b.txt"
    (online new_client,
     [Response "550 /a.txt: No such file"; Response "503 Bad sequence"])
  = (Rejected "FTP Error 550: /a.txt: No such file",
     ({| socket := ["RNFR /a.txt" ++ JS.CRLF]; buffer := "";
         connected := true; authenticated := false; timeout := 30000;
         _commandCount := 1; _lastCommand := Some "RNFR /a.txt" |},
      [Response "503 Bad sequence"])).
Proof.
  apply (rename_outcome "/a.txt" "/b.txt" (online new_client)
           "550 /a.txt: No such file" "503 Bad sequence" []); reflexivity.
Defined.

(* ----------------------------------------------------------------- *)
(** ** pwd and size: reading a reply *)

Lemma has_line_terminator_cons c s :
  has_line_terminator (String c s) = false ->
  is_line_terminator c = false /\ has_line_terminator s = false.
Proof.
  unfold has_line_terminator, is_line_terminator. cbn [has_char].
  intros H. apply orb_false_iff in H. destruct H as [H1 H2].
  apply orb_false_iff in H1, H2. destruct H1 as [-> ->], H2 as [-> ->].
  split; reflexivity.
Qed.

Lemma dot_run_quoted body : forall post,
  has_line_terminator body = false ->
  dot_run (body ++ String quote post) = body ++ String quote (dot_run post).
Proof.
  induction body as [|c body IH]; intros post H; [reflexivity|].
  apply has_line_terminator_cons in H. destruct H as [Hc Hbody].
  cbn [append dot_run]. rewrite Hc, (IH post Hbody). reflexivity.
Qed.

Lemma dot_run_no_quote s :
  has_char quote s = false -> has_char quote (dot_run s) = false.
Proof.
  induction s as [|c s IH]; [reflexivity|]. cbn [has_char dot_run].
  intros H. apply orb_false_iff in H. destruct H as [Hc Hs].
  destruct (is_line_terminator c); [reflexivity|].
  cbn [has_char]. rewrite Hc, (IH Hs). reflexivity.
Qed.

Lemma before_last_quote_none s :
  has_char quote s = false -> before_last_quote s = None.
Proof.
  induction s as [|c s IH]; [reflexivity|]. cbn [has_char before_last_quote].
  intros H. apply orb_false_iff in H. destruct H as [Hc Hs].
  rewrite (IH Hs), Hc. reflexivity.
Qed.

Lemma before_last_quote_closing body : forall rest,
  has_char quote rest = false ->
  before_last_quote (body ++ String quote rest) = Some body.
Proof.
  induction body as [|c body IH]; intros rest H.
  - cbn [append before_last_quote]. rewrite (before_last_quote_none _ H).
    reflexivity.
  - cbn [append before_last_quote]. rewrite (IH rest H). reflexivity.
Qed.

Lemma pwd_match_none s : has_char quote s = false -> pwd_match s = None.
Proof.
  induction s as [|c s IH]; [reflexivity|]. cbn [has_char pwd_match].
  intros H. apply orb_false_iff in H. destruct H as [Hc Hs].
  rewrite Hc. exact (IH Hs).
Qed.

Lemma pwd_match_skip pre : forall s,
  has_char quote pre = false -> pwd_match (pre ++ s) = pwd_match s.
Proof.
  induction pre as [|c pre IH]; intros s H; [reflexivity|].
  cbn [has_char] in H. apply orb_false_iff in H. destruct H as [Hc Hpre].
  cbn [append pwd_match]. rewrite Hc. exact (IH s Hpre).
Qed.

Lemma pwd_match_quoted pre body post :
  has_char quote pre = false ->
  has_char quote post = false ->
  body <> "" ->
  has_line_terminator body = false ->
  pwd_match (pre ++ String quote (body ++ String quote post)) = Some body.
Proof.
  intros Hpre Hpost Hne Hbody. rewrite (pwd_match_skip pre _ Hpre).
  cbn [pwd_match]. rewrite Ascii.eqb_refl. unfold quoted_here.
  rewrite (dot_run_quoted body post Hbody).
  rewrite (before_last_quote_closing body _ (dot_run_no_quote _ Hpost)).
  destruct body; [congruence | reflexivity].
Qed.

Lemma pwd_by_match w :
  pwd w
  = match sendCommand "PWD" false w with
    | (Resolved response, w') =>
        (Resolved match pwd_match (message response) with
                  | Some body => body
                  | None => "/"
                  end, w')
    | (Pending, w') => (Pending, w')
    | (Rejected e, w') => (Rejected e, w')
    end.
Proof.
  unfold pwd, bind, ret.
  destruct (sendCommand "PWD" false w) as [[|response|e] w']; reflexivity.
Qed.

(** X6.  When the PWD command resolves, [pwd()] resolves too: with the
    text between the two double quotes when the reply has one quoted,
    non-empty text that holds no line break (the text may itself hold
    quotes, which are returned as they are), and with "/" when the reply
    holds no double quote at all. *)
Theorem pwd_reads_quoted_path :
  forall w response w',
    sendCommand "PWD" false w = (Resolved response, w') ->
    (forall pre body post,
        message response = pre ++ String quote (body ++ String quote post) ->
        has_char quote pre = false ->
        has_char quote post = false ->
        body <> "" ->
        has_line_terminator body = false ->
        pwd w = (Resolved body, w'))
    /\ (has_char quote (message response) = false ->
        pwd w = (Resolved "/", w')).
Proof.
  intros w response w' Hsend. rewrite pwd_by_match, Hsend. split.
  - intros pre body post Hmsg Hpre Hpost Hne Hbody.
    rewrite Hmsg, (pwd_match_quoted pre body post Hpre Hpost Hne Hbody).
    reflexivity.
  - intros Hnone. rewrite (pwd_match_none _ Hnone). reflexivity.
Qed.

Lemma pwd_reads_quoted_path_witness :
  pwd (online new_client,
       [Response ("257 " ++ String quote ("/home/user" ++ String quote
                  " is the current directory"))])
  = (Resolved "/home/user",
     ({| socket := ["PWD" ++ JS.CRLF]; buffer := "";
         connected := true; authenticated := false; timeout := 30000;
         _commandCount := 1; _lastCommand := Some "PWD" |}, [])).
Proof.
  apply (proj1 (pwd_reads_quoted_path
                  (online new_client,
                   [Response ("257 " ++ String quote ("/home/user" ++ String quote
                              " is the current directory"))])
                  (reply_of ("257 " ++ String quote ("/home/user" ++ String quote
                              " is the current directory")))
                  _ eq_refl)
           "" "/home/user" " is the current directory");
    try reflexivity. discriminate.
Defined.

Lemma digit_val_not_digit c : JS.is_digit c = false -> JS.digit_val 10 c = None.
Proof.
  intros H. unfold JS.digit_val.
  destruct ((48 <=? Z.of_nat (nat_of_ascii c))
            && (Z.of_nat (nat_of_ascii c) <=? 57)) eqn:E; [|reflexivity].
  apply andb_true_iff in E. destruct E as [E1 E2].
  apply Z.leb_le in E1, E2.
  assert (Hd : JS.is_digit c = true) by (apply is_digit_range; lia).
  congruence.
Qed.

(** Without a number at its head a text gives [NaN]. *)
Lemma parseInt_no_number c rest :
  JS.is_digit c = false -> JS.is_white c = false ->
  Ascii.eqb c "-" = false -> Ascii.eqb c "+" = false ->
  JS.parseInt (String c rest) = JS.NaN.
Proof.
  intros Hd Hw Hm Hp. unfold JS.parseInt. cbn [JS.skip_white].
  rewrite Hw, Hm, Hp.
  assert (H0 : Ascii.eqb c "0" = false).
  { destruct (Ascii.eqb_spec c "0") as [->|]; [discriminate Hd | reflexivity]. }
  assert (Hradix :
            match String c rest with
            | String c0 (String d r0) =>
                if Ascii.eqb c0 "0" && (Ascii.eqb d "x" || Ascii.eqb d "X")
                then (16, r0) else (10, String c rest)
            | _ => (10, String c rest)
            end = (10, String c rest)).
  { destruct rest as [|d r']; [reflexivity|]. rewrite H0. reflexivity. }
  rewrite Hradix. cbn [JS.parse_digits]. rewrite (digit_val_not_digit c Hd).
  reflexivity.
Qed.

(** X7.  When the SIZE command resolves, [size(path)] resolves.  When
    the reply text is a group of decimal digits, it resolves with the
    double nearest to the number that the text denotes, which is that
    number itself as long as it is at most [2^53].  When the text is
    empty or starts with a character that is neither a digit, a sign
    nor white space, it resolves with [NaN], not with an error. *)
Theorem size_reads_decimal :
  forall path w response w',
    sendCommand ("SIZE " ++ path) false w = (Resolved response, w') ->
    (digit_group (message response) = true ->
     size path w = (Resolved (JS.double (decimal (message response))), w')
     /\ (decimal (message response) <= JS.two_53 ->
         size path w = (Resolved (JS.Num (decimal (message response))), w')))
    /\ (message response = "" -> size path w = (Resolved JS.NaN, w'))
    /\ (forall c rest,
          message response = String c rest ->
          JS.is_digit c = false -> JS.is_white c = false ->
          Ascii.eqb c "-" = false -> Ascii.eqb c "+" = false ->
          size path w = (Resolved JS.NaN, w')).
Proof.
  intros path w response w' Hsend.
  unfold size, bind, ret. rewrite Hsend. split; [|split].
  - intros Hdigits. rewrite (parseInt_digit_group _ Hdigits).
    split; [reflexivity|]. intros Hbound.
    unfold digit_group in Hdigits. apply andb_true_iff in Hdigits.
    pose proof (decimal_bound _ (proj2 Hdigits)) as Hb.
    rewrite double_exact by lia. reflexivity.
  - intros ->. reflexivity.
  - intros c rest -> Hd Hw Hm Hp.
    rewrite (parseInt_no_number c rest Hd Hw Hm Hp). reflexivity.
Qed.

Lemma size_reads_decimal_witness :
  size "/f.txt" (online new_client, [Response "213 1048576"])
  = (Resolved (JS.Num 1048576),
     ({| socket := ["SIZE /f.txt" ++ JS.CRLF]; buffer := "";
         connected := true; authenticated := false; timeout := 30000;
         _commandCount := 1; _lastCommand := Some "SIZE /f.txt" |}, [])).
Proof.
  refine (proj2 (proj1 (size_reads_decimal "/f.txt"
                          (online new_client, [Response "213 1048576"])
                          (reply_of "213 1048576") _ eq_refl) eq_refl) _).
  now vm_compute.
Defined.

(* ----------------------------------------------------------------- *)
(** ** modifiedTime: the timestamp of an MDTM reply *)

Lemma substring_append_exact a : forall b,
  String.substring 0 (String.length a) (a ++ b) = a.
Proof.
  induction a as [|c a IH]; intros b.
  - destruct b; reflexivity.
  - cbn [String.length append String.substring]. rewrite IH. reflexivity.
Qed.

Lemma substring_then_rest s : forall n,
  s = String.substring 0 n s ++ JS.substring_from s n.
Proof.
  induction s as [|c s IH]; intros [|n]; try reflexivity.
  cbn [String.substring JS.substring_from append]. rewrite <- IH. reflexivity.
Qed.

Lemma all_digits_substring s : forall n m,
  all_digits s = true -> all_digits (String.substring n m s) = true.
Proof.
  induction s as [|c s IH]; intros n m H.
  - destruct n, m; reflexivity.
  - cbn [all_digits] in H. apply andb_true_iff in H. destruct H as [Hc Hs].
    destruct n as [|n]; [destruct m as [|m]|]; cbn [String.substring].
    + reflexivity.
    + cbn [all_digits]. rewrite Hc, (IH 0%nat m Hs). reflexivity.
    + exact (IH n m Hs).
Qed.

Lemma substring_length_exact s : forall n m,
  (n + m <= String.length s)%nat ->
  String.length (String.substring n m s) = m.
Proof.
  induction s as [|c s IH]; intros n m H; cbn [String.length] in H.
  - assert (n = 0%nat) by lia. assert (m = 0%nat) by lia. subst. reflexivity.
  - destruct n as [|n]; [destruct m as [|m]|]; cbn [String.substring].
    + reflexivity.
    + cbn [String.length]. rewrite (IH 0%nat m) by lia. reflexivity.
    + apply IH. lia.
Qed.

(** Inside fourteen digits, [parseInt] of a part is the number there. *)
Lemma parseInt_field ds start stop :
  String.length ds = 14%nat -> all_digits ds = true ->
  (start < stop <= 14)%nat ->
  JS.parseInt (JS.substring ds start stop) = JS.Num (field ds start stop).
Proof.
  intros Hlen Hds Hrange. unfold field.
  pose proof (substring_length_exact ds start (stop - start)) as Hl.
  apply parseInt_short_group.
  - unfold digit_group, JS.substring.
    rewrite (all_digits_substring ds start (stop - start) Hds), andb_true_r.
    destruct (String.substring start (stop - start) ds); [|reflexivity].
    cbn [String.length] in Hl. lia.
  - unfold JS.substring. rewrite Hl by lia. lia.
Qed.

(** A part of fourteen digits denotes a number below [10^14]. *)
Lemma field_bound ds start stop :
  String.length ds = 14%nat -> all_digits ds = true ->
  (start < stop <= 14)%nat ->
  0 <= field ds start stop < 100000000000000.
Proof.
  intros Hlen Hds Hrange. unfold field, JS.substring.
  pose proof (substring_length_exact ds start (stop - start)) as Hl.
  pose proof (decimal_bound _ (all_digits_substring ds start (stop - start) Hds))
    as Hb.
  rewrite Hl in Hb by lia.
  assert (Hpow : 10 ^ Z.of_nat (stop - start) <= 10 ^ 14)
    by (apply Z.pow_le_mono_r; lia).
  change (10 ^ 14) with 100000000000000 in Hpow. lia.
Qed.

Lemma mdtm_match_here_complete ds post :
  String.length ds = 14%nat -> all_digits ds = true ->
  mdtm_match_here (ds ++ post) = Some ds.
Proof.
  intros Hlen Hds. unfold mdtm_match_here, JS.substring.
  change (14 - 0)%nat with 14%nat.
  pose proof (substring_append_exact ds post) as Hsub. rewrite Hlen in Hsub.
  rewrite Hsub, Hlen, Hds. reflexivity.
Qed.

Lemma mdtm_match_here_sound s ds :
  mdtm_match_here s = Some ds ->
  String.length ds = 14%nat /\ all_digits ds = true
  /\ exists post, s = ds ++ post.
Proof.
  unfold mdtm_match_here, JS.substring. change (14 - 0)%nat with 14%nat.
  destruct ((String.length (String.substring 0 14 s) =? 14)%nat
            && all_digits (String.substring 0 14 s)) eqn:E; [|discriminate].
  intros H. injection H as <-. apply andb_true_iff in E. destruct E as [El Ed].
  apply Nat.eqb_eq in El. split; [exact El|]. split; [exact Ed|].
  exists (JS.substring_from s 14). apply substring_then_rest.
Qed.

Lemma mdtm_match_unfold s :
  mdtm_match s
  = match mdtm_match_here s with
    | Some ds => Some ds
    | None => match s with "" => None | String _ s' => mdtm_match s' end
    end.
Proof. destruct s; reflexivity. Qed.

Lemma timestamp_at_tail x pre s ds :
  timestamp_at (String x pre) (String x s) ds <-> timestamp_at pre s ds.
Proof.
  unfold timestamp_at.
  split; intros [Hl [Hd [post Hpost]]]; (split; [exact Hl|]);
    (split; [exact Hd|]); exists post.
  - cbn [append] in Hpost. injection Hpost as ->. reflexivity.
  - rewrite Hpost. reflexivity.
Qed.

Lemma timestamp_at_head pre s ds :
  timestamp_at pre s ds ->
  match pre, s with
  | String x _, String y _ => x = y
  | String _ _, "" => False
  | "", _ => True
  end.
Proof.
  intros [_ [_ [post ->]]]. destruct pre as [|x pre]; [exact I|]. reflexivity.
Qed.

Lemma mdtm_match_first pre : forall s ds,
  timestamp_at pre s ds -> first_timestamp pre s -> mdtm_match s = Some ds.
Proof.
  induction pre as [|x pre IH]; intros s ds Hocc Hfirst;
    rewrite mdtm_match_unfold.
  - destruct Hocc as [Hl [Hd [post ->]]]. cbn [append].
    rewrite (mdtm_match_here_complete _ _ Hl Hd). reflexivity.
  - destruct (mdtm_match_here s) as [ds'|] eqn:Hhere.
    + apply mdtm_match_here_sound in Hhere.
      specialize (Hfirst "" ds' Hhere). cbn in Hfirst. lia.
    + pose proof (timestamp_at_head _ _ _ Hocc) as Hhead.
      destruct s as [|y s]; [contradiction|]. subst y.
      apply (proj1 (timestamp_at_tail _ _ _ _)) in Hocc. apply (IH s ds Hocc).
      intros pre' ds' Hocc'.
      apply (proj2 (timestamp_at_tail x _ _ _)) in Hocc'.
      specialize (Hfirst _ _ Hocc'). cbn [String.length] in Hfirst. lia.
Qed.

Lemma mdtm_match_found s : forall ds,
  mdtm_match s = Some ds -> exists pre, timestamp_at pre s ds.
Proof.
  induction s as [|x s IH]; intros ds; rewrite mdtm_match_unfold.
  - cbn. discriminate.
  - destruct (mdtm_match_here (String x s)) as [ds'|] eqn:Hhere.
    + intros H. injection H as ->. exists "".
      exact (mdtm_match_here_sound _ _ Hhere).
    + intros H. destruct (IH ds H) as [pre Hocc].
      exists (String x pre). apply (proj2 (timestamp_at_tail _ _ _ _)), Hocc.
Qed.

Lemma mdtm_time_fields ds :
  String.length ds = 14%nat -> all_digits ds = true ->
  mdtm_time ds
  = Date.UTC (JS.Num (field ds 0 4)) (JS.Num (field ds 4 6 - 1))
      (JS.Num (field ds 6 8)) (JS.Num (field ds 8 10))
      (JS.Num (field ds 10 12)) (JS.Num (field ds 12 14)).
Proof.
  intros Hl Hd. unfold mdtm_time.
  rewrite !(parseInt_field ds _ _ Hl Hd) by lia.
  unfold number_sub. cbn [JS.sub].
  pose proof (field_bound ds 4 6 Hl Hd ltac:(lia)) as Hb.
  rewrite (double_exact (field ds 4 6 - 1)) by (unfold JS.two_53; lia).
  reflexivity.
Qed.

Lemma modifiedTime_by_match path w :
  modifiedTime path w
  = match sendCommand ("MDTM " ++ path) false w with
    | (Resolved response, w') =>
        match mdtm_match (message response) with
        | None => (Rejected "Failed to parse MDTM response", w')
        | Some ds => (Resolved (mdtm_time ds), w')
        end
    | (Pending, w') => (Pending, w')
    | (Rejected e, w') => (Rejected e, w')
    end.
Proof.
  unfold modifiedTime, parseMdtmResponse, bind.
  destruct (sendCommand ("MDTM " ++ path) false w) as [[|response|e] w'];
    try reflexivity.
  destruct (mdtm_match (message response)); reflexivity.
Qed.

(** X8.  When the MDTM command resolves, [modifiedTime(path)] reads the
    first fourteen digits in a row of the reply text as
    YYYYMMDDhhmmss and resolves with [Date.UTC] of the six numbers, the
    month lowered by one; when the text holds no fourteen digits in a
    row it is rejected with "Failed to parse MDTM response". *)
Theorem modifiedTime_reads_timestamp :
  forall path w response w',
    sendCommand ("MDTM " ++ path) false w = (Resolved response, w') ->
    (forall pre ds,
        timestamp_at pre (message response) ds ->
        first_timestamp pre (message response) ->
        modifiedTime path w
        = (Resolved
             (Date.UTC (JS.Num (field ds 0 4)) (JS.Num (field ds 4 6 - 1))
                (JS.Num (field ds 6 8)) (JS.Num (field ds 8 10))
                (JS.Num (field ds 10 12)) (JS.Num (field ds 12 14))),
           w'))
    /\ ((forall pre ds, ~ timestamp_at pre (message response) ds) ->
        modifiedTime path w = (Rejected "Failed to parse MDTM response", w')).
Proof.
  intros path w response w' Hsend. rewrite modifiedTime_by_match, Hsend. split.
  - intros pre ds Hocc Hfirst.
    rewrite (mdtm_match_first pre _ ds Hocc Hfirst).
    destruct Hocc as [Hl [Hd _]]. rewrite (mdtm_time_fields ds Hl Hd).
    reflexivity.
  - intros Hnone. destruct (mdtm_match (message response)) as [ds|] eqn:Hm;
      [|reflexivity].
    destruct (mdtm_match_found _ _ Hm) as [pre Hocc].
    destruct (Hnone pre ds Hocc).
Qed.

(** 2024-01-15T10:30:45Z is 1705314645 seconds after the epoch. *)
Lemma modifiedTime_reads_timestamp_witness :
  modifiedTime "/f.txt" (online new_client, [Response "213 20240115103045"])
  = (Resolved (JS.Num 1705314645000),
     ({| socket := ["MDTM /f.txt" ++ JS.CRLF]; buffer := "";
         connected := true; authenticated := false; timeout := 30000;
         _commandCount := 1; _lastCommand := Some "MDTM /f.txt" |}, [])).
Proof.
  apply (proj1 (modifiedTime_reads_timestamp "/f.txt"
                  (online new_client, [Response "213 20240115103045"])
                  (reply_of "213 20240115103045") _ eq_refl)
           "" "20240115103045").
  - split; [reflexivity|]. split; [reflexivity|]. exists "". reflexivity.
  - intros pre' ds' _. cbn. lia.
Defined.

(* ----------------------------------------------------------------- *)
(** ** Paths *)

Lemma replace_backslashes_clean p :
  has_char backslash (replace_backslashes p) = false.
Proof.
  induction p as [|c p IH]; [reflexivity|].
  cbn [replace_backslashes has_char]. rewrite IH, orb_false_r.
  fold backslash.
  destruct (Ascii.eqb_spec c backslash) as [->|Hne]; [reflexivity|].
  apply Ascii.eqb_neq. exact Hne.
Qed.

Lemma replace_backslashes_fixed p :
  has_char backslash p = false -> replace_backslashes p = p.
Proof.
  induction p as [|c p IH]; [reflexivity|]. cbn [has_char replace_backslashes].
  intros H. apply orb_false_iff in H. destruct H as [Hc Hp].
  fold backslash. rewrite Hc, (IH Hp). reflexivity.
Qed.

Lemma collapse_slashes_keeps_out c p :
  has_char c p = false -> has_char c (collapse_slashes p) = false.
Proof.
  induction p as [|d p IH]; [reflexivity|]. cbn [has_char].
  intros H. apply orb_false_iff in H. destruct H as [Hd Hp].
  cbn [collapse_slashes]. destruct (Ascii.eqb d "/").
  - destruct p as [|e p']; [cbn [has_char]; rewrite Hd; reflexivity|].
    destruct (Ascii.eqb e "/"); [exact (IH Hp)|].
    cbn [has_char]. cbn [has_char] in IH. rewrite Hd. exact (IH Hp).
  - cbn [has_char]. rewrite Hd. exact (IH Hp).
Qed.

Lemma collapse_slashes_head p :
  match collapse_slashes p, p with
  | String c _, String d _ => c = d
  | "", "" => True
  | _, _ => False
  end.
Proof.
  induction p as [|c p IH]; [exact I|]. cbn [collapse_slashes].
  destruct (Ascii.eqb_spec c "/") as [->|Hc].
  - destruct p as [|d p']; [reflexivity|].
    destruct (Ascii.eqb_spec d "/") as [->|Hd]; [|reflexivity].
    destruct (collapse_slashes (String "/" p')); [contradiction | exact IH].
  - reflexivity.
Qed.

Lemma has_double_slash_cons c d s :
  has_double_slash (String c (String d s))
  = (Ascii.eqb c "/" && Ascii.eqb d "/") || has_double_slash (String d s).
Proof. reflexivity. Qed.

Lemma collapse_slashes_cons c p :
  collapse_slashes (String c p)
  = if Ascii.eqb c "/" && at_slash p then collapse_slashes p
    else String c (collapse_slashes p).
Proof.
  cbn [collapse_slashes]. unfold at_slash.
  destruct (Ascii.eqb c "/"); [|reflexivity].
  destruct p as [|d p']; [reflexivity|].
  destruct (Ascii.eqb d "/"); reflexivity.
Qed.

Lemma collapse_slashes_clean p : has_double_slash (collapse_slashes p) = false.
Proof.
  induction p as [|c p IH]; [reflexivity|]. rewrite collapse_slashes_cons.
  pose proof (collapse_slashes_head p) as Hhead.
  destruct (Ascii.eqb c "/" && at_slash p) eqn:Hcp; [exact IH|].
  destruct (collapse_slashes p) as [|e q] eqn:E; [reflexivity|].
  rewrite has_double_slash_cons, IH, orb_false_r.
  destruct p as [|d p']; [contradiction|]. subst e.
  exact Hcp.
Qed.

Lemma collapse_slashes_fixed p :
  has_double_slash p = false -> collapse_slashes p = p.
Proof.
  induction p as [|c p IH]; [reflexivity|]. intros H.
  rewrite collapse_slashes_cons.
  destruct p as [|d p'].
  - rewrite andb_false_r. reflexivity.
  - rewrite has_double_slash_cons in H. apply orb_false_iff in H.
    destruct H as [Hcd Hp]. unfold at_slash. rewrite Hcd, (IH Hp).
    reflexivity.
Qed.

Lemma normalizePath_clean p :
  has_char backslash (normalizePath p) = false
  /\ has_double_slash (normalizePath p) = false.
Proof.
  unfold normalizePath. split.
  - apply collapse_slashes_keeps_out, replace_backslashes_clean.
  - apply collapse_slashes_clean.
Qed.

Lemma normalizePath_fixed p :
  has_char backslash p = false -> has_double_slash p = false ->
  normalizePath p = p.
Proof.
  intros Hb Hs. unfold normalizePath.
  rewrite (replace_backslashes_fixed p Hb). exact (collapse_slashes_fixed p Hs).
Qed.

(** X9.  [normalizePath] gives a path without a backslash and without
    two slashes in a row, never longer than its argument; a path that is
    already of that form is returned as it is, so that normalizing twice
    is normalizing once. *)
Theorem normalizePath_normal_form :
  forall path,
    has_char backslash (normalizePath path) = false
    /\ has_double_slash (normalizePath path) = false
    /\ (String.length (normalizePath path) <= String.length path)%nat
    /\ normalizePath (normalizePath path) = normalizePath path
    /\ (has_char backslash path = false -> has_double_slash path = false ->
        normalizePath path = path).
Proof.
  intros path. destruct (normalizePath_clean path) as [Hb Hs].
  split; [exact Hb|]. split; [exact Hs|].
  split; [apply normalizePath_length|].
  split; [exact (normalizePath_fixed _ Hb Hs) | apply normalizePath_fixed].
Qed.

(** Where the last occurrence of a character is. *)
Lemma lastIndexOf_from_spec c s : forall i found,
  (has_char c s = false /\ JS.lastIndexOf_from s c i found = found)
  \/ exists a b,
       s = a ++ String c b /\ has_char c b = false
       /\ JS.lastIndexOf_from s c i found = i + Z.of_nat (String.length a).
Proof.
  induction s as [|d s IH]; intros i found.
  - left. split; reflexivity.
  - cbn [JS.lastIndexOf_from has_char].
    destruct (IH (i + 1) (if Ascii.eqb d c then i else found))
      as [[Hnone Hres]|[a [b [Hs [Hb Hres]]]]].
    + rewrite Hres. destruct (Ascii.eqb_spec d c) as [->|Hne].
      * right. exists "", s. cbn [append String.length].
        repeat split; [exact Hnone | lia].
      * left. rewrite Hnone. split; reflexivity.
    + right. exists (String d a), b. rewrite Hres, Hs.
      cbn [append String.length]. repeat split; [exact Hb | lia].
Qed.

Lemma lastIndexOf_spec c s :
  (has_char c s = false /\ JS.lastIndexOf s c = -1)
  \/ exists a b,
       s = a ++ String c b /\ has_char c b = false
       /\ JS.lastIndexOf s c = Z.of_nat (String.length a).
Proof.
  unfold JS.lastIndexOf.
  destruct (lastIndexOf_from_spec c s 0 (-1)) as [H|[a [b [Hs [Hb Hres]]]]];
    [left; exact H|].
  right. exists a, b. rewrite Hres. repeat split; assumption.
Qed.

(** X10.  [getParentDir] never returns the empty string.  It returns
    "/" when the normalized path has no slash or only a leading one; in
    every other case the normalized path is the parent, a slash and a
    last component that holds no slash.  The parent that [ensureDir]
    computes for its recursion is the same directory. *)
Theorem getParentDir_splits :
  forall filePath,
    getParentDir filePath <> ""
    /\ (JS.lastIndexOf (normalizePath filePath) "/" <= 0 ->
        getParentDir filePath = "/")
    /\ (0 < JS.lastIndexOf (normalizePath filePath) "/" ->
        exists name,
          normalizePath filePath = getParentDir filePath ++ "/" ++ name
          /\ has_char "/" name = false)
    /\ parentDir_of (normalizePath filePath) = getParentDir filePath.
Proof.
  intros filePath. unfold getParentDir, parentDir_of, or_else, JS.substring.
  rewrite Nat.sub_0_r.
  destruct (lastIndexOf_spec "/" (normalizePath filePath))
    as [[Hnone Hidx]|[a [b [Hs [Hb Hidx]]]]].
  - rewrite Hidx. cbn [Z.leb Z.compare Z.to_nat].
    assert (H0 : forall s, String.substring 0 0 s = "") by (intros [|? ?]; reflexivity).
    rewrite H0. cbn [String.eqb].
    split; [discriminate|]. split; [reflexivity|].
    split; [intros Habs; lia | reflexivity].
  - rewrite Hidx, Hs, Nat2Z.id, substring_append_exact.
    destruct a as [|x a'].
    + cbn [String.length Z.of_nat Z.leb Z.compare String.eqb].
      split; [discriminate|]. split; [reflexivity|].
      split; [intros Habs; lia | reflexivity].
    + assert (Hpos : (Z.of_nat (String.length (String x a')) <=? 0) = false).
      { apply Z.leb_gt. cbn [String.length]. lia. }
      rewrite Hpos. cbn [String.eqb].
      split; [discriminate|]. split.
      * intros Habs. cbn [String.length] in Habs. lia.
      * split; [|reflexivity].
        intros _. exists b. split; [reflexivity | exact Hb].
Qed.

(* ----------------------------------------------------------------- *)
(** ** ensureDir: what every run has in common *)

(** Induction along the recursion of [ensureDir]. *)
Lemma ensureDir_induction
    (P : string -> bool -> World -> promise unit * World -> Prop) :
  (forall dirPath recursive w,
      (negb (parentDir_of (normalizePath dirPath) =? "/")%string = true ->
       forall w', P (parentDir_of (normalizePath dirPath)) true w'
                    (ensureDir (parentDir_of (normalizePath dirPath)) true w')) ->
      P dirPath recursive w (ensureDir_body ensureDir dirPath recursive w)) ->
  forall dirPath recursive w, P dirPath recursive w (ensureDir dirPath recursive w).
Proof.
  intros step dirPath.
  induction dirPath as [dirPath IH] using strong_string_ind.
  intros recursive w. rewrite ensureDir_unfold. apply step.
  intros Hp w'. apply IH.
  pose proof (parentDir_shorter _ Hp). pose proof (normalizePath_length dirPath).
  lia.
Qed.

Lemma cd_by_command path w :
  cd path w
  = match sendCommand ("CWD " ++ path) false w with
    | (Resolved _, w') => (Resolved tt, w')
    | (Pending, w') => (Pending, w')
    | (Rejected e, w') => (Rejected e, w')
    end.
Proof.
  unfold cd, bind, ret.
  destruct (sendCommand ("CWD " ++ path) false w) as [[|r|e] w']; reflexivity.
Qed.

Lemma mkdir_by_command path w :
  mkdir path w
  = match sendCommand ("MKD " ++ path) false w with
    | (Resolved _, w') => (Resolved tt, w')
    | (Pending, w') => (Pending, w')
    | (Rejected e, w') => (Rejected e, w')
    end.
Proof.
  unfold mkdir, bind, ret.
  destruct (sendCommand ("MKD " ++ path) false w) as [[|r|e] w']; reflexivity.
Qed.

Lemma ensureDir_body_run self dirPath recursive w :
  body_run self dirPath recursive w (ensureDir_body self dirPath recursive w).
Proof.
  rewrite ensureDir_body_steps.
  destruct ((normalizePath dirPath =? "/")%string
            || (normalizePath dirPath =? ".")%string) eqn:Hroot.
  - apply run_trivial, Hroot.
  - unfold bind at 1. unfold try_catch at 1. unfold bind at 1.
    rewrite cd_by_command.
    destruct (sendCommand ("CWD " ++ normalizePath dirPath) false w)
      as [[|reply|e0] w0] eqn:Hcd; cbn [ret].
    + eapply run_probe_pending; eassumption.
    + eapply run_found; eassumption.
    + unfold bind at 1.
      destruct (parent_step self (normalizePath dirPath) recursive w0)
        as [[|[]|e1] w1] eqn:Hparent.
      * eapply run_parent_pending; eassumption.
      * unfold try_catch. rewrite mkdir_by_command.
        destruct (sendCommand ("MKD " ++ normalizePath dirPath) false w1)
          as [[|reply|err] w2] eqn:Hmkd.
        -- eapply run_mkd_pending; eassumption.
        -- eapply run_created; eassumption.
        -- replace (mkd_catch err w2)
             with (if JS.includes err "550" || JS.includes err "exists"
                   then Resolved tt else Rejected err, w2).
           ++ eapply run_mkd_failed; eassumption.
           ++ unfold mkd_catch.
              destruct (JS.includes err "550"), (JS.includes err "exists");
                reflexivity.
      * eapply run_parent_failed; eassumption.
Qed.

Lemma parent_step_cases self normalized recursive w :
  parent_step self normalized recursive w = (Resolved tt, w)
  \/ (negb (parentDir_of normalized =? "/")%string = true
      /\ negb (parentDir_of normalized =? ".")%string = true
      /\ parent_step self normalized recursive w
         = self (parentDir_of normalized) true w).
Proof.
  unfold parent_step. destruct recursive; [|left; reflexivity].
  destruct (negb (parentDir_of normalized =? "/")%string);
    [|left; reflexivity].
  destruct (negb (parentDir_of normalized =? ".")%string);
    [|left; reflexivity].
  right. repeat split.
Qed.

(** X11.  [ensureDir] is never rejected with an error whose text
    contains "550" or "exists": whatever the server answers, a failed
    CWD probe is never reported, and of the MKD errors only those
    without either text get through. *)
Theorem ensureDir_rejections :
  forall dirPath recursive w e w',
    ensureDir dirPath recursive w = (Rejected e, w') ->
    JS.includes e "550" = false /\ JS.includes e "exists" = false.
Proof.
  intros dirPath recursive w.
  apply (ensureDir_induction
           (fun _ _ _ r => forall e w', r = (Rejected e, w') ->
              JS.includes e "550" = false /\ JS.includes e "exists" = false)).
  clear. intros dirPath recursive w IH e w' Hr.
  destruct (ensureDir_body_run ensureDir dirPath recursive w)
    as [ | | | | e0 w0 e1 w1 _ Hcd Hparent | | | e0 w0 w1 err w2 _ Hcd Hparent Hmkd];
    try discriminate Hr.
  - injection Hr as <- <-.
    destruct (parent_step_cases ensureDir (normalizePath dirPath) recursive w0)
      as [Hnone|[Hp [_ Hself]]]; [congruence|].
    rewrite Hself in Hparent. exact (IH Hp w0 e1 w1 Hparent).
  - destruct (JS.includes err "550") eqn:H550; [discriminate Hr|].
    destruct (JS.includes err "exists") eqn:Hex; [discriminate Hr|].
    cbn [orb] in Hr. injection Hr as <- <-. split; assumption.
Qed.

Lemma ensureDir_rejections_witness :
  JS.includes "FTP Error 452: Disk full" "550" = false
  /\ JS.includes "FTP Error 452: Disk full" "exists" = false.
Proof.
  apply (ensureDir_rejections "/new" true
           (online new_client,
            [Response "550 No such directory"; Response "452 Disk full"])
           "FTP Error 452: Disk full"
           (sent (sent (online new_client) "CWD /new") "MKD /new", [])).
  reflexivity.
Defined.

(** X12.  On a client that is not connected [ensureDir] writes nothing
    and changes nothing: it resolves for the root and the current
    directory, and is rejected with "Not connected" for every other
    path (the failed CWD probes are passed over, the first MKD is what
    fails). *)
Theorem ensureDir_not_connected :
  forall dirPath recursive w,
    connected (fst w) = false ->
    ensureDir dirPath recursive w
    = (if (normalizePath dirPath =? "/")%string
          || (normalizePath dirPath =? ".")%string
       then Resolved tt
       else Rejected "Not connected",
       w).
Proof.
  intros dirPath recursive w.
  apply (ensureDir_induction
           (fun dirPath _ w r =>
              connected (fst w) = false ->
              r = (if (normalizePath dirPath =? "/")%string
                      || (normalizePath dirPath =? ".")%string
                   then Resolved tt
                   else Rejected "Not connected",
                   w))).
  clear. intros dirPath recursive [c events] IH Hc. cbn [fst] in Hc.
  assert (Hsend : forall command,
             sendCommand command false (c, events)
             = (Rejected "Not connected", (c, events)))
    by (intros command; apply sendCommand_not_connected, Hc).
  assert (Hparent :
            parent_step ensureDir (normalizePath dirPath) recursive (c, events)
            = (Resolved tt, (c, events))
            \/ parent_step ensureDir (normalizePath dirPath) recursive (c, events)
               = (Rejected "Not connected", (c, events))).
  { destruct (parent_step_cases ensureDir (normalizePath dirPath) recursive
                (c, events)) as [H|[Hp [_ Hself]]]; [left; exact H|].
    rewrite Hself, (IH Hp (c, events) Hc).
    destruct ((normalizePath (parentDir_of (normalizePath dirPath)) =? "/")%string
              || (normalizePath (parentDir_of (normalizePath dirPath)) =? ".")%string);
      [left | right]; reflexivity. }
  destruct (ensureDir_body_run ensureDir dirPath recursive (c, events))
    as [Hroot | w0 Hroot Hcd | reply w0 Hroot Hcd | e0 w0 w1 Hroot Hcd Hp
        | e0 w0 e1 w1 Hroot Hcd Hp | e0 w0 w1 w2 Hroot Hcd Hp Hmkd
        | e0 w0 w1 reply w2 Hroot Hcd Hp Hmkd
        | e0 w0 w1 err w2 Hroot Hcd Hp Hmkd];
    rewrite Hroot; [reflexivity | ..]; rewrite Hsend in Hcd;
    try discriminate Hcd; injection Hcd as <- <-.
  - destruct Hparent as [H|H]; rewrite H in Hp; discriminate Hp.
  - destruct Hparent as [H|H]; rewrite H in Hp; [discriminate Hp|].
    injection Hp as <- <-. reflexivity.
  - destruct Hparent as [H|H]; rewrite H in Hp; [|discriminate Hp].
    injection Hp as <-. rewrite Hsend in Hmkd. discriminate Hmkd.
  - destruct Hparent as [H|H]; rewrite H in Hp; [|discriminate Hp].
    injection Hp as <-. rewrite Hsend in Hmkd. discriminate Hmkd.
  - destruct Hparent as [H|H]; rewrite H in Hp; [|discriminate Hp].
    injection Hp as <-. rewrite Hsend in Hmkd. injection Hmkd as <- <-.
    reflexivity.
Qed.

Lemma ensureDir_not_connected_witness :
  ensureDir "/a/b" true (new_client, [Response "250 ok"])
  = (Rejected "Not connected", (new_client, [Response "250 ok"])).
Proof.
  apply (ensureDir_not_connected "/a/b" true
           (new_client, [Response "250 ok"]) eq_refl).
Defined.

Lemma wrote_nothing w : wrote [] w w.
Proof.
  unfold wrote. rewrite app_nil_r. cbn [length Z.of_nat].
  repeat split. lia.
Qed.

Lemma wrote_trans a b w w1 w2 :
  wrote a w w1 -> wrote b w1 w2 -> wrote (a ++ b) w w2.
Proof.
  unfold wrote. intros [Hs1 [Hn1 [Hc1 [Ha1 Hb1]]]] [Hs2 [Hn2 [Hc2 [Ha2 Hb2]]]].
  rewrite Hs2, Hs1, Hn2, Hn1, Hc2, Hc1, Ha2, Ha1, Hb2, Hb1.
  rewrite length_app, Nat2Z.inj_add, app_assoc. repeat split. lia.
Qed.

Lemma sendCommand_wrote command allowPreliminary w p w' :
  sendCommand command allowPreliminary w = (p, w') ->
  exists cmds,
    wrote cmds w w' /\ (cmds = [] \/ cmds = [(command ++ JS.CRLF)%string]).
Proof.
  destruct w as [c events]. destruct (connected c) eqn:Hc.
  - rewrite (sendCommand_connected _ _ _ _ Hc). intros H. injection H as _ <-.
    exists [(command ++ JS.CRLF)%string]. split; [|right; reflexivity].
    unfold wrote. cbn [fst sent socket _commandCount connected authenticated
                       buffer length Z.of_nat Pos.of_succ_nat].
    repeat split.
  - rewrite (sendCommand_not_connected _ _ _ _ Hc). intros H. injection H as _ <-.
    exists []. split; [apply wrote_nothing | left; reflexivity].
Qed.

Lemma sendCommand_wrote_marked command w p w' :
  cwd_or_mkd (command ++ JS.CRLF) = true ->
  sendCommand command false w = (p, w') ->
  exists cmds,
    wrote cmds w w'
    /\ Forall (fun written => cwd_or_mkd written = true) cmds
    /\ (length cmds <= 1)%nat.
Proof.
  intros Hmark H.
  destruct (sendCommand_wrote _ _ _ _ _ H) as [cmds [Hw [Hc|Hc]]]; subst cmds.
  - exists []. split; [exact Hw|]. split; [constructor | cbn [length]; lia].
  - exists [(command ++ JS.CRLF)%string]. split; [exact Hw|]. split.
    + constructor; [exact Hmark | constructor].
    + cbn [length]. lia.
Qed.

Lemma cwd_marked path : cwd_or_mkd (("CWD " ++ path) ++ JS.CRLF) = true.
Proof.
  unfold cwd_or_mkd, JS.startsWith. rewrite append_assoc, prefix_append.
  reflexivity.
Qed.

Lemma mkd_marked path : cwd_or_mkd (("MKD " ++ path) ++ JS.CRLF) = true.
Proof.
  unfold cwd_or_mkd, JS.startsWith. rewrite append_assoc, prefix_append.
  apply orb_true_r.
Qed.

(** X13.  Whatever the server answers, [ensureDir] writes nothing but
    CWD and MKD commands to the control socket, counts each of them in
    [_commandCount], and leaves [connected], [authenticated] and the
    buffer alone; without [recursive] it writes at most two commands. *)
Theorem ensureDir_writes :
  forall dirPath recursive w,
    exists cmds,
      wrote cmds w (snd (ensureDir dirPath recursive w))
      /\ Forall (fun written => cwd_or_mkd written = true) cmds
      /\ (recursive = false -> (length cmds <= 2)%nat).
Proof.
  intros dirPath recursive w.
  apply (ensureDir_induction
           (fun _ recursive w r =>
              exists cmds,
                wrote cmds w (snd r)
                /\ Forall (fun written => cwd_or_mkd written = true) cmds
                /\ (recursive = false -> (length cmds <= 2)%nat))).
  clear. intros dirPath recursive w IH.
  assert (Hcwd : forall w0 p w1,
             sendCommand ("CWD " ++ normalizePath dirPath) false w0 = (p, w1) ->
             exists cmds, wrote cmds w0 w1
                          /\ Forall (fun x => cwd_or_mkd x = true) cmds
                          /\ (length cmds <= 1)%nat).
  { intros w0 p w1 H.
    exact (sendCommand_wrote_marked ("CWD " ++ normalizePath dirPath) _ _ _
             (cwd_marked _) H). }
  assert (Hmkd : forall w0 p w1,
             sendCommand ("MKD " ++ normalizePath dirPath) false w0 = (p, w1) ->
             exists cmds, wrote cmds w0 w1
                          /\ Forall (fun x => cwd_or_mkd x = true) cmds
                          /\ (length cmds <= 1)%nat).
  { intros w0 p w1 H.
    exact (sendCommand_wrote_marked ("MKD " ++ normalizePath dirPath) _ _ _
             (mkd_marked _) H). }
  assert (Hparent : forall w0 p w1,
             parent_step ensureDir (normalizePath dirPath) recursive w0 = (p, w1) ->
             exists cmds, wrote cmds w0 w1
                          /\ Forall (fun x => cwd_or_mkd x = true) cmds
                          /\ (recursive = false -> cmds = [])).
  { intros w0 p w1 H. destruct recursive.
    - destruct (parent_step_cases ensureDir (normalizePath dirPath) true w0)
        as [Hnone|[Hp [_ Hself]]].
      + rewrite Hnone in H. injection H as _ <-. exists [].
        split; [apply wrote_nothing|]. split; [constructor | reflexivity].
      + destruct (IH Hp w0) as [cmds [Hw [Hall _]]].
        rewrite <- Hself, H in Hw. cbn [snd] in Hw. exists cmds.
        split; [exact Hw|]. split; [exact Hall | discriminate].
    - cbn [parent_step ret] in H. injection H as _ <-. exists [].
      split; [apply wrote_nothing|]. split; [constructor | reflexivity]. }
  destruct (ensureDir_body_run ensureDir dirPath recursive w)
    as [Hroot | w0 Hroot Hcd | reply w0 Hroot Hcd | e0 w0 w1 Hroot Hcd Hp
        | e0 w0 e1 w1 Hroot Hcd Hp | e0 w0 w1 w2 Hroot Hcd Hp Hm
        | e0 w0 w1 reply w2 Hroot Hcd Hp Hm
        | e0 w0 w1 err w2 Hroot Hcd Hp Hm]; cbn [snd].
  - exists []. split; [apply wrote_nothing|]. split; [constructor|].
    intros _. cbn [length]. lia.
  - destruct (Hcwd _ _ _ Hcd) as [a [Ha [Fa La]]]. exists a.
    split; [exact Ha|]. split; [exact Fa | lia].
  - destruct (Hcwd _ _ _ Hcd) as [a [Ha [Fa La]]]. exists a.
    split; [exact Ha|]. split; [exact Fa | lia].
  - destruct (Hcwd _ _ _ Hcd) as [a [Ha [Fa La]]].
    destruct (Hparent _ _ _ Hp) as [b [Hb [Fb Lb]]]. exists (a ++ b)%list.
    split; [exact (wrote_trans _ _ _ _ _ Ha Hb)|].
    split; [apply Forall_app; split; assumption|].
    intros Hrec. rewrite (Lb Hrec), app_nil_r. lia.
  - destruct (Hcwd _ _ _ Hcd) as [a [Ha [Fa La]]].
    destruct (Hparent _ _ _ Hp) as [b [Hb [Fb Lb]]]. exists (a ++ b)%list.
    split; [exact (wrote_trans _ _ _ _ _ Ha Hb)|].
    split; [apply Forall_app; split; assumption|].
    intros Hrec. rewrite (Lb Hrec), app_nil_r. lia.
  - destruct (Hcwd _ _ _ Hcd) as [a [Ha [Fa La]]].
    destruct (Hparent _ _ _ Hp) as [b [Hb [Fb Lb]]].
    destruct (Hmkd _ _ _ Hm) as [m [Hm' [Fm Lm]]].
    exists ((a ++ b) ++ m)%list.
    split; [exact (wrote_trans _ _ _ _ _ (wrote_trans _ _ _ _ _ Ha Hb) Hm')|].
    split; [repeat (apply Forall_app; split); assumption|].
    intros Hrec. rewrite (Lb Hrec), app_nil_r, length_app. lia.
  - destruct (Hcwd _ _ _ Hcd) as [a [Ha [Fa La]]].
    destruct (Hparent _ _ _ Hp) as [b [Hb [Fb Lb]]].
    destruct (Hmkd _ _ _ Hm) as [m [Hm' [Fm Lm]]].
    exists ((a ++ b) ++ m)%list.
    split; [exact (wrote_trans _ _ _ _ _ (wrote_trans _ _ _ _ _ Ha Hb) Hm')|].
    split; [repeat (apply Forall_app; split); assumption|].
    intros Hrec. rewrite (Lb Hrec), app_nil_r, length_app. lia.
  - destruct (Hcwd _ _ _ Hcd) as [a [Ha [Fa La]]].
    destruct (Hparent _ _ _ Hp) as [b [Hb [Fb Lb]]].
    destruct (Hmkd _ _ _ Hm) as [m [Hm' [Fm Lm]]].
    exists ((a ++ b) ++ m)%list.
    split; [exact (wrote_trans _ _ _ _ _ (wrote_trans _ _ _ _ _ Ha Hb) Hm')|].
    split; [repeat (apply Forall_app; split); assumption|].
    intros Hrec. rewrite (Lb Hrec), app_nil_r, length_app. lia.
Qed.

(* ----------------------------------------------------------------- *)
(** ** The framing of reply lines: what is emitted *)

Lemma in_removelast {A} (x : A) l : In x (removelast l) -> In x l.
Proof.
  induction l as [|y l IH]; [intros []|].
  destruct l as [|z l']; [intros []|].
  change (removelast (y :: z :: l')) with (y :: removelast (z :: l')).
  intros [->|H]; [left; reflexivity | right; exact (IH H)].
Qed.

Lemma onData_lines_clean c data line :
  In line (snd (onData c data)) -> line <> "" /\ has_crlf line = false.
Proof.
  cbn [onData snd]. intros H. apply filter_In in H. destruct H as [Hin Hne].
  split.
  - unfold nonempty in Hne. apply negb_true_iff in Hne.
    apply String.eqb_neq. exact Hne.
  - pose proof (split_crlf_segments (buffer c ++ data)) as Hall.
    rewrite Forall_forall in Hall. apply Hall, in_removelast, Hin.
Qed.

(** X14.  Whatever the chunks and whatever the buffer held before, no
    line handed to the emit loop is empty or contains a CRLF, and after
    at least one chunk the buffer contains no CRLF: it never holds a
    complete line. *)
Theorem framing_invariant :
  forall chunks c,
    (forall line, In line (snd (onData_all c chunks)) ->
                  line <> "" /\ has_crlf line = false)
    /\ (chunks <> [] ->
        has_crlf (buffer (fst (onData_all c chunks))) = false).
Proof.
  intros chunks. induction chunks as [|data rest IH]; intros c.
  - split; [intros line [] | congruence].
  - cbn [onData_all].
    destruct (onData c data) as [c1 lines] eqn:Hstep.
    destruct (IH c1) as [IHlines IHbuffer].
    destruct (onData_all c1 rest) as [c2 more] eqn:Hrest. cbn [fst snd] in *.
    split.
    + intros line Hin. apply in_app_or in Hin. destruct Hin as [Hin|Hin].
      * apply (onData_lines_clean c data). rewrite Hstep. exact Hin.
      * exact (IHlines line Hin).
    + intros _. destruct rest as [|data' rest'].
      * cbn [onData_all] in Hrest. injection Hrest as <- _.
        assert (Hb : buffer c1 = buffer (fst (onData c data)))
          by (rewrite Hstep; reflexivity).
        rewrite Hb. apply last_segment_no_crlf.
      * apply IHbuffer. discriminate.
Qed.

(* ----------------------------------------------------------------- *)
(** ** Transfers: how their promise settles *)

(** X16.  A transfer whose data socket has closed, whose fallback timer
    has not fired and which nothing has settled yet is resolved by the
    next line whose code is 226 or 250 (its 4th character is not looked
    at): an upload with no value, a download with the bytes of the
    chunks received, in the order of their arrival, a list with these
    bytes read as UTF-8. *)
Theorem transfer_completes :
  forall k path c before window line,
    ~ In Fallback window ->
    outcome (transfer_run (transfer_open k path c)
               (before ++ DataClose :: window)) = Pending ->
    JS.eq (reply_code line) 226 || JS.eq (reply_code line) 250 = true ->
    outcome
      (transfer_run (transfer_open k path c)
         (before ++ DataClose :: window ++ [reply_line line]))
    = Resolved
        (resolution k
           (chunks (transfer_run (transfer_open k path c)
                      (before ++ DataClose :: window)))).
Proof.
  intros k path c before window line Hnot Ho Hcode.
  destruct (pending_after_close k path c before window Hnot Ho)
    as [Hf [_ Hk]].
  assert (Hsnoc : (before ++ DataClose :: window ++ [reply_line line]
                   = (before ++ DataClose :: window) ++ [reply_line line])%list)
    by (rewrite <- app_assoc; reflexivity).
  rewrite Hsnoc, transfer_run_snoc.
  set (t := transfer_run (transfer_open k path c)
              (before ++ DataClose :: window)) in *.
  unfold reply_line. cbn [transfer_step]. rewrite Hf, Hk, Ho.
  unfold finalHandler_run. fold (reply_code line). rewrite Hcode.
  cbn [outcome resolve]. apply catch_reject_resolved.
Qed.

Lemma transfer_completes_witness :
  outcome
    (transfer_run (transfer_open Listing "/pub" (online new_client))
       ([DataConnect; reply_line "150 Here comes the listing";
         DataChunk "a.t"; DataChunk "xt"]
        ++ DataClose :: [reply_line "200 NOOP ok"]
        ++ [reply_line "226-Closing"]))
  = Resolved (Text [97; 46; 116; 120; 116]).
Proof.
  refine (transfer_completes Listing "/pub" (online new_client)
            [DataConnect; reply_line "150 Here comes the listing";
             DataChunk "a.t"; DataChunk "xt"]
            [reply_line "200 NOOP ok"] "226-Closing" _ eq_refl eq_refl).
  intros [H|[]]. discriminate H.
Defined.

(** X17.  An upload or a download whose data socket has closed, whose
    fallback timer has not fired and which nothing has settled yet is
    rejected by the next line whose code is at least 400, with
    "FTP Error <code>: <text>". *)
Theorem transfer_fails_on_error_reply :
  forall k path c before window line,
    k <> Listing ->
    ~ In Fallback window ->
    outcome (transfer_run (transfer_open k path c)
               (before ++ DataClose :: window)) = Pending ->
    JS.ge (reply_code line) 400 = true ->
    outcome
      (transfer_run (transfer_open k path c)
         (before ++ DataClose :: window ++ [reply_line line]))
    = Rejected (error_of line).
Proof.
  intros k path c before window line Hk' Hnot Ho Hcode.
  destruct (pending_after_close k path c before window Hnot Ho)
    as [Hf [_ Hk]].
  assert (Hsnoc : (before ++ DataClose :: window ++ [reply_line line]
                   = (before ++ DataClose :: window) ++ [reply_line line])%list)
    by (rewrite <- app_assoc; reflexivity).
  rewrite Hsnoc, transfer_run_snoc.
  set (t := transfer_run (transfer_open k path c)
              (before ++ DataClose :: window)) in *.
  unfold reply_line. cbn [transfer_step]. rewrite Hf, Hk, Ho.
  unfold finalHandler_run. fold (reply_code line).
  assert (Hne : JS.eq (reply_code line) 226 || JS.eq (reply_code line) 250 = false).
  { destruct (reply_code line) as [|z|negative];
      [discriminate Hcode| |reflexivity].
    cbn [JS.ge JS.eq] in *. apply Z.leb_le in Hcode.
    apply orb_false_iff. split; apply Z.eqb_neq; lia. }
  rewrite Hne, Hcode.
  destruct k; [| |congruence]; cbn [outcome reject];
    apply catch_reject_rejected.
Qed.

Lemma transfer_fails_on_error_reply_witness :
  outcome
    (transfer_run (transfer_open (Upload "hello") "/f.txt" (online new_client))
       ([DataConnect; reply_line "150 Opening data connection"]
        ++ DataClose :: []
        ++ [reply_line "552 Storage allocation exceeded"]))
  = Rejected "FTP Error 552: Storage allocation exceeded".
Proof.
  refine (transfer_fails_on_error_reply (Upload "hello") "/f.txt"
            (online new_client)
            [DataConnect; reply_line "150 Opening data connection"] []
            "552 Storage allocation exceeded" _ _ eq_refl eq_refl).
  - discriminate.
  - intros [].
Defined.

Lemma transfer_step_not_listening t e :
  e <> DataClose -> finalHandler t = false ->
  finalHandler (transfer_step t e) = false.
Proof.
  intros He Hf. destruct e as [[line|]| |chunk|message| |];
    cbn [transfer_step].
  - rewrite Hf. reflexivity.
  - exact Hf.
  - destruct (commandSent t); [exact Hf|].
    destruct (sendCommand_start _ _ true). exact Hf.
  - destruct (kind t); exact Hf.
  - exact Hf.
  - congruence.
  - destruct (fallbackTimer t); [reflexivity | exact Hf].
Qed.

Lemma transfer_run_not_listening events : forall t,
  ~ In DataClose events -> finalHandler t = false ->
  finalHandler (transfer_run t events) = false.
Proof.
  induction events as [|e events IH]; intros t Hnot Hf; [exact Hf|].
  cbn [transfer_run fold_left]. apply IH.
  - intros Hin. apply Hnot. right. exact Hin.
  - apply transfer_step_not_listening; [|exact Hf].
    intros ->. apply Hnot. left. reflexivity.
Qed.

Lemma responseHandler_success cmd line :
  is_success line = true ->
  (forall e, result cmd <> Rejected e) ->
  forall e, result (responseHandler cmd line) <> Rejected e.
Proof.
  unfold is_success. intros Hs Hres e. unfold responseHandler.
  fold (reply_code line).
  destruct (JS.charAt_is line 3 " "); [|apply Hres].
  destruct (JS.ge (reply_code line) 100 && JS.lt (reply_code line) 200
            && allowPreliminary cmd); [apply Hres|].
  rewrite Hs. cbn [result].
  destruct (result cmd) eqn:Hr; cbn [resolve]; try discriminate.
  intros Habs. apply (Hres e). exact Habs.
Qed.

Lemma terminal_code_success line :
  JS.eq (reply_code line) 226 || JS.eq (reply_code line) 250 = true ->
  is_success line = true.
Proof.
  unfold is_success.
  destruct (reply_code line) as [|z|negative]; [discriminate| |discriminate].
  cbn [JS.eq JS.ge JS.lt]. intros H. apply orb_true_iff in H.
  apply andb_true_iff.
  destruct H as [H|H]; apply Z.eqb_eq in H; subst z; split; reflexivity.
Qed.

(** X18.  A 226 or 250 that arrives before the data socket has closed
    does not complete the transfer: [finalHandler] is subscribed only by
    the ['close'] handler, so the transfer is still pending after the
    line and after the close.  If the fallback timer is the next thing
    to happen, it resolves an upload and a list, and a download that has
    received a chunk; a download that has received none is still
    pending after it. *)
Theorem transfer_misses_early_reply :
  forall k path c before line,
    ~ In DataClose before ->
    outcome (transfer_run (transfer_open k path c) before) = Pending ->
    JS.eq (reply_code line) 226 || JS.eq (reply_code line) 250 = true ->
    outcome
      (transfer_run (transfer_open k path c)
         (before ++ [reply_line line; DataClose]))
    = Pending
    /\ outcome
         (transfer_run (transfer_open k path c)
            (before ++ [reply_line line; DataClose; Fallback]))
       = match k, chunks (transfer_run (transfer_open k path c) before) with
         | Download, [] => Pending
         | _, received => Resolved (resolution k received)
         end.
Proof.
  intros k path c before line Hnot Hpending Hcode.
  set (t := transfer_run (transfer_open k path c) before) in *.
  assert (Hinv : command_invariant t)
    by apply transfer_run_invariant, transfer_open_invariant.
  assert (Hk : kind t = k) by apply transfer_run_kind.
  assert (Hf : finalHandler t = false)
    by (apply transfer_run_not_listening; [exact Hnot | reflexivity]).
  set (t1 := transfer_step t (reply_line line)).
  assert (H1 : outcome t1 = Pending /\ chunks t1 = chunks t /\ kind t1 = kind t).
  { unfold t1, reply_line. cbn [transfer_step]. rewrite Hf.
    cbn [outcome chunks kind]. split; [|split; reflexivity].
    unfold command_invariant in Hinv.
    destruct (transferCommand t) as [cmd|]; [|exact Hpending].
    cbn [option_map]. destruct Hinv as [_ Hrej].
    assert (Hres : forall e, result cmd <> Rejected e)
      by (intros e He; exact (Hrej e He Hpending)).
    assert (Hres' : forall e, result (deliver cmd (Response line)) <> Rejected e).
    { cbn [deliver]. destruct (subscribed cmd); [|exact Hres].
      apply responseHandler_success; [apply terminal_code_success, Hcode|].
      exact Hres. }
    destruct (deliver cmd (Response line)) as [cm ap tm sb res].
    cbn [result] in Hres'. cbn [catch_reject].
    destruct res as [|v|e]; [exact Hpending | exact Hpending|].
    destruct (Hres' e eq_refl). }
  destruct H1 as [Ho1 [Hc1 Hk1]].
  assert (Hinv1 : command_invariant t1) by apply transfer_step_invariant, Hinv.
  pose proof (closed_waiting_at_close t1 Hinv1 Ho1) as [Hk2 Hc2 _ Ht2 Ho2 _].
  change (before ++ [reply_line line; DataClose])%list
    with (before ++ [reply_line line] ++ [DataClose])%list.
  change (before ++ [reply_line line; DataClose; Fallback])%list
    with (before ++ [reply_line line] ++ [DataClose] ++ [Fallback])%list.
  rewrite !transfer_run_app. fold t.
  change (transfer_run t [reply_line line]) with t1.
  change (transfer_run t1 [DataClose]) with (transfer_step t1 DataClose).
  split; [exact Ho2|].
  change (transfer_run (transfer_step t1 DataClose) [Fallback])
    with (transfer_step (transfer_step t1 DataClose) Fallback).
  cbn [transfer_step] in *. cbn [fallbackTimer outcome kind chunks] in *.
  rewrite Ho1, Hk1, Hc1, Hk.
  destruct k; cbn [fallback_run]; destruct (chunks t) eqn:E;
    unfold t in E; try rewrite E; reflexivity.
Qed.

Lemma transfer_misses_early_reply_witness :
  outcome
    (transfer_run (transfer_open Download "/empty.txt" (online new_client))
       ([DataConnect; reply_line "150 Opening data connection"]
        ++ [reply_line "226 Transfer complete"; DataClose; Fallback]))
  = Pending.
Proof.
  assert (Hnot : ~ In DataClose
                     [DataConnect; reply_line "150 Opening data connection"]).
  { intros [H|[H|[]]]; discriminate H. }
  apply (proj2 (transfer_misses_early_reply Download "/empty.txt"
                  (online new_client)
                  [DataConnect; reply_line "150 Opening data connection"]
                  "226 Transfer complete"
                  Hnot eq_refl eq_refl)).
Defined.

(** X19.  A transfer whose data socket connects while the control
    channel is not connected is rejected with "Not connected" for good;
    an upload has then written its payload to the data socket all the
    same. *)
Theorem transfer_not_connected :
  forall k path c rest,
    connected c = false ->
    outcome (transfer_run (transfer_open k path c) (DataConnect :: rest))
    = Rejected "Not connected"
    /\ dataSocket (transfer_step (transfer_open k path c) DataConnect)
       = match k with Upload data => [data] | _ => [] end.
Proof.
  intros k path c rest Hc. cbn [transfer_run fold_left].
  change (fold_left transfer_step rest ?t) with (transfer_run t rest).
  assert (Hstep : transfer_step (transfer_open k path c) DataConnect
                  = mkTransfer k path c true
                      (Some (mkCommand (transfer_verb k ++ path) true false false
                               (Rejected "Not connected")))
                      [] match k with Upload data => [data] | _ => [] end
                      false false (Rejected "Not connected")).
  { cbn [transfer_step transfer_open commandSent client kind remotePath
         chunks dataSocket finalHandler fallbackTimer outcome].
    unfold sendCommand_start. rewrite Hc. cbn [negb catch_reject reject].
    destruct k; reflexivity. }
  rewrite Hstep. split; [|reflexivity].
  rewrite transfer_run_settled by discriminate. reflexivity.
Qed.

Lemma transfer_not_connected_witness :
  outcome
    (transfer_run (transfer_open (Upload "hello") "/f.txt" new_client)
       (DataConnect :: [DataClose; reply_line "226 Transfer complete"]))
  = Rejected "Not connected".
Proof.
  apply (proj1 (transfer_not_connected (Upload "hello") "/f.txt" new_client
                  [DataClose; reply_line "226 Transfer complete"] eq_refl)).
Defined.

Lemma reject_not_resolved {A} (p : promise A) e :
  (forall v, p <> Resolved v) -> forall v, reject p e <> Resolved v.
Proof. intros H v. destruct p; cbn [reject]; [discriminate | apply H | discriminate]. Qed.

Lemma catch_reject_not_resolved cmd p :
  (forall v, p <> Resolved v) -> forall v, catch_reject cmd p <> Resolved v.
Proof.
  intros H. destruct cmd as [[cm ap tm sb [|r|e]]|]; cbn [catch_reject];
    try exact H. apply reject_not_resolved, H.
Qed.

(** Once the timer has fired, nothing resolves a transfer any more as
    long as the data socket does not close again. *)
Lemma transfer_step_unheard t e :
  e <> DataClose ->
  finalHandler t = false -> fallbackTimer t = false ->
  (forall v, outcome t <> Resolved v) ->
  finalHandler (transfer_step t e) = false
  /\ fallbackTimer (transfer_step t e) = false
  /\ forall v, outcome (transfer_step t e) <> Resolved v.
Proof.
  intros He Hf Ht Ho. destruct e as [[line|]| |chunk|message| |];
    cbn [transfer_step].
  - rewrite Hf. cbn [finalHandler fallbackTimer outcome].
    split; [reflexivity|]. split; [exact Ht|].
    apply catch_reject_not_resolved, Ho.
  - cbn [finalHandler fallbackTimer outcome].
    split; [exact Hf|]. split; [exact Ht|].
    apply catch_reject_not_resolved, Ho.
  - destruct (commandSent t); [auto|].
    destruct (sendCommand_start _ _ true).
    cbn [finalHandler fallbackTimer outcome].
    split; [exact Hf|]. split; [exact Ht|].
    apply catch_reject_not_resolved, Ho.
  - destruct (kind t); cbn [finalHandler fallbackTimer outcome]; auto.
  - cbn [finalHandler fallbackTimer outcome].
    split; [exact Hf|]. split; [exact Ht|]. apply reject_not_resolved, Ho.
  - congruence.
  - rewrite Ht. auto.
Qed.

Lemma transfer_run_unheard later : forall t,
  ~ In DataClose later ->
  finalHandler t = false -> fallbackTimer t = false ->
  (forall v, outcome t <> Resolved v) ->
  forall v, outcome (transfer_run t later) <> Resolved v.
Proof.
  induction later as [|e later IH]; intros t Hnot Hf Ht Ho; [exact Ho|].
  cbn [transfer_run fold_left].
  assert (He : e <> DataClose) by (intros ->; apply Hnot; left; reflexivity).
  destruct (transfer_step_unheard t e He Hf Ht Ho) as [Hf' [Ht' Ho']].
  apply IH; try assumption. intros Hin. apply Hnot. right. exact Hin.
Qed.

(** X20.  A download that has received no chunk and is still pending
    when the fallback timer fires is never resolved: the timer's
    callback unsubscribes [finalHandler] and resolves only [if
    (chunks.length > 0)], so that whatever comes after it, a 226
    included, leaves the download pending or rejects it. *)
Theorem download_without_data_never_resolves :
  forall path c before window later,
    ~ In Fallback window ->
    ~ In DataClose later ->
    outcome (transfer_run (transfer_open Download path c)
               (before ++ DataClose :: window)) = Pending ->
    chunks (transfer_run (transfer_open Download path c)
              (before ++ DataClose :: window)) = [] ->
    forall v,
      outcome (transfer_run (transfer_open Download path c)
                 (before ++ DataClose :: window ++ Fallback :: later))
      <> Resolved v.
Proof.
  intros path c before window later Hnot Hlater Ho Hc.
  destruct (pending_after_close Download path c before window Hnot Ho)
    as [_ [Ht Hk]].
  assert (Hsplit : (before ++ DataClose :: window ++ Fallback :: later
                    = (before ++ DataClose :: window) ++ Fallback :: later)%list)
    by (rewrite <- app_assoc; reflexivity).
  rewrite Hsplit, transfer_run_app.
  set (t := transfer_run (transfer_open Download path c)
              (before ++ DataClose :: window)) in *.
  cbn [transfer_run fold_left].
  change (fold_left transfer_step later ?t') with (transfer_run t' later).
  apply transfer_run_unheard; try assumption.
  - cbn [transfer_step]. rewrite Ht. reflexivity.
  - cbn [transfer_step]. rewrite Ht. reflexivity.
  - cbn [transfer_step]. rewrite Ht. cbn [outcome]. rewrite Hk, Hc, Ho.
    cbn [fallback_run]. discriminate.
Qed.

(** The 226 of an empty file comes before the ['close'] event and is
    missed; after the timer a second 226 does not help either. *)
Lemma download_without_data_never_resolves_witness :
  outcome
    (transfer_run (transfer_open Download "/empty.txt" (online new_client))
       ([DataConnect; reply_line "150 Opening data connection";
         reply_line "226 Transfer complete"]
        ++ DataClose :: []
        ++ Fallback :: [reply_line "226 Transfer complete"; Control Deadline]))
  <> Resolved (Data "").
Proof.
  refine (download_without_data_never_resolves "/empty.txt" (online new_client)
            [DataConnect; reply_line "150 Opening data connection";
             reply_line "226 Transfer complete"] []
            [reply_line "226 Transfer complete"; Control Deadline]
            _ _ eq_refl eq_refl (Data "")).
  - intros [].
  - intros [H|[H|[]]]; discriminate H.
Defined.

(* ----------------------------------------------------------------- *)
(** ** The emit loop: the login exchange *)










